(** * duplicity: glob selection (globmatch.py) and lazy iterators (lazy.py)

    A shallow embedding of [duplicity/globmatch.py] and of the stream
    multiplexers and the tree reducer of [duplicity/lazy.py], with the
    properties their specification states about them.

    Python strings are modelled as [string] (sequences of 8-bit characters),
    Python exceptions as an explicit result type, mutable objects as records
    that are threaded through the calls. *)

From Stdlib Require Import ZArith Lia Bool Ascii String List OrderedTypeEx.
From stdpp Require Import base list strings.

Local Open Scope char_scope.
Local Open Scope string_scope.
Local Open Scope list_scope.

(** ** Exceptions *)

(** The exceptions the modelled code can raise: [IndexError] (indexing an
    empty string or list, popping an empty list), [GlobbingError]
    (globmatch.py), [re.error] (raised by [re.compile]), [AssertionError],
    [TypeError] and [RuntimeError] (what a [StopIteration] raised in the
    body of a generator becomes for the caller of [next()]). *)
Inductive exn :=
  | IndexError
  | GlobbingError (msg : string)
  | ReError
  | AssertionError
  | TypeError
  | RuntimeError.

Inductive result (A : Type) :=
  | Ret (a : A)
  | Raise (e : exn).
Arguments Ret {A} a.
Arguments Raise {A} e.

Definition bind {A B} (r : result A) (k : A -> result B) : result B :=
  match r with
  | Ret a => k a
  | Raise e => Raise e
  end.

Notation "'let*' x ':=' r 'in' k" := (bind r (fun x => k))
  (at level 10, x pattern, r at level 100, k at level 200).

Definition raises {A} (r : result A) : Prop :=
  match r with Raise _ => True | Ret _ => False end.

(** ** Python string primitives *)

Module Py.

(** [s[i]] for an index the caller has checked to be in range. *)
Definition at_ (s : string) (i : nat) : ascii :=
  match String.get i s with
  | Some c => c
  | None => Ascii.zero
  end.

(** [s[i:j]]; Python clamps the slice at the end of the string. *)
Definition slice (s : string) (i j : nat) : string :=
  String.substring i (j - i) s.

(** [s[i:]]. *)
Definition slice_from (s : string) (i : nat) : string :=
  String.substring i (String.length s - i) s.

(** [s[-1]], which raises [IndexError] on the empty string. *)
Fixpoint last_char (s : string) : option ascii :=
  match s with
  | EmptyString => None
  | String c EmptyString => Some c
  | String _ s' => last_char s'
  end.

(** [s[:-1]]. *)
Fixpoint drop_last (s : string) : string :=
  match s with
  | EmptyString => EmptyString
  | String c EmptyString => EmptyString
  | String c s' => String c (drop_last s')
  end.

(** [c in chars] for a one-character string [c]. *)
Fixpoint char_in (c : ascii) (chars : string) : bool :=
  match chars with
  | EmptyString => false
  | String d rest => Ascii.eqb c d || char_in c rest
  end.

(** [s.replace(c, t)] for a one-character [c]. *)
Fixpoint replace_char (c : ascii) (t : string) (s : string) : string :=
  match s with
  | EmptyString => EmptyString
  | String d s' =>
      if Ascii.eqb d c then t +:+ replace_char c t s'
      else String d (replace_char c t s')
  end.

(** [s.split(sep)] for a one-character separator: never the empty list. *)
Fixpoint split (sep : ascii) (s : string) : list string :=
  match s with
  | EmptyString => [EmptyString]
  | String c s' =>
      if Ascii.eqb c sep then EmptyString :: split sep s'
      else match split sep s' with
           | h :: t => String c h :: t
           | [] => [String c EmptyString]
           end
  end.

(** [sep.join(parts)]. *)
Definition join (sep : string) (parts : list string) : string :=
  String.concat sep parts.

(** [s.find(sub)]: the first position of [sub] in [s]; [None] is Python's -1. *)
Definition find (s sub : string) : option nat := String.index 0 sub s.

(** [l[1:-1]] on lists. *)
Definition inner {A} (l : list A) : list A := removelast (tl l).

(** [x in l] for strings. *)
Definition mem (x : string) (l : list string) : bool :=
  existsb (String.eqb x) l.

End Py.

(** ** The fragment of Python's [re] that globmatch.py uses

    [glob_to_regex] emits escaped literals, [.*], [[^/]*], [[^/]] and
    character classes; [path_matches_glob] wraps them in [^...($|/)] and
    [^(...|...)$].  The model covers this dialect: literals, backslash escapes
    of non-alphanumeric characters, [.], postfix [*] on a one-character atom,
    character classes with ranges and negation, groups, alternation and the
    two anchors.  Patterns are compiled with [re.S], so [.] matches every
    character; without [re.M], [^] matches at the start of the string only and
    [$] at its end or just before a final newline. *)

Module Re.

Inductive charset :=
  | CsChar (c : ascii)
  | CsAny
  | CsClass (neg : bool) (ranges : list (ascii * ascii)).

Inductive token :=
  | TAtom (a : charset)
  | TStar
  | TLParen
  | TRParen
  | TBar
  | TCaret
  | TDollar.

Inductive regex :=
  | REmpty
  | RAtom (a : charset)
  | RStar (a : charset)
  | RBol
  | REol
  | RSeq (r1 r2 : regex)
  | RAlt (r1 r2 : regex).

Definition code (c : ascii) : N := N_of_ascii c.

Definition is_alnum (c : ascii) : bool :=
  let n := code c in
  ((48 <=? n) && (n <=? 57) || (65 <=? n) && (n <=? 90)
   || (97 <=? n) && (n <=? 122))%N.

(** *** Lexer: one character at a time *)

(** Where the lexer is inside a character class: [CStart] right after the
    bracket, [CItem] where the next set member starts, [CItemEsc] after a
    backslash there, [CHave c] once a member [c] is read and a [-] may
    follow, [CDash c] after that [-], [CDashEsc c] after a backslash
    there. *)
Inductive class_state :=
  | CStart
  | CItem
  | CItemEsc
  | CHave (c : ascii)
  | CDash (c : ascii)
  | CDashEsc (c : ascii).

Inductive lex_state :=
  | LNormal
  | LEscape
  | LClass (neg : bool) (acc : list (ascii * ascii)) (st : class_state).

Inductive lex_step :=
  | LErr
  | LGo (st : lex_state) (out : list token).

(** A set member [c] starts here; a closing bracket ends the set unless the
    set is still empty, in which case it is a member. *)
Definition lex_item (neg : bool) (acc : list (ascii * ascii)) (c : ascii)
  : lex_step :=
  if Ascii.eqb c "]" && negb (match acc with [] => true | _ => false end)
  then LGo LNormal [TAtom (CsClass neg acc)]
  else if Ascii.eqb c "\" then LGo (LClass neg acc CItemEsc) []
  else LGo (LClass neg acc (CHave c)) [].

Definition lex_range (neg : bool) (acc : list (ascii * ascii)) (lo hi : ascii)
  : lex_step :=
  if (code hi <? code lo)%N then LErr
  else LGo (LClass neg (acc ++ [(lo, hi)]) CItem) [].

Definition lex_char (st : lex_state) (c : ascii) : lex_step :=
  match st with
  | LNormal =>
      if Ascii.eqb c "\" then LGo LEscape []
      else if Ascii.eqb c "[" then LGo (LClass false [] CStart) []
      else if Ascii.eqb c "." then LGo LNormal [TAtom CsAny]
      else if Ascii.eqb c "*" then LGo LNormal [TStar]
      else if Ascii.eqb c "(" then LGo LNormal [TLParen]
      else if Ascii.eqb c ")" then LGo LNormal [TRParen]
      else if Ascii.eqb c "|" then LGo LNormal [TBar]
      else if Ascii.eqb c "^" then LGo LNormal [TCaret]
      else if Ascii.eqb c "$" then LGo LNormal [TDollar]
      else if Py.char_in c "+?{" then LErr
      else LGo LNormal [TAtom (CsChar c)]
  | LEscape =>
      if is_alnum c then LErr else LGo LNormal [TAtom (CsChar c)]
  | LClass neg acc CStart =>
      if Ascii.eqb c "^" then LGo (LClass true acc CItem) []
      else lex_item neg acc c
  | LClass neg acc CItem => lex_item neg acc c
  | LClass neg acc CItemEsc =>
      if is_alnum c then LErr else LGo (LClass neg acc (CHave c)) []
  | LClass neg acc (CHave c1) =>
      if Ascii.eqb c "-" then LGo (LClass neg acc (CDash c1)) []
      else lex_item neg (acc ++ [(c1, c1)]) c
  | LClass neg acc (CDash c1) =>
      if Ascii.eqb c "]"
      then LGo LNormal [TAtom (CsClass neg (acc ++ [(c1, c1); ("-"%char, "-"%char)]))]
      else if Ascii.eqb c "\" then LGo (LClass neg acc (CDashEsc c1)) []
      else lex_range neg acc c1 c
  | LClass neg acc (CDashEsc c1) =>
      if is_alnum c then LErr else lex_range neg acc c1 c
  end.

Fixpoint lex (st : lex_state) (s : string) : option (list token) :=
  match s with
  | EmptyString =>
      match st with
      | LNormal => Some []
      | _ => None
      end
  | String c s' =>
      match lex_char st c with
      | LErr => None
      | LGo st' out =>
          match lex st' s' with
          | Some ts => Some (out ++ ts)
          | None => None
          end
      end
  end.

(** *** Parser: a stack of open groups *)

(** Each frame holds the finished alternatives of a group and the items of
    the alternative being read, both most recent first. *)
Definition frame : Type := list regex * list regex.

Definition mk_seq (items_rev : list regex) : regex :=
  fold_left (fun acc r => RSeq r acc) items_rev REmpty.

Definition mk_alt (alts_rev : list regex) (last : regex) : regex :=
  fold_left (fun acc r => RAlt r acc) alts_rev last.

Definition close_frame (f : frame) : regex :=
  mk_alt (fst f) (mk_seq (snd f)).

Fixpoint parse (stack : list frame) (cur : frame) (ts : list token)
  : option regex :=
  match ts with
  | [] =>
      match stack with
      | [] => Some (close_frame cur)
      | _ => None
      end
  | t :: ts' =>
      let '(alts, items) := cur in
      match t with
      | TAtom a => parse stack (alts, RAtom a :: items) ts'
      | TStar =>
          match items with
          | RAtom a :: items' => parse stack (alts, RStar a :: items') ts'
          | _ => None
          end
      | TLParen => parse (cur :: stack) ([], []) ts'
      | TRParen =>
          match stack with
          | (alts0, items0) :: stack' =>
              parse stack' (alts0, close_frame cur :: items0) ts'
          | [] => None
          end
      | TBar => parse stack (mk_seq items :: alts, []) ts'
      | TCaret => parse stack (alts, RBol :: items) ts'
      | TDollar => parse stack (alts, REol :: items) ts'
      end
  end.

(** [re.compile(r, re.S)]: the compiled pattern, or [re.error]. *)
Definition compile (r : string) : result regex :=
  match lex LNormal r with
  | Some ts =>
      match parse [] ([], []) ts with
      | Some re => Ret re
      | None => Raise ReError
      end
  | None => Raise ReError
  end.

(** *** Matching *)

Definition in_range (c : ascii) (r : ascii * ascii) : bool :=
  ((code (fst r) <=? code c) && (code c <=? code (snd r)))%N.

Definition accepts (a : charset) (c : ascii) : bool :=
  match a with
  | CsChar d => Ascii.eqb c d
  | CsAny => true
  | CsClass neg ranges => xorb neg (existsb (in_range c) ranges)
  end.

Definition newline : ascii := ascii_of_nat 10.

(** [$] without [re.M]: at the end, or before a newline that ends the
    string. *)
Definition at_eol (s : string) : bool :=
  match s with
  | EmptyString => true
  | String c EmptyString => Ascii.eqb c newline
  | _ => false
  end.

(** [a*] followed by the continuation [k]. *)
Fixpoint star (a : charset) (k : bool -> string -> bool)
    (bol : bool) (s : string) : bool :=
  k bol s
  || match s with
     | String c s' => accepts a c && star a k false s'
     | EmptyString => false
     end.

(** Backtracking matcher in continuation-passing style: [bol] tells whether
    the position is the start of the subject, [s] is the rest of the
    subject, [k] matches what follows. *)
Fixpoint run (r : regex) (bol : bool) (s : string)
    (k : bool -> string -> bool) : bool :=
  match r with
  | REmpty => k bol s
  | RAtom a =>
      match s with
      | String c s' => accepts a c && k false s'
      | EmptyString => false
      end
  | RStar a => star a k bol s
  | RBol => bol && k bol s
  | REol => at_eol s && k bol s
  | RSeq r1 r2 => run r1 bol s (fun b s' => run r2 b s' k)
  | RAlt r1 r2 => run r1 bol s k || run r2 bol s k
  end.

(** [pattern.match(s)] as a truth value: some prefix of [s] matches. *)
Definition match_ (r : regex) (s : string) : bool :=
  run r true s (fun _ _ => true).

(** [re.escape(c)] for one character: the characters special to [re] get a
    backslash, every other character stands for itself. *)
Definition special_chars : string :=
  "()[]{}?*+-|^$\.&~# " +:+ string_of_list_ascii
    (map ascii_of_nat [9; 10; 13; 11; 12]).

Definition escape (c : ascii) : string :=
  if Py.char_in c special_chars then String "\" (String c EmptyString)
  else String c EmptyString.

End Re.

(** ** globmatch.py *)

Module Globmatch.

(** The object [path_matches_glob] is given: a name to match and the
    [isdir()] predicate. *)
Record Path := { name : string; isdir : bool }.

(** The inner [while j < n and pat[j] != ']': j = j + 1] of
    [glob_to_regex]. *)
Fixpoint skip_to_close (fuel : nat) (pat : string) (j : nat) : nat :=
  match fuel with
  | 0 => j
  | S fuel' =>
      if Nat.ltb j (String.length pat) && negb (Ascii.eqb (Py.at_ pat j) "]")
      then skip_to_close fuel' pat (j + 1)
      else j
  end.

(** The main loop of [glob_to_regex]: [i] is the index into [pat], [res]
    the regular expression built so far.  Every iteration advances [i], so
    [String.length pat] iterations are enough. *)
Fixpoint glob_to_regex_loop (fuel : nat) (pat : string) (i : nat)
    (res : string) : string :=
  let n := String.length pat in
  match fuel with
  | 0 => res
  | S fuel' =>
      if Nat.ltb i n then
        let c := Py.at_ pat i in
        let s := Py.slice pat i (i + 2) in
        let i := i + 1 in
        if String.eqb s "**" then
          glob_to_regex_loop fuel' pat (i + 1) (res +:+ ".*")
        else if Ascii.eqb c "*" then
          glob_to_regex_loop fuel' pat i (res +:+ "[^/]*")
        else if Ascii.eqb c "?" then
          glob_to_regex_loop fuel' pat i (res +:+ "[^/]")
        else if Ascii.eqb c "[" then
          let j := i in
          let j := if Nat.ltb j n && Py.char_in (Py.at_ pat j) "!^"
                   then j + 1 else j in
          let j := if Nat.ltb j n && Ascii.eqb (Py.at_ pat j) "]"
                   then j + 1 else j in
          let j := skip_to_close n pat j in
          if Nat.leb n j then
            glob_to_regex_loop fuel' pat i (res +:+ "\[")
          else
            let stuff := Py.replace_char "\" "\\" (Py.slice pat i j) in
            let i := j + 1 in
            let stuff := if Py.char_in (Py.at_ stuff 0) "!^"
                         then "^" +:+ Py.slice_from stuff 1 else stuff in
            glob_to_regex_loop fuel' pat i (res +:+ "[" +:+ stuff +:+ "]")
        else
          glob_to_regex_loop fuel' pat i (res +:+ Re.escape c)
      else res
  end.

Definition glob_to_regex (pat : string) : string :=
  glob_to_regex_loop (String.length pat) pat 0 "".

Definition _glob_get_prefix_regexs (glob_str : string)
  : result (list string) :=
  let glob_parts := Py.split "/" glob_str in
  if Py.mem "" (Py.inner glob_parts) then
    Raise (GlobbingError
             ("Consecutive '/'s found in globbing string " +:+ glob_str))
  else
    let prefixes :=
      map (fun i => Py.join "/" (firstn (i + 1) glob_parts))
          (seq 0 (length glob_parts)) in
    let prefixes :=
      match prefixes with
      | p0 :: rest => if String.eqb p0 "" then "/" :: rest else prefixes
      | [] => prefixes
      end in
    Ret (map glob_to_regex prefixes).

(** The text of the match regex, [glob_comp_re], for a glob whose trailing
    separator is already removed. *)
Definition glob_comp_re_source (glob_str : string) : string :=
  "^" +:+ glob_to_regex glob_str +:+ "($|/)".

Definition scan_comp_re_source (regexs : list string) : string :=
  "^(" +:+ Py.join "|" regexs +:+ ")$".

(** The first statements of [path_matches_glob]: the directory-only flag
    and the glob without its trailing separator. *)
Definition strip_trailing_sep (glob_str : string) : result (bool * string) :=
  if String.eqb glob_str "/" then Ret (false, glob_str)
  else match Py.last_char glob_str with
       | None => Raise IndexError
       | Some c =>
           if Ascii.eqb c "/" then Ret (true, Py.drop_last glob_str)
           else Ret (false, glob_str)
       end.

(** [glob_str[:glob_str.find("**") + 2]] when the glob has a [**]. *)
Definition truncate_after_doublestar (glob_str : string) : string :=
  match Py.find glob_str "**" with
  | Some k => Py.slice glob_str 0 (k + 2)
  | None => glob_str
  end.

(** The decision codes: 0 exclude, 1 include, 2 scan the directory, [None]
    no opinion. *)
Definition path_matches_glob (path : Path) (glob_str : string) (include : Z)
  : result (option Z) :=
  let* (match_only_dirs, glob_str) := strip_trailing_sep glob_str in
  let* glob_comp_re := Re.compile (glob_comp_re_source glob_str) in
  let glob_str := truncate_after_doublestar glob_str in
  let* regexs := _glob_get_prefix_regexs glob_str in
  let* scan_comp_re := Re.compile (scan_comp_re_source regexs) in
  if match_only_dirs && negb (isdir path) then Ret None
  else if Re.match_ glob_comp_re (name path) then Ret (Some include)
  else if (include =? 1)%Z && Re.match_ scan_comp_re (name path)
       then Ret (Some 2%Z)
  else Ret None.

(** The compiled match regex of a glob as the selector builds it. *)
Definition match_regex (glob_str : string) : result Re.regex :=
  let* (_, glob_str) := strip_trailing_sep glob_str in
  Re.compile (glob_comp_re_source glob_str).

(** A glob without the metacharacters [?], [*] (hence [**]) and [[]. *)
Fixpoint is_literal (pat : string) : bool :=
  match pat with
  | EmptyString => true
  | String c pat' => negb (Py.char_in c "?*[") && is_literal pat'
  end.

(** [re.escape] applied to every character. *)
Fixpoint escape_all (s : string) : string :=
  match s with
  | EmptyString => EmptyString
  | String c s' => Re.escape c +:+ escape_all s'
  end.

(** The regular expression [c1 c2 ... cn tail] of the characters of [s]. *)
Fixpoint lits (s : string) (tail : Re.regex) : Re.regex :=
  match s with
  | EmptyString => tail
  | String c s' => Re.RSeq (Re.RAtom (Re.CsChar c)) (lits s' tail)
  end.

(** The group [($|/)] that ends every match regex. *)
Definition end_or_sep : Re.regex :=
  Re.RAlt (Re.RSeq Re.REol Re.REmpty)
          (Re.RSeq (Re.RAtom (Re.CsChar "/")) Re.REmpty).

(** What [re.compile] makes of [^lit($|/)]. *)
Definition literal_regex (lit : string) : Re.regex :=
  Re.RSeq Re.RBol (lits lit (Re.RSeq end_or_sep Re.REmpty)).

(** An empty path component that is neither the first nor the last. *)
Definition has_inner_empty_component (glob_str : string) : bool :=
  Py.mem "" (Py.inner (Py.split "/" glob_str)).

(** *** What the proofs about literal globs speak of *)

(** The tokens and the parser items of a run of literal characters. *)
Fixpoint lit_tokens (s : string) : list Re.token :=
  match s with
  | EmptyString => []
  | String c s' => Re.TAtom (Re.CsChar c) :: lit_tokens s'
  end.

Fixpoint push_lits (s : string) (items : list Re.regex) : list Re.regex :=
  match s with
  | EmptyString => items
  | String c s' => push_lits s' (Re.RAtom (Re.CsChar c) :: items)
  end.

(** After the literal: the end of the subject, a final newline, or a
    separator. *)
Definition tail_ok (rest : string) : bool :=
  Re.at_eol rest
  || match rest with
     | String c _ => Ascii.eqb c "/"
     | EmptyString => false
     end.

(** *** What the rules of [glob_to_regex] speak of *)

(** The pattern goes on with a [*]. *)
Definition begins_with_star (s : string) : bool :=
  match s with
  | String c _ => Ascii.eqb c "*"
  | EmptyString => false
  end.

(** The inside of a character class as [glob_to_regex] writes it: the
    backslashes doubled, a leading [!] or [^] turned into [^]. *)
Definition class_body (body : string) : string :=
  let stuff := Py.replace_char "\" "\\" body in
  if Py.char_in (Py.at_ stuff 0) "!^" then "^" +:+ Py.slice_from stuff 1
  else stuff.

(** The string has no closing bracket. *)
Fixpoint no_close (s : string) : bool :=
  match s with
  | EmptyString => true
  | String c s' => negb (Ascii.eqb c "]") && no_close s'
  end.

(** The inside of a character class that holds no closing bracket and is
    more than a lone [!] or [^]. *)
Definition simple_class (body : string) : bool :=
  no_close body
  && match body with
     | EmptyString => false
     | String c EmptyString => negb (Py.char_in c "!^")
     | _ => true
     end.

(** Where [glob_to_regex] looks for the end of a character class that was
    opened just before [i]: the position [j] after the three steps of the
    scan, globmatch.py 117-123. *)
Definition bracket_end (pat : string) (i : nat) : nat :=
  let n := String.length pat in
  let j := i in
  let j := if Nat.ltb j n && Py.char_in (Py.at_ pat j) "!^"
           then j + 1 else j in
  let j := if Nat.ltb j n && Ascii.eqb (Py.at_ pat j) "]"
           then j + 1 else j in
  skip_to_close n pat j.

(** The list [prefixes] of [_glob_get_prefix_regexs]: the glob up to each of
    its separators, and [/] for the empty beginning of an absolute glob. *)
Definition glob_prefixes (glob_str : string) : list string :=
  let glob_parts := Py.split "/" glob_str in
  let prefixes :=
    map (fun i => Py.join "/" (firstn (i + 1) glob_parts))
        (seq 0 (length glob_parts)) in
  match prefixes with
  | p0 :: rest => if String.eqb p0 "" then "/" :: rest else prefixes
  | [] => prefixes
  end.

(** *** What the selector comes to on a literal glob *)

(** [s] begins with [lit], and [tail] holds of what follows. *)
Fixpoint starts (tail : string -> bool) (lit s : string) : bool :=
  match lit with
  | EmptyString => tail s
  | String c lit' =>
      match s with
      | String d s' => Ascii.eqb d c && starts tail lit' s'
      | EmptyString => false
      end
  end.

(** The tokens and the regular expression of [p1|p2|...|pn] for literals
    [p1], ..., [pn]. *)
Fixpoint alt_tokens (ps : list string) : list Re.token :=
  match ps with
  | [] => []
  | p :: ps' =>
      match ps' with
      | [] => lit_tokens p
      | _ :: _ => lit_tokens p ++ Re.TBar :: alt_tokens ps'
      end
  end.

Fixpoint alts_regex (ps : list string) : Re.regex :=
  match ps with
  | [] => Re.REmpty
  | p :: ps' =>
      match ps' with
      | [] => lits p Re.REmpty
      | _ :: _ => Re.RAlt (lits p Re.REmpty) (alts_regex ps')
      end
  end.

(** What [re.compile] makes of [^(p1|p2|...|pn)$]. *)
Definition scan_regex (ps : list string) : Re.regex :=
  Re.RSeq Re.RBol (Re.RSeq (alts_regex ps) (Re.RSeq Re.REol Re.REmpty)).

(** The decision of the selector for a literal glob [lit] whose trailing
    separator, if it had one ([match_only_dirs]), is removed: [include] for
    a name that is the glob or goes on after it with a separator, 2 for an
    include glob and a name that is the glob up to one of its separators,
    no opinion otherwise; [$] lets a final newline pass. *)
Definition literal_decision (path : Path) (match_only_dirs : bool)
    (lit : string) (include : Z) : option Z :=
  if match_only_dirs && negb (isdir path) then None
  else if starts tail_ok lit (name path) then Some include
  else if (include =? 1)%Z
          && existsb (fun p => starts Re.at_eol p (name path))
               (glob_prefixes lit)
       then Some 2%Z
  else None.

(** What [re.compile] makes of [^lit.*($|/)] and of [^lit[^/]*($|/)]: the
    literal, any number of characters [a], the end or a separator. *)
Definition prefix_regex (a : Re.charset) (lit : string) : Re.regex :=
  Re.RSeq Re.RBol
    (lits lit (Re.RSeq (Re.RStar a) (Re.RSeq end_or_sep Re.REmpty))).

(** The character class [[^/]]. *)
Definition not_sep : Re.charset := Re.CsClass true [("/"%char, "/"%char)].

End Globmatch.

(** ** lazy.py *)

Module Lazy.

(** What a [next()] on an iterator gives: an element, the end of the
    iteration ([StopIteration]), or another exception. *)
Inductive pulled (A : Type) :=
  | Item (x : A)
  | Stop
  | Fail (e : exn).
Arguments Item {A} x.
Arguments Stop {A}.
Arguments Fail {A} e.

(** What the caller of [next()] on a generator gets when the body of the
    generator raises.  From Python 3.7 on (PEP 479) a [StopIteration]
    raised inside the body, by a [next()] on another iterator or by a
    [raise StopIteration], reaches the caller as [RuntimeError]; every other
    exception is passed on as it is.  In both cases the generator is
    finished. *)
Definition leaves_generator {A} (r : pulled A) : pulled A :=
  match r with
  | Stop => Fail RuntimeError
  | _ => r
  end.

(** [l[i]] for a Python integer [i]: a negative index counts from the end,
    an index out of range raises [IndexError] ([None]). *)
Definition py_nth {B} (l : list B) (i : Z) : option B :=
  let n := Z.of_nat (length l) in
  if (i <? 0)%Z
  then (if (i + n <? 0)%Z then None else l !! Z.to_nat (i + n))
  else l !! Z.to_nat i.

(** [==] on lists of integers. *)
Fixpoint Z_list_eqb (a b : list Z) : bool :=
  match a, b with
  | [], [] => true
  | x :: a', y :: b' => (x =? y)%Z && Z_list_eqb a' b'
  | _, _ => false
  end.

(** [x in l] on lists of integers. *)
Definition Z_mem (x : Z) (l : list Z) : bool := existsb (Z.eqb x) l.

Section Multiplex.

Context {A : Type}.

(** *** [IterMultiplex2]

    The source iterator [iter] is given by the elements it has yet to
    produce. *)
Record IterMultiplex2 := {
  a_leading_by : Z;
  buffer : list A;
  iter : list A
}.

Definition IterMultiplex2_init (source : list A) : IterMultiplex2 :=
  {| a_leading_by := 0; buffer := []; iter := source |}.

(** One round of the loop of [yielda], from a [next()] to the [yield]: the
    exception of [next(iter)] is passed on, [buf.pop(0)] raises [IndexError]
    on an empty buffer. *)
Definition yielda (s : IterMultiplex2) : pulled A * IterMultiplex2 :=
  if (a_leading_by s >=? 0)%Z then
    match iter s with
    | [] => (Stop, s)
    | elem :: rest =>
        (Item elem,
         {| a_leading_by := a_leading_by s + 1;
            buffer := buffer s ++ [elem];
            iter := rest |})
    end
  else
    match buffer s with
    | [] => (Fail IndexError, s)
    | elem :: buf =>
        (Item elem,
         {| a_leading_by := a_leading_by s + 1;
            buffer := buf;
            iter := iter s |})
    end.

Definition yieldb (s : IterMultiplex2) : pulled A * IterMultiplex2 :=
  if (a_leading_by s <=? 0)%Z then
    match iter s with
    | [] => (Stop, s)
    | elem :: rest =>
        (Item elem,
         {| a_leading_by := a_leading_by s - 1;
            buffer := buffer s ++ [elem];
            iter := rest |})
    end
  else
    match buffer s with
    | [] => (Fail IndexError, s)
    | elem :: buf =>
        (Item elem,
         {| a_leading_by := a_leading_by s - 1;
            buffer := buf;
            iter := iter s |})
    end.

(** The two generator objects over one [IterMultiplex2].  The
    [StopIteration] of [next(iter)] at the end of the source is raised in
    the body of the generator and leaves it as [RuntimeError]; a generator
    that an exception has left is finished, and every later [next()] on it
    gives [StopIteration] without running its body. *)
Inductive fork2 := ForkA | ForkB.

Record forks2 := {
  im2 : IterMultiplex2;
  a_finished : bool;
  b_finished : bool
}.

Definition forks2_init (source : list A) : forks2 :=
  {| im2 := IterMultiplex2_init source;
     a_finished := false; b_finished := false |}.

Definition is_item (r : pulled A) : bool :=
  match r with Item _ => true | _ => false end.

Definition next2 (f : fork2) (s : forks2) : pulled A * forks2 :=
  match f with
  | ForkA =>
      if a_finished s then (Stop, s)
      else let '(r, m) := yielda (im2 s) in
           (leaves_generator r,
            {| im2 := m; a_finished := negb (is_item r);
               b_finished := b_finished s |})
  | ForkB =>
      if b_finished s then (Stop, s)
      else let '(r, m) := yieldb (im2 s) in
           (leaves_generator r,
            {| im2 := m; a_finished := a_finished s;
               b_finished := negb (is_item r) |})
  end.

(** An interleaving of requests: which fork asks next.  The run gives what
    each request received, in order, and the final state. *)
Fixpoint run2 (sched : list fork2) (s : forks2)
  : list (fork2 * pulled A) * forks2 :=
  match sched with
  | [] => ([], s)
  | f :: sched' =>
      let '(r, s1) := next2 f s in
      let '(tr, s2) := run2 sched' s1 in
      ((f, r) :: tr, s2)
  end.

Definition fork2_eqb (f g : fork2) : bool :=
  match f, g with
  | ForkA, ForkA | ForkB, ForkB => true
  | _, _ => false
  end.

(** The elements a fork received. *)
Fixpoint yields2 (f : fork2) (tr : list (fork2 * pulled A)) : list A :=
  match tr with
  | [] => []
  | (g, Item x) :: tr' =>
      if fork2_eqb f g then x :: yields2 f tr' else yields2 f tr'
  | _ :: tr' => yields2 f tr'
  end.

(** The request met the end of the iteration: the generator ended on the
    [StopIteration] of the source ([RuntimeError] for the caller), or had
    ended before ([StopIteration]). *)
Definition at_end (r : pulled A) : bool :=
  match r with
  | Stop | Fail RuntimeError => true
  | _ => false
  end.

(** The fork was drained: one of its requests met the end of the iteration. *)
Fixpoint drained2 (f : fork2) (tr : list (fork2 * pulled A)) : bool :=
  match tr with
  | [] => false
  | (g, r) :: tr' =>
      if at_end r then fork2_eqb f g || drained2 f tr' else drained2 f tr'
  end.

(** *** [Iter.multiplex], the general case

    This is the path taken when [final_func] or [closing_func] is given or
    [num_of_forks] is not 2; otherwise [Iter.multiplex] hands over to
    [IterMultiplex2] above.  [final_func] and [closing_func] are the
    caller's: their calls are recorded. *)
Inductive mux_event :=
  | ClosingFunc
  | FinalFunc (x : A).

Record multiplex_state := {
  mx_iter : list A;
  mx_buffer : list A;
  starting_forkposition : list Z;
  forkposition : list Z;
  called_closing_func : bool;
  mx_finished : list bool;
  mx_log : list mux_event
}.

Definition multiplex (source : list A) (num_of_forks : nat) : multiplex_state :=
  {| mx_iter := source;
     mx_buffer := [];
     starting_forkposition := repeat (-1)%Z num_of_forks;
     forkposition := repeat (-1)%Z num_of_forks;
     called_closing_func := false;
     mx_finished := repeat false num_of_forks;
     mx_log := [] |}.

(** The body of [if forkposition[fork_num] == -1:]: the source is asked for
    an element, which goes to the front of the buffer and moves every fork
    position up.  At the end of the source [closing_func] is called under
    its guard, [called_closing_func[0]] is set to [None] and
    [StopIteration] is raised. *)
Definition refill (m : multiplex_state) : pulled unit * multiplex_state :=
  match mx_iter m with
  | [] =>
      if Z_list_eqb (forkposition m) (starting_forkposition m)
         && negb (called_closing_func m)
      then (Stop,
            {| mx_iter := mx_iter m;
               mx_buffer := mx_buffer m;
               starting_forkposition := starting_forkposition m;
               forkposition := forkposition m;
               called_closing_func := false;
               mx_finished := mx_finished m;
               mx_log := mx_log m ++ [ClosingFunc] |})
      else (Stop, m)
  | x :: rest =>
      (Item tt,
       {| mx_iter := rest;
          mx_buffer := x :: mx_buffer m;
          starting_forkposition := starting_forkposition m;
          forkposition := map (fun p => (p + 1)%Z) (forkposition m);
          called_closing_func := called_closing_func m;
          mx_finished := mx_finished m;
          mx_log := mx_log m |})
  end.

(** The rest of [get_next], from [return_val = buffer[...]] on. *)
Definition take (fork_num : nat) (m : multiplex_state)
  : pulled A * multiplex_state :=
  match forkposition m !! fork_num with
  | None => (Fail IndexError, m)
  | Some pos =>
      match py_nth (mx_buffer m) pos with
      | None => (Fail IndexError, m)
      | Some return_val =>
          let fp := <[fork_num := (pos - 1)%Z]> (forkposition m) in
          let blen := Z.of_nat (length (mx_buffer m)) in
          let m1 :=
            {| mx_iter := mx_iter m;
               mx_buffer := mx_buffer m;
               starting_forkposition := starting_forkposition m;
               forkposition := fp;
               called_closing_func := called_closing_func m;
               mx_finished := mx_finished m;
               mx_log := mx_log m |} in
          if negb (Z_mem (blen - 1)%Z fp) then
            if negb (pos - 1 =? blen - 2)%Z then (Fail AssertionError, m1)
            else
              match py_nth (mx_buffer m) (blen - 1)%Z with
              | None => (Fail IndexError, m1)
              | Some last_elem =>
                  (Item return_val,
                   {| mx_iter := mx_iter m;
                      mx_buffer := removelast (mx_buffer m);
                      starting_forkposition := starting_forkposition m;
                      forkposition := fp;
                      called_closing_func := called_closing_func m;
                      mx_finished := mx_finished m;
                      mx_log := mx_log m ++ [FinalFunc last_elem] |})
              end
          else (Item return_val, m1)
      end
  end.

Definition get_next (fork_num : nat) (m : multiplex_state)
  : pulled A * multiplex_state :=
  match forkposition m !! fork_num with
  | None => (Fail IndexError, m)
  | Some pos =>
      if (pos =? -1)%Z then
        match refill m with
        | (Item _, m1) => take fork_num m1
        | (Stop, m1) => (Stop, m1)
        | (Fail e, m1) => (Fail e, m1)
        end
      else take fork_num m
  end.

(** [make_iterator(fork_num)]: the generator [while 1: yield
    get_next(fork_num)], finished once an exception has left it.  The
    [StopIteration] that [get_next] raises at the end of the source is
    raised in the body of the generator: the request that meets it gets
    [RuntimeError], the later ones [StopIteration]. *)
Definition fork_next (fork_num : nat) (m : multiplex_state)
  : pulled A * multiplex_state :=
  match mx_finished m !! fork_num with
  | None => (Fail IndexError, m)
  | Some true => (Stop, m)
  | Some false =>
      let '(r, m1) := get_next fork_num m in
      if is_item r then (r, m1)
      else (leaves_generator r,
            {| mx_iter := mx_iter m1;
               mx_buffer := mx_buffer m1;
               starting_forkposition := starting_forkposition m1;
               forkposition := forkposition m1;
               called_closing_func := called_closing_func m1;
               mx_finished := <[fork_num := true]> (mx_finished m1);
               mx_log := mx_log m1 |})
  end.

Fixpoint run_forks (sched : list nat) (m : multiplex_state)
  : list (nat * pulled A) * multiplex_state :=
  match sched with
  | [] => ([], m)
  | f :: sched' =>
      let '(r, m1) := fork_next f m in
      let '(tr, m2) := run_forks sched' m1 in
      ((f, r) :: tr, m2)
  end.

Definition is_closing (e : mux_event) : bool :=
  match e with ClosingFunc => true | FinalFunc _ => false end.

(** How often [closing_func] was called. *)
Definition closing_calls (log : list mux_event) : nat :=
  length (List.filter is_closing log).

(** The request of the fork [fork_num] finds nothing buffered for it and
    the source at its end. *)
Definition meets_exhaustion (fork_num : nat) (m : multiplex_state) : bool :=
  match forkposition m !! fork_num, mx_iter m with
  | Some pos, [] => (pos =? -1)%Z
  | _, _ => false
  end.

(** Every fork is where it started: none has anything left to read in the
    buffer. *)
Definition all_forks_caught_up (m : multiplex_state) : bool :=
  Z_list_eqb (forkposition m) (starting_forkposition m).

(** The elements the fork [k] received in a run. *)
Fixpoint yields (k : nat) (tr : list (nat * pulled A)) : list A :=
  match tr with
  | [] => []
  | (j, Item x) :: tr' =>
      if Nat.eqb k j then x :: yields k tr' else yields k tr'
  | _ :: tr' => yields k tr'
  end.

(** A request of the fork [k] met the end of the iteration. *)
Fixpoint drained (k : nat) (tr : list (nat * pulled A)) : bool :=
  match tr with
  | [] => false
  | (j, r) :: tr' =>
      if at_end r then Nat.eqb k j || drained k tr' else drained k tr'
  end.

(** Each of the [n] forks has received as many elements as the source
    holds. *)
Definition all_received (source : list A) (n : nat)
    (tr : list (nat * pulled A)) : bool :=
  forallb (fun j => Nat.eqb (length (yields j tr)) (length source)) (seq 0 n).

End Multiplex.

Arguments IterMultiplex2 : clear implicits.
Arguments forks2 : clear implicits.
Arguments mux_event : clear implicits.
Arguments multiplex_state : clear implicits.

(** *** [IterTreeReducer] and [ITRBranch] *)

(** An index is a tuple of path components; [<=] on tuples is Python's
    lexicographic comparison, [<=] on the components that of strings. *)
Definition Index : Type := list string.

Fixpoint index_compare (a b : Index) : comparison :=
  match a, b with
  | [], [] => Eq
  | [], _ :: _ => Lt
  | _ :: _, [] => Gt
  | x :: a', y :: b' =>
      match String.compare x y with
      | Eq => index_compare a' b'
      | c => c
      end
  end.

Definition index_le (a b : Index) : bool :=
  match index_compare a b with Gt => false | _ => true end.

Definition index_lt (a b : Index) : bool :=
  match index_compare a b with Lt => true | _ => false end.

Fixpoint index_eqb (a b : Index) : bool :=
  match a, b with
  | [], [] => true
  | x :: a', y :: b' => String.eqb x y && index_eqb a' b'
  | _, _ => false
  end.

(** The fields of an [ITRBranch]; the class gives each the value [None]. *)
Record ITRBranch := {
  base_index : option Index;
  finished : bool;
  caught_exception : bool;
  start_successful : bool
}.

Definition ITRBranch_new : ITRBranch :=
  {| base_index := None; finished := false;
     caught_exception := false; start_successful := false |}.

Inductive warning :=
  | Warn_oldindex (oldindex newindex : Index)
  | Warn_error (filename : Index)
  | Warn_skipping (index : Index).

(** What the run of a reducer shows to its caller: the calls of the hooks
    of the branches (a branch is named by the position of its object in the
    heap) and the warnings logged. *)
Inductive event :=
  | Ev_start_process (b : nat) (index : Index)
  | Ev_end_process (b : nat)
  | Ev_branch_process (parent child : nat)
  | Ev_can_fast_process (b : nat) (index : Index)
  | Ev_fast_process (b : nat) (index : Index)
  | Ev_warn (w : warning).

(** The branch objects, by identity, and the events so far. *)
Record world := {
  heap : list ITRBranch;
  log : list event
}.

(** A reference to a branch is the position of the object in the heap.  The
    stack [branches] is kept innermost first: [branches[-1]] is its head,
    [append] is [cons], [pop()] and [del branches[-1]] take the head off. *)
Record IterTreeReducer := {
  index : option Index;
  root_branch : nat;
  branches : list nat
}.

(** The outcome of a hook of the caller's. *)
Inductive hook_result :=
  | Returns
  | Fails.

Section Reducer.

(** The rest of [args], after [args[0]]. *)
Context {P : Type}.

(** The hooks a subclass of [ITRBranch] fills in.  What a hook does may
    depend on everything that happened before: the events so far, the
    branch, the arguments. *)
Variable start_process : list event -> nat -> Index * P -> hook_result.
Variable end_process : list event -> nat -> hook_result.
Variable can_fast_process : list event -> nat -> Index * P -> bool.
Variable fast_process : list event -> nat -> Index * P -> hook_result.

Definition get_branch (w : world) (b : nat) : ITRBranch :=
  default ITRBranch_new (heap w !! b).

Definition update_branch (b : nat) (f : ITRBranch -> ITRBranch) (w : world)
  : world :=
  {| heap := alter f b (heap w); log := log w |}.

Definition emit (e : event) (w : world) : world :=
  {| heap := heap w; log := log w ++ [e] |}.

Definition set_caught_exception (br : ITRBranch) : ITRBranch :=
  {| base_index := base_index br; finished := finished br;
     caught_exception := true; start_successful := start_successful br |}.

Definition set_start_successful (br : ITRBranch) : ITRBranch :=
  {| base_index := base_index br; finished := finished br;
     caught_exception := caught_exception br; start_successful := true |}.

Definition set_finished (br : ITRBranch) : ITRBranch :=
  {| base_index := base_index br; finished := true;
     caught_exception := caught_exception br;
     start_successful := start_successful br |}.

Definition set_base_index (i : Index) (br : ITRBranch) : ITRBranch :=
  {| base_index := Some i; finished := finished br;
     caught_exception := caught_exception br;
     start_successful := start_successful br |}.

(** [ITRBranch.on_error]: the file name is that of [args[0]] when it is a
    non-empty tuple, else ["."] (the empty index here), since [self.index]
    is never set. *)
Definition on_error (b : nat) (filename : Index) (w : world) : world :=
  emit (Ev_warn (Warn_error filename))
       (update_branch b set_caught_exception w).

(** Modelled from the spec: [robust.check_common_error], which is not part
    of the sources at hand.  The hook runs inside a recoverable-error
    boundary: when it fails, the error handler ([on_error] of the branch) is
    called with the error and the arguments, and the failure goes no
    further. *)
Definition check_common_error (b : nat) (filename : Index)
    (r : hook_result) (w : world) : world :=
  match r with
  | Returns => w
  | Fails => on_error b filename w
  end.

Definition call_end_proc (b : nat) (w : world) : world :=
  let br := get_branch w b in
  let w := if finished br || negb (start_successful br)
           then update_branch b set_caught_exception w else w in
  let r := end_process (log w) b in
  let w := check_common_error b [] r (emit (Ev_end_process b) w) in
  update_branch b set_finished w.

(** A call of [branch_process] of the branch [parent] on the finished
    branch [child].  It is not inside the error boundary. *)
Definition branch_process (parent child : nat) (w : world) : world :=
  emit (Ev_branch_process parent child) w.

(** The loop of [finish_branches]: [Some 1] is the result [1], [None] the
    result [None].  [branches[-1]] raises [IndexError] on an empty stack,
    [len(base_index)] raises [TypeError] when the base index is [None]. *)
Fixpoint finish_branches (index : Index) (branches : list nat) (w : world)
  : result (option Z) * list nat * world :=
  match branches with
  | [] => (Raise IndexError, [], w)
  | to_be_finished :: rest =>
      match base_index (get_branch w to_be_finished) with
      | None => (Raise TypeError, branches, w)
      | Some base_index =>
          if negb (index_eqb base_index (firstn (length base_index) index))
          then
            let w := call_end_proc to_be_finished w in
            match rest with
            | [] => (Ret None, [], w)
            | parent :: _ =>
                finish_branches index rest
                  (branch_process parent to_be_finished w)
            end
          else (Ret (Some 1%Z), branches, w)
      end
  end.

(** [add_branch]: a new object, at the end of the heap, on top of the
    stack. *)
Definition add_branch (itr : IterTreeReducer) (w : world)
  : nat * IterTreeReducer * world :=
  let branch := length (heap w) in
  (branch,
   {| index := index itr; root_branch := root_branch itr;
      branches := branch :: branches itr |},
   {| heap := heap w ++ [ITRBranch_new]; log := log w |}).

Definition process_w_branch (index : Index) (branch : nat) (args : Index * P)
    (w : world) : world :=
  let r := start_process (log w) branch args in
  let w := check_common_error branch (fst args) r
             (emit (Ev_start_process branch (fst args)) w) in
  let w := if negb (caught_exception (get_branch w branch))
           then update_branch branch set_start_successful w else w in
  update_branch branch (set_base_index index) w.

Definition log_prev_error (index : Index) (w : world) : world :=
  emit (Ev_warn (Warn_skipping index)) w.

Definition set_index (i : Index) (itr : IterTreeReducer) : IterTreeReducer :=
  {| index := Some i; root_branch := root_branch itr;
     branches := branches itr |}.

Definition set_branches (bs : list nat) (itr : IterTreeReducer)
  : IterTreeReducer :=
  {| index := index itr; root_branch := root_branch itr; branches := bs |}.

(** [IterTreeReducer.__init__]. *)
Definition ITR_init : IterTreeReducer * world :=
  ({| index := None; root_branch := 0; branches := [0] |},
   {| heap := [ITRBranch_new]; log := [] |}).

(** [IterTreeReducer.__call__] on the arguments [args], with
    [index = args[0]]. *)
Definition call (args : Index * P) (itr : IterTreeReducer) (w : world)
  : result (option Z) * IterTreeReducer * world :=
  let index_ := fst args in
  match index itr with
  | None =>
      let w := process_w_branch index_ (root_branch itr) args w in
      (Ret (Some 1%Z), set_index index_ itr, w)
  | Some self_index =>
      if index_le index_ self_index then
        (Ret (Some 1%Z), itr,
         emit (Ev_warn (Warn_oldindex self_index index_)) w)
      else
        let '(r, bs, w) := finish_branches index_ (branches itr) w in
        let itr := set_branches bs itr in
        match r with
        | Raise e => (Raise e, itr, w)
        | Ret None => (Ret None, itr, w)
        | Ret (Some _) =>
            match branches itr with
            | [] => (Raise IndexError, itr, w)
            | last_branch :: _ =>
                if start_successful (get_branch w last_branch) then
                  let fast := can_fast_process (log w) last_branch args in
                  let w := emit (Ev_can_fast_process last_branch index_) w in
                  if fast then
                    let r := fast_process (log w) last_branch args in
                    let w := check_common_error last_branch index_ r
                               (emit (Ev_fast_process last_branch index_) w) in
                    (Ret (Some 1%Z), set_index index_ itr, w)
                  else
                    let '(branch, itr, w) := add_branch itr w in
                    let w := process_w_branch index_ branch args w in
                    (Ret (Some 1%Z), set_index index_ itr, w)
                else
                  (Ret (Some 1%Z), set_index index_ itr,
                   log_prev_error index_ w)
            end
        end
  end.

(** The loop of [Finish]: [pop()] raises [IndexError] on an empty stack. *)
Fixpoint Finish_loop (branches : list nat) (w : world)
  : result unit * list nat * world :=
  match branches with
  | [] => (Raise IndexError, [], w)
  | to_be_finished :: rest =>
      let w := call_end_proc to_be_finished w in
      match rest with
      | [] => (Ret tt, [], w)
      | parent :: _ =>
          Finish_loop rest (branch_process parent to_be_finished w)
      end
  end.

Definition Finish (itr : IterTreeReducer) (w : world)
  : result unit * IterTreeReducer * world :=
  let '(r, bs, w) := Finish_loop (branches itr) w in
  (r, set_branches bs itr, w).

(** The entries fed one at a time; the results of the calls are kept, an
    exception of a call does not end the feeding. *)
Fixpoint feed (entries : list (Index * P)) (itr : IterTreeReducer) (w : world)
  : list (result (option Z)) * IterTreeReducer * world :=
  match entries with
  | [] => ([], itr, w)
  | args :: entries' =>
      let '(r, itr, w) := call args itr w in
      let '(rs, itr, w) := feed entries' itr w in
      (r :: rs, itr, w)
  end.

(** A whole reduction: a new reducer, the entries, one [Finish]. *)
Definition reduce (entries : list (Index * P)) : IterTreeReducer * world :=
  let '(itr, w) := ITR_init in
  let '(_, itr, w) := feed entries itr w in
  let '(_, itr, w) := Finish itr w in
  (itr, w).

End Reducer.

(** The indices of the entries grow strictly, each next to the one before:
    with the order being transitive, each is above all before it. *)
Fixpoint strictly_increasing (l : list Index) : bool :=
  match l with
  | [] => true
  | a :: l' =>
      match l' with
      | [] => true
      | b :: _ => index_lt a b && strictly_increasing l'
      end
  end.

(** [p] is the beginning of [i]: [p == i[:len(p)]]. *)
Definition is_prefix (p i : Index) : bool :=
  index_eqb p (firstn (length p) i).

(** Counting the events of a kind. *)
Fixpoint count (f : event -> bool) (tr : list event) : nat :=
  match tr with
  | [] => 0
  | e :: tr' => (if f e then 1 else 0) + count f tr'
  end.

Definition is_start (b : nat) (e : event) : bool :=
  match e with
  | Ev_start_process b' _ => Nat.eqb b b'
  | _ => false
  end.

Definition is_end (b : nat) (e : event) : bool :=
  match e with
  | Ev_end_process b' => Nat.eqb b b'
  | _ => false
  end.

(** The branch [c] is handed to a [branch_process]. *)
Definition is_merge_of (c : nat) (e : event) : bool :=
  match e with
  | Ev_branch_process _ c' => Nat.eqb c c'
  | _ => false
  end.

(** Every branch that was opened (whose [start_process] was called) has
    had one call of [start_process] and one of [end_process]. *)
Definition started_and_ended_once (tr : list event) : Prop :=
  forall b i,
    Ev_start_process b i ∈ tr ->
    count (is_start b) tr = 1 /\ count (is_end b) tr = 1.

(** Every finished branch but the outermost (the root, branch 0) was handed
    once to a [branch_process], that of its parent in the tree of the
    indices: the branch whose base index is a proper beginning of its own
    and the longest one among the branches opened, so that the base index
    of every other opened branch that properly begins its own also begins
    that of the parent. *)
Definition merged_once_into_parent (tr : list event) : Prop :=
  forall c,
    Ev_end_process c ∈ tr -> c <> 0 ->
    count (is_merge_of c) tr = 1
    /\ exists p ip ic,
         Ev_branch_process p c ∈ tr
         /\ Ev_start_process p ip ∈ tr /\ Ev_start_process c ic ∈ tr
         /\ is_prefix ip ic = true /\ ip <> ic
         /\ forall q iq,
              Ev_start_process q iq ∈ tr ->
              is_prefix iq ic = true -> iq <> ic ->
              is_prefix iq ip = true.

(** The order of the calls is a post-order of the tree of the indices: a
    branch is handed to its parent after its own end and before the end of
    the parent, and every branch whose base index begins with the base index
    of another ends before that other. *)
Definition post_order (tr : list event) : Prop :=
  (forall l1 l2 p c,
      tr = l1 ++ Ev_branch_process p c :: l2 ->
      Ev_end_process c ∈ l1 /\ (Ev_end_process p ∉ l1)
      /\ Ev_end_process p ∈ l2)
  /\ (forall q c iq ic,
         Ev_start_process q iq ∈ tr -> Ev_start_process c ic ∈ tr ->
         q <> c -> is_prefix iq ic = true ->
         exists l1 l2,
           tr = l1 ++ Ev_end_process q :: l2 /\ Ev_end_process c ∈ l1).

(** No entry was refused as out of order. *)
Definition none_refused (tr : list event) : Prop :=
  forall oldindex newindex,
    Ev_warn (Warn_oldindex oldindex newindex) ∉ tr.

(** What the calls of a reducer return for the indices that follow the
    first one, whose index [root] is the base index of the root branch: 1
    as long as the index begins with [root], [None] for the first one that
    does not, and [IndexError], from [branches[-1]] on the empty stack, for
    all after it. *)
Fixpoint results_in_tree (root : Index) (indices : list Index)
  : list (result (option Z)) :=
  match indices with
  | [] => []
  | i :: rest =>
      if is_prefix root i then Ret (Some 1%Z) :: results_in_tree root rest
      else Ret None :: map (fun _ => Raise IndexError) rest
  end.

(** The indices among [indices] that a reducer takes whose root has the
    base index [root]: those that begin with [root], up to the first one
    that does not. *)
Fixpoint within (root : Index) (indices : list Index) : list Index :=
  match indices with
  | [] => []
  | i :: rest => if is_prefix root i then i :: within root rest else []
  end.

(** The entries of a reduction that are in its tree: the first index, which
    becomes the base index of the root, and the indices after it as long as
    they begin with it. *)
Definition in_tree (indices : list Index) : list Index :=
  match indices with
  | [] => []
  | root :: rest => root :: within root rest
  end.

(** The index a branch is opened on, by the call of its [start_process]. *)
Definition opened (e : event) : option Index :=
  match e with
  | Ev_start_process _ i => Some i
  | _ => None
  end.

(** The first call opens the root, branch 0, on the first index, before
    anything else happens; without an entry no branch is opened. *)
Definition opens_root (indices : list Index) (tr : list event) : Prop :=
  match indices with
  | [] => forall b i, Ev_start_process b i ∉ tr
  | i :: _ => exists evs, tr = Ev_start_process 0 i :: evs
  end.

(** *** [Iter.multiplex]: the choice between the two implementations *)

Section IterMultiplex.

Context {A : Type}.

(** What [Iter.multiplex] returns: the pair of generators over an
    [IterMultiplex2], or the tuple of the generators of the general case. *)
Inductive forks :=
  | Forks2 (s : forks2 A)
  | ForksN (m : multiplex_state A).

(** [Iter.multiplex(iter, num_of_forks, final_func, closing_func)]:
    [final_func] and [closing_func] tell whether the caller gave the
    callback. *)
Definition Iter_multiplex (source : list A) (num_of_forks : nat)
    (final_func closing_func : bool) : forks :=
  if Nat.eqb num_of_forks 2 && negb final_func && negb closing_func
  then Forks2 (forks2_init source)
  else ForksN (multiplex source num_of_forks).

(** [next(forks[k])]: indexing the tuple out of range raises
    [IndexError]. *)
Definition next_fork (k : nat) (f : forks) : pulled A * forks :=
  match f with
  | Forks2 s =>
      match k with
      | 0 => let '(r, s') := next2 ForkA s in (r, Forks2 s')
      | 1 => let '(r, s') := next2 ForkB s in (r, Forks2 s')
      | _ => (Fail IndexError, f)
      end
  | ForksN m => let '(r, m') := fork_next k m in (r, ForksN m')
  end.

Fixpoint run_multiplex (sched : list nat) (f : forks)
  : list (nat * pulled A) * forks :=
  match sched with
  | [] => ([], f)
  | k :: sched' =>
      let '(r, f1) := next_fork k f in
      let '(tr, f2) := run_multiplex sched' f1 in
      ((k, r) :: tr, f2)
  end.

(** What the fork [k] of [n] over the source gets after the requests and
    results [tr]: the element after those it has received; at the end of
    the source [RuntimeError], for the [StopIteration] raised in the body
    of its generator; and [StopIteration] on every request after that. *)
Definition like_source (source : list A) (n : nat)
    (tr : list (nat * pulled A)) (k : nat) : pulled A :=
  if Nat.leb n k then Fail IndexError
  else if drained k tr then Stop
  else match source !! length (yields k tr) with
       | Some x => Item x
       | None => Fail RuntimeError
       end.

(** The arguments of the calls of [final_func], in order. *)
Fixpoint final_calls (log : list (mux_event A)) : list A :=
  match log with
  | [] => []
  | FinalFunc x :: log' => x :: final_calls log'
  | ClosingFunc :: log' => final_calls log'
  end.

(** The smallest and the largest of the numbers [cs], 0 when there is
    none. *)
Definition fewest (cs : list nat) : nat :=
  match cs with
  | [] => 0
  | c :: cs' => fold_right Nat.min c cs'
  end.

Definition most (cs : list nat) : nat := fold_right Nat.max 0 cs.

End IterMultiplex.

Arguments forks : clear implicits.

(** *** The functions of [Iter] on one iterator

    An iterator is given by the elements it has yet to produce; a function
    that pulls from iterators returns what is left of them beside its
    result.  A generator is given by one round of its loop, from a [next()]
    to the [yield]. *)

Module Iter.

Section Functions.

Context {A B : Type}.

(** [Iter.filter(predicate, iterator)]: one [next()] of the generator. *)
Fixpoint filter_next (predicate : A -> bool) (iterator : list A)
  : pulled A * list A :=
  match iterator with
  | [] => (Stop, [])
  | i :: rest =>
      if predicate i then (Item i, rest) else filter_next predicate rest
  end.

(** [Iter.map(function, iterator)]: one [next()] of the generator. *)
Definition map_next (function : A -> B) (iterator : list A)
  : pulled B * list A :=
  match iterator with
  | [] => (Stop, [])
  | i :: rest => (Item (function i), rest)
  end.

(** [Iter.cat] and [Iter.cat2] on a sequence of iterators: one [next()] of the
    generator, whose state is the iterator being read and those after
    it. *)
Fixpoint cat_next (iters : list (list A)) : pulled A * list (list A) :=
  match iters with
  | [] => (Stop, [])
  | iter :: rest =>
      match iter with
      | [] => cat_next rest
      | i :: iter' => (Item i, iter' :: rest)
      end
  end.

(** [next()] repeated on a generator with the state [s] until it stops, at
    most [fuel] times: the elements received, whether the end was met, and
    the state left. *)
Fixpoint drain {S : Type} (next : S -> pulled A * S) (fuel : nat) (s : S)
  : list A * bool * S :=
  match fuel with
  | 0 => ([], false, s)
  | S fuel' =>
      match next s with
      | (Item x, s') =>
          let '(xs, ended, s'') := drain next fuel' s' in
          (x :: xs, ended, s'')
      | (_, s') => ([], true, s')
      end
  end.

(** [Iter.empty(iter)]: [Some 1] is the result [1], [None] the result
    [None]. *)
Definition empty (iter : list A) : option Z * list A :=
  match iter with
  | [] => (Some 1%Z, [])
  | _ :: rest => (None, rest)
  end.

(** [Iter.equal(iter1, iter2, None, operator)]. *)
Fixpoint equal (operator : A -> B -> bool) (iter1 : list A) (iter2 : list B)
  : option Z * list A * list B :=
  match iter1 with
  | [] =>
      match iter2 with
      | [] => (Some 1%Z, [], [])
      | _ :: rest2 => (None, [], rest2)
      end
  | i1 :: rest1 =>
      match iter2 with
      | [] => (None, rest1, [])
      | i2 :: rest2 =>
          if operator i1 i2 then equal operator rest1 rest2
          else (None, rest1, rest2)
      end
  end.

(** The loop of [Iter.Or(iter)], with the truth value of the elements;
    [i] is [None] before the first element. *)
Fixpoint Or_loop (truth : A -> bool) (i : option A) (iter : list A)
  : option A * list A :=
  match iter with
  | [] => (i, [])
  | x :: rest => if truth x then (Some x, rest) else Or_loop truth (Some x) rest
  end.

Definition Or (truth : A -> bool) (iter : list A) : option A * list A :=
  Or_loop truth None iter.

(** The loop of [Iter.And(iter)]; [i] is [1], here [None], before the
    first element. *)
Fixpoint And_loop (truth : A -> bool) (i : option A) (iter : list A)
  : option A * list A :=
  match iter with
  | [] => (i, [])
  | x :: rest =>
      if negb (truth x) then (Some x, rest) else And_loop truth (Some x) rest
  end.

Definition And (truth : A -> bool) (iter : list A) : option A * list A :=
  And_loop truth None iter.

(** The truth value of the result of [Iter.And]: that of [1] when no
    element was read. *)
Definition And_truth (truth : A -> bool) (r : option A) : bool :=
  match r with
  | None => true
  | Some x => truth x
  end.

(** The truth value of the result of [Iter.Or]: that of [None] when no
    element was read. *)
Definition Or_truth (truth : A -> bool) (r : option A) : bool :=
  match r with
  | None => false
  | Some x => truth x
  end.

(** The loop of [Iter.len(iter)]. *)
Fixpoint len_loop (i : Z) (iter : list A) : Z * list A :=
  match iter with
  | [] => (i, [])
  | _ :: rest => len_loop (i + 1)%Z rest
  end.

Definition len (iter : list A) : Z * list A := len_loop 0%Z iter.

(** [Iter.foldl(f, default, iter)]. *)
Fixpoint foldl (f : B -> A -> B) (default : B) (iter : list A) : B :=
  match iter with
  | [] => default
  | next_item :: rest => foldl f (f default next_item) rest
  end.

(** [Iter.foldr(f, default, iter)]. *)
Fixpoint foldr (f : A -> B -> B) (default : B) (iter : list A) : B :=
  match iter with
  | [] => default
  | next_item :: rest => f next_item (foldr f default rest)
  end.

End Functions.

End Iter.

End Lazy.

(** ** Invariants of lazy.py

    The predicates the proofs below maintain along the runs of the
    multiplexer and of the tree reducer. *)

Module LazyInv.
Import Lazy.

Section Multiplex2.

Context {A : Type}.
Implicit Types (s : forks2 A) (src ya yb : list A).

(** What holds between the source [src], the elements [ya] and [yb] the two
    forks have received and the state: the fork ahead has received all that
    was pulled from the source, and the buffer holds what the other has not
    received yet. *)
Definition mux2_core src ya yb (m : IterMultiplex2 A) : Prop :=
  exists pulled,
    src = pulled ++ iter m
    /\ ((0 <= a_leading_by m
         /\ ya = pulled /\ pulled = yb ++ buffer m
         /\ a_leading_by m = Z.of_nat (length (buffer m)))
        \/ (a_leading_by m <= 0
            /\ yb = pulled /\ pulled = ya ++ buffer m
            /\ - a_leading_by m = Z.of_nat (length (buffer m))))%Z.

(** The invariant of a run: the core, and a finished fork has received the
    whole source. *)
Definition mux2_inv src ya yb s : Prop :=
  mux2_core src ya yb (im2 s)
  /\ (a_finished s = true -> ya = src)
  /\ (b_finished s = true -> yb = src).

Definition yielded (f g : fork2) (r : pulled A) : list A :=
  match r with
  | Item x => if fork2_eqb f g then [x] else []
  | _ => []
  end.

Definition fork_finished (f : fork2) s : bool :=
  match f with ForkA => a_finished s | ForkB => b_finished s end.

End Multiplex2.

Section Multiplex.

Context {A : Type}.

(** How many elements were pulled from the source. *)
Definition pulled_count (source : list A) (m : multiplex_state A) : nat :=
  length source - length (mx_iter m).

(** The position of a fork that has received [c] of the [pulled]
    elements: the buffer holds the newest element first. *)
Definition pos_of (pulled c : nat) : Z :=
  (Z.of_nat pulled - Z.of_nat c - 1)%Z.

(** With [consumed] the numbers of elements the forks have received: the
    fork positions follow from them, the buffer holds the elements that the
    slowest fork has yet to receive, and the flag is unset. *)
Record mux_inv (source : list A) (consumed : list nat)
    (m : multiplex_state A) : Prop := {
  mi_start : starting_forkposition m = repeat (-1)%Z (length consumed);
  mi_flag : called_closing_func m = false;
  mi_fin : length (mx_finished m) = length consumed;
  mi_iter : length (mx_iter m) <= length source;
  mi_fp : forkposition m = map (pos_of (pulled_count source m)) consumed;
  mi_le : Forall (fun c => c <= pulled_count source m) consumed;
  mi_buf : consumed = []
           \/ exists cmin,
                cmin ∈ consumed /\ Forall (fun c => cmin <= c) consumed
                /\ length (mx_buffer m) + cmin = pulled_count source m
}.

(** The numbers of elements the [n] forks received in a run. *)
Definition consumed_of (n : nat) (tr : list (nat * pulled A)) : list nat :=
  map (fun j => length (yields j tr)) (seq 0 n).

(** After a run with the requests and results [tr]: the invariant holds for
    what the forks received, and a fork is finished when one of its requests
    met the end of the iteration. *)
Definition reached (source : list A) (n : nat) (tr : list (nat * pulled A))
    (m : multiplex_state A) : Prop :=
  mux_inv source (consumed_of n tr) m
  /\ forall j, j < n -> mx_finished m !! j = Some (drained j tr).

End Multiplex.

(** The number of branch objects and the base index of a branch. *)
Definition nb (w : world) : nat := length (heap w).

Definition base (w : world) (b : nat) : option Index :=
  base_index (default ITRBranch_new (heap w !! b)).

(** A branch is handed to its parent after its own end and before the end
    of the parent. *)
Definition merge_order (tr : list event) : Prop :=
  forall l1 l2 p c,
    tr = l1 ++ Ev_branch_process p c :: l2 ->
    Ev_end_process c ∈ l1 /\ Ev_end_process p ∉ l1.

(** A branch is handed to a branch whose base index is a proper beginning
    of its own. *)
Definition merge_base (tr : list event) : Prop :=
  forall p c,
    Ev_branch_process p c ∈ tr ->
    exists ip ic,
      Ev_start_process p ip ∈ tr /\ Ev_start_process c ic ∈ tr
      /\ is_prefix ip ic = true /\ ip <> ic.

(** A branch below another in the tree of the indices ends before it. *)
Definition anc_order (tr : list event) : Prop :=
  forall q c iq ic l1 l2,
    Ev_start_process q iq ∈ tr -> Ev_start_process c ic ∈ tr -> q <> c ->
    is_prefix iq ic = true ->
    tr = l1 ++ Ev_end_process q :: l2 ->
    Ev_end_process c ∈ l1.

(** When a branch is handed over, it and the branch that takes it have been
    opened, and the base index of every branch opened so far that properly
    begins the base index of the branch handed over also begins that of the
    taker. *)
Definition merge_near (tr : list event) : Prop :=
  forall l1 l2 p c,
    tr = l1 ++ Ev_branch_process p c :: l2 ->
    exists ip ic,
      Ev_start_process p ip ∈ l1 /\ Ev_start_process c ic ∈ l1
      /\ forall q iq,
           Ev_start_process q iq ∈ l1 ->
           is_prefix iq ic = true -> iq <> ic ->
           is_prefix iq ip = true.

(** The branches are opened in the order of their base indices. *)
Definition starts_sorted (tr : list event) : Prop :=
  forall l1 l2 b i,
    tr = l1 ++ Ev_start_process b i :: l2 ->
    forall b' i', Ev_start_process b' i' ∈ l1 -> index_lt i' i = true.

Definition no_merge (e : event) : Prop :=
  match e with Ev_branch_process _ _ => False | _ => True end.

Definition no_start (e : event) : Prop :=
  match e with Ev_start_process _ _ => False | _ => True end.

(** The base indices along the stack: each is a proper beginning of those
    above it. *)
Fixpoint chain (stk : list nat) (tr : list event) : Prop :=
  match stk with
  | [] => True
  | c :: rest =>
      (forall p ic ip,
          p ∈ rest ->
          Ev_start_process c ic ∈ tr -> Ev_start_process p ip ∈ tr ->
          is_prefix ip ic = true /\ ip <> ic)
      /\ chain rest tr
  end.

Record inv (stk : list nat) (w : world) : Prop := {
  i_nodup : NoDup stk;
  i_lt : forall b, b ∈ stk -> b < nb w;
  i_root : stk <> [] -> last stk = Some 0;
  i_start1 : forall b, b < nb w -> count (is_start b) (log w) = 1;
  i_start0 : forall b, nb w <= b -> count (is_start b) (log w) = 0;
  i_end1 : forall b, b < nb w -> b ∉ stk -> count (is_end b) (log w) = 1;
  i_end0 : forall b, nb w <= b \/ b ∈ stk -> count (is_end b) (log w) = 0;
  i_merge1 : forall c, c < nb w -> c ∉ stk -> c <> 0 ->
                       count (is_merge_of c) (log w) = 1;
  i_merge0 : forall c, nb w <= c \/ c ∈ stk \/ c = 0 ->
                       count (is_merge_of c) (log w) = 0;
  i_base : forall b, b ∈ stk ->
                     exists i, base w b = Some i
                               /\ Ev_start_process b i ∈ log w;
  i_chain : chain stk (log w);
  i_merge_order : merge_order (log w);
  i_merge_base : merge_base (log w);
  i_anc : anc_order (log w);
  i_near : merge_near (log w);
  i_sorted : starts_sorted (log w)
}.

(** Events that open, end or hand over no branch. *)
Definition benign (e : event) : Prop :=
  match e with
  | Ev_can_fast_process _ _ | Ev_fast_process _ _ | Ev_warn _ => True
  | _ => False
  end.

Definition structural (e : event) : Prop :=
  match e with
  | Ev_start_process _ _ | Ev_end_process _ | Ev_branch_process _ _ => True
  | _ => False
  end.

(** The heap keeps its size and its base indices. *)
Definition same_frame (w w' : world) : Prop :=
  nb w' = nb w /\ forall b, base w' b = base w b.

(** The events of the end of the branch on top of the stack. *)
Definition pop_events (b : nat) (rest : list nat) (evs : list event)
  : list event :=
  Ev_end_process b :: evs
  ++ match rest with
     | [] => []
     | p :: _ => [Ev_branch_process p b]
     end.

(** Events other than the warning for an entry out of order. *)
Definition quiet (e : event) : Prop :=
  match e with
  | Ev_warn (Warn_oldindex _ _) => False
  | _ => True
  end.

(** The world [w'] is [w] with the events [evs] logged, the heap has kept
    its size and its base indices. *)
Definition ext (w w' : world) (evs : list event) : Prop :=
  same_frame w w' /\ log w' = log w ++ evs.

Section Reducer.

Context {P : Type}.
Variable end_process : list event -> nat -> hook_result.

(** The end of the branch on top of the stack, as [finish_branches] and
    [Finish] do it. *)
Definition pop_step (b : nat) (rest : list nat) (w : world) : world :=
  match rest with
  | [] => call_end_proc end_process b w
  | parent :: _ => branch_process parent b (call_end_proc end_process b w)
  end.

End Reducer.

(** What [finish_branches] leaves for the index [i']: the invariant, no
    ended branch whose base index begins [i'], and on top of the stack, when
    one is left, a branch whose base index does. *)
Definition finished_for (i' : Index) (w : world)
    (res : result (option Z) * list nat * world) : Prop :=
  inv res.1.2 res.2
  /\ (forall q iq, Ev_start_process q iq ∈ log res.2 -> q ∉ res.1.2 ->
                   is_prefix iq i' = false)
  /\ (forall x i, Ev_start_process x i ∈ log res.2
                  <-> Ev_start_process x i ∈ log w)
  /\ (exists evs, log res.2 = log w ++ evs /\ Forall quiet evs)
  /\ ((res.1.1 = Ret None /\ res.1.2 = [])
      \/ exists top rest ip,
           res.1.1 = Ret (Some 1%Z) /\ res.1.2 = top :: rest
           /\ base res.2 top = Some ip /\ is_prefix ip i' = true).

(** With [l] the last accepted index: every base index is at most [l],
    and no branch that has ended has a base index that begins an index
    above [l]. *)
Definition bnd (l : Index) (stk : list nat) (w : world) : Prop :=
  (forall b i, Ev_start_process b i ∈ log w -> index_le i l = true)
  /\ (forall q iq, Ev_start_process q iq ∈ log w -> q ∉ stk ->
                   forall j, index_lt l j = true -> is_prefix iq j = false).

Definition good (itr : IterTreeReducer) (w : world) : Prop :=
  inv (branches itr) w
  /\ exists l, index itr = Some l
               /\ (branches itr = [] \/ bnd l (branches itr) w).

(** A reduction with the stub hooks of [ITRBranch], which do nothing and
    never take the fast path: every entry opens a branch. *)
Definition stub_reduce (indices : list Index) : IterTreeReducer * world :=
  reduce (fun _ _ _ => Returns) (fun _ _ => Returns) (fun _ _ _ => false)
         (fun _ _ _ => Returns) (map (fun i => (i, tt)) indices).

(** The branches that have left the stack are finished. *)
Definition ended_finished (stk : list nat) (w : world) : Prop :=
  forall b, b < nb w -> b ∉ stk -> finished (get_branch w b) = true.


(** From [w] to [w']: the heap has kept its size, and no branch has lost
    [finished] or [start_successful]. *)
Definition flags_kept (w w' : world) : Prop :=
  nb w' = nb w
  /\ forall b,
       (finished (get_branch w b) = true ->
        finished (get_branch w' b) = true)
       /\ (start_successful (get_branch w b) = true ->
           start_successful (get_branch w' b) = true).

(** An event in which no branch is handed over and no entry is processed
    without a new branch. *)
Definition plain (e : event) : Prop :=
  match e with
  | Ev_branch_process _ _ | Ev_can_fast_process _ _ | Ev_fast_process _ _ =>
      False
  | _ => True
  end.

(** The branch of an event that takes a successful [start_process] has had
    one. *)
Definition on_started (w : world) (e : event) : Prop :=
  match e with
  | Ev_branch_process p _ | Ev_can_fast_process p _ | Ev_fast_process p _ =>
      start_successful (get_branch w p) = true
  | _ => True
  end.

(** Whatever has a branch below it on the stack, was handed a branch or
    was asked to process an entry without a new branch has had a successful
    [start_process]. *)
Definition parents_started (stk : list nat) (w : world) : Prop :=
  (forall p, p ∈ tl stk -> start_successful (get_branch w p) = true)
  /\ Forall (on_started w) (log w).

(** What a reducer logs when the [start_process] of its root has failed:
    the start and the end of the root, and warnings. *)
Definition root_event (e : event) : Prop :=
  match e with
  | Ev_start_process 0 _ | Ev_end_process 0 | Ev_warn _ => True
  | _ => False
  end.

(** A reducer past its first call whose root, the only branch, has not
    [start_successful]. *)
Definition root_failed (itr : IterTreeReducer) (w : world) : Prop :=
  (branches itr = [0] \/ branches itr = [])
  /\ index itr <> None
  /\ (exists br, heap w = [br] /\ start_successful br = false)
  /\ Forall root_event (log w).

(** The entry an event accounts for: the index [start_process] or
    [fast_process] was called on, or the index a warning of [__call__]
    names as skipped or as out of order.  The warning of [on_error] and
    the other calls account for none. *)
Definition handled (e : event) : option Index :=
  match e with
  | Ev_start_process _ i | Ev_fast_process _ i => Some i
  | Ev_warn (Warn_skipping i) | Ev_warn (Warn_oldindex _ i) => Some i
  | _ => None
  end.

(** The indices whose call returned a value other than [None]. *)
Fixpoint accepted (results : list (result (option Z))) (indices : list Index)
  : list Index :=
  match results, indices with
  | Ret (Some _) :: results', i :: indices' => i :: accepted results' indices'
  | _ :: results', _ :: indices' => accepted results' indices'
  | _, _ => []
  end.

(** An entry taken without a branch of its own: processed by
    [fast_process], or skipped after an error. *)
Definition unopened (e : event) : bool :=
  match e with
  | Ev_fast_process _ _ | Ev_warn (Warn_skipping _) => true
  | _ => false
  end.

(** Every branch on the stack has had a successful [start_process]. *)
Definition all_started (stk : list nat) (w : world) : Prop :=
  forall b, b ∈ stk -> start_successful (get_branch w b) = true.

Section MultiplexContent.

Context {A : Type}.

(** What the state holds of the source: the iterator is the source without
    the elements pulled, the buffer holds the newest of them first, and
    [final_func] was called on those that left the buffer, in order. *)
Record mux_content (source : list A) (m : multiplex_state A) : Prop := {
  mc_iter : mx_iter m = drop (pulled_count source m) source;
  mc_buf : forall i, i < length (mx_buffer m) ->
             mx_buffer m !! i = source !! (pulled_count source m - 1 - i);
  mc_final : final_calls (mx_log m)
             = firstn (pulled_count source m - length (mx_buffer m)) source
}.

(** After a run: the content, a fork ahead of all that was pulled, each
    fork has received a beginning of the source, all of it once it has met
    the end. *)
Definition reached_content (source : list A) (n : nat)
    (tr : list (nat * pulled A)) (m : multiplex_state A) : Prop :=
  mux_content source m
  /\ (n = 0 \/ pulled_count source m ∈ consumed_of n tr)
  /\ (forall j, j < n -> yields j tr = firstn (length (yields j tr)) source)
  /\ (forall j, j < n -> drained j tr = true ->
                length (yields j tr) = length source).

(** The two forks of an [IterMultiplex2] after a run with the requests and
    results [tr]. *)
Definition reached2 (source : list A) (tr : list (nat * pulled A))
    (s : forks2 A) : Prop :=
  mux2_core source (yields 0 tr) (yields 1 tr) (im2 s)
  /\ a_finished s = drained 0 tr
  /\ b_finished s = drained 1 tr.

End MultiplexContent.

End LazyInv.

(** * Properties of globmatch.py *)

Module GlobmatchProps.
Import Globmatch.

(** ** Strings *)

Lemma append_cons (c : ascii) (a b : string) :
  String c a +:+ b = String c (a +:+ b).
Proof. reflexivity. Qed.

Lemma append_nil_l (b : string) : "" +:+ b = b.
Proof. reflexivity. Qed.

Lemma append_nil_r (s : string) : s +:+ "" = s.
Proof.
  induction s as [|c s IH]; [reflexivity|].
  now rewrite append_cons, IH.
Qed.

Lemma append_assoc (a b c : string) : (a +:+ b) +:+ c = a +:+ (b +:+ c).
Proof.
  induction a as [|x a IH]; [reflexivity|].
  now rewrite !append_cons, IH.
Qed.

Lemma length_append (a b : string) :
  String.length (a +:+ b) = String.length a + String.length b.
Proof.
  induction a as [|x a IH]; [reflexivity|].
  rewrite append_cons. simpl. now rewrite IH.
Qed.

Lemma get_append_r (a b : string) (k : nat) :
  String.get (String.length a + k) (a +:+ b) = String.get k b.
Proof.
  induction a as [|x a IH]; [reflexivity|].
  rewrite append_cons. simpl. exact IH.
Qed.

Lemma substring_append_r (a b : string) (k m : nat) :
  String.substring (String.length a + k) m (a +:+ b) = String.substring k m b.
Proof.
  induction a as [|x a IH]; [reflexivity|].
  rewrite append_cons. simpl. exact IH.
Qed.

(** ** The loops of [glob_to_regex] end

    Every round of the main loop moves [i] forward, so the rounds the
    model allows, [String.length pat] of them, are never used up: more
    rounds give the same result. *)

Lemma skip_to_close_ge (fuel : nat) (pat : string) :
  forall j, j <= skip_to_close fuel pat j.
Proof.
  induction fuel as [|fuel IH]; intros j; simpl; [lia|].
  destruct (_ && _); [|lia]. specialize (IH (j + 1)). lia.
Qed.

Lemma glob_to_regex_loop_S (fuel : nat) (pat : string) (i : nat)
    (res : string) :
  glob_to_regex_loop (S fuel) pat i res
  = let n := String.length pat in
    if Nat.ltb i n then
      let c := Py.at_ pat i in
      let s := Py.slice pat i (i + 2) in
      let i := i + 1 in
      if String.eqb s "**" then
        glob_to_regex_loop fuel pat (i + 1) (res +:+ ".*")
      else if Ascii.eqb c "*" then
        glob_to_regex_loop fuel pat i (res +:+ "[^/]*")
      else if Ascii.eqb c "?" then
        glob_to_regex_loop fuel pat i (res +:+ "[^/]")
      else if Ascii.eqb c "[" then
        let j := i in
        let j := if Nat.ltb j n && Py.char_in (Py.at_ pat j) "!^"
                 then j + 1 else j in
        let j := if Nat.ltb j n && Ascii.eqb (Py.at_ pat j) "]"
                 then j + 1 else j in
        let j := skip_to_close n pat j in
        if Nat.leb n j then
          glob_to_regex_loop fuel pat i (res +:+ "\[")
        else
          let stuff := Py.replace_char "\" "\\" (Py.slice pat i j) in
          let i := j + 1 in
          let stuff := if Py.char_in (Py.at_ stuff 0) "!^"
                       then "^" +:+ Py.slice_from stuff 1 else stuff in
          glob_to_regex_loop fuel pat i (res +:+ "[" +:+ stuff +:+ "]")
      else
        glob_to_regex_loop fuel pat i (res +:+ Re.escape c)
    else res.
Proof. reflexivity. Qed.

Lemma glob_to_regex_loop_fuel (pat : string) (fuel : nat) :
  forall i res,
    String.length pat - i <= fuel ->
    glob_to_regex_loop (S fuel) pat i res = glob_to_regex_loop fuel pat i res.
Proof.
  induction fuel as [|fuel IH]; intros i res Hfuel.
  - rewrite glob_to_regex_loop_S. cbv zeta.
    replace (Nat.ltb i (String.length pat)) with false; [reflexivity|].
    symmetry. apply Nat.ltb_ge. lia.
  - rewrite (glob_to_regex_loop_S (S fuel)), (glob_to_regex_loop_S fuel).
    cbv zeta. destruct (Nat.ltb_spec i (String.length pat)) as [Hi|Hi];
      [|reflexivity].
    destruct (String.eqb _ "**"); [apply IH; lia|].
    destruct (Ascii.eqb _ "*"); [apply IH; lia|].
    destruct (Ascii.eqb _ "?"); [apply IH; lia|].
    destruct (Ascii.eqb _ "["); [|apply IH; lia].
    destruct (Nat.leb _ _); [apply IH; lia|].
    apply IH.
    match goal with
    | |- context [skip_to_close ?f ?p ?j] =>
        pose proof (skip_to_close_ge f p j) as Hj
    end.
    destruct (_ && _) in Hj |- *; destruct (_ && _) in Hj |- *; lia.
Qed.

(** With more rounds than the length of the pattern the result is that of
    [glob_to_regex]. *)
Lemma glob_to_regex_fuel (pat : string) (extra : nat) :
  glob_to_regex_loop (String.length pat + extra) pat 0 ""
  = glob_to_regex pat.
Proof.
  unfold glob_to_regex. induction extra as [|extra IH].
  - now rewrite Nat.add_0_r.
  - rewrite Nat.add_succ_r, glob_to_regex_loop_fuel; [exact IH|lia].
Qed.

(** The inner loop has rounds enough as well: it stops at the end of the
    pattern or on a closing bracket. *)
Lemma skip_to_close_stops (pat : string) (fuel : nat) :
  forall j,
    String.length pat - j <= fuel ->
    String.length pat <= skip_to_close fuel pat j
    \/ Py.at_ pat (skip_to_close fuel pat j) = "]"%char.
Proof.
  induction fuel as [|fuel IH]; intros j Hfuel; simpl.
  - left. lia.
  - destruct (Nat.ltb_spec j (String.length pat)) as [Hj|Hj]; simpl;
      [|left; lia].
    destruct (Ascii.eqb_spec (Py.at_ pat j) "]") as [Heq|Hne]; simpl;
      [now right|].
    apply IH. lia.
Qed.

(** ** [glob_to_regex] on literal globs *)

Lemma at_append_r (a b : string) :
  Py.at_ (a +:+ b) (String.length a) = Py.at_ b 0.
Proof.
  unfold Py.at_. rewrite <- (Nat.add_0_r (String.length a)).
  now rewrite get_append_r.
Qed.

Lemma slice_append_r (a b : string) (m : nat) :
  Py.slice (a +:+ b) (String.length a) (String.length a + m)
  = String.substring 0 m b.
Proof.
  unfold Py.slice.
  replace (String.length a + m - String.length a) with m by lia.
  rewrite <- (Nat.add_0_r (String.length a)) at 1.
  apply substring_append_r.
Qed.

Lemma not_meta_cases (c : ascii) :
  Py.char_in c "?*[" = false ->
  Ascii.eqb c "*" = false /\ Ascii.eqb c "?" = false
  /\ Ascii.eqb c "[" = false.
Proof.
  simpl. rewrite !orb_false_r.
  destruct (Ascii.eqb c "?"), (Ascii.eqb c "*"), (Ascii.eqb c "[");
    simpl; intros; try discriminate; auto.
Qed.

Lemma glob_to_regex_loop_literal (lit : string) :
  forall (pre res : string) (fuel : nat),
    is_literal lit = true ->
    String.length lit <= fuel ->
    glob_to_regex_loop fuel (pre +:+ lit) (String.length pre) res
    = res +:+ escape_all lit.
Proof.
  induction lit as [|c lit IH]; intros pre res fuel Hlit Hfuel.
  - rewrite !append_nil_r. destruct fuel; simpl; [reflexivity|].
    now rewrite Nat.ltb_irrefl.
  - destruct fuel as [|fuel]; [simpl in Hfuel; lia|].
    simpl in Hlit. apply andb_true_iff in Hlit as [Hc Hlit].
    apply negb_true_iff in Hc.
    destruct (not_meta_cases c Hc) as (Hstar & Hq & Hbr).
    cbn [glob_to_regex_loop].
    rewrite length_append. cbn [String.length].
    replace (Nat.ltb (String.length pre)
               (String.length pre + S (String.length lit)))
      with true by (symmetry; apply Nat.ltb_lt; lia).
    rewrite at_append_r, slice_append_r.
    change (Py.at_ (String c lit) 0) with c.
    change (String.substring 0 2 (String c lit))
      with (String c (String.substring 0 1 lit)).
    cbn [String.eqb]. rewrite Hstar, Hq, Hbr.
    replace (pre +:+ String c lit) with ((pre +:+ String c "") +:+ lit)
      by (now rewrite append_assoc).
    replace (String.length pre + 1) with (String.length (pre +:+ String c ""))
      by (rewrite length_append; reflexivity).
    rewrite IH by (auto; simpl in Hfuel; lia).
    cbn [escape_all]. now rewrite append_assoc.
Qed.

Lemma glob_to_regex_literal (lit : string) :
  is_literal lit = true -> glob_to_regex lit = escape_all lit.
Proof.
  intros H. unfold glob_to_regex.
  exact (glob_to_regex_loop_literal lit "" "" _ H (Nat.le_refl _)).
Qed.

(** ** Compiling and running the regex of a literal glob *)

Lemma escape_cases (c : ascii) :
  if Py.char_in c Re.special_chars
  then Re.is_alnum c = false
  else Re.lex_char Re.LNormal c
       = Re.LGo Re.LNormal [Re.TAtom (Re.CsChar c)].
Proof.
  destruct c as [[] [] [] [] [] [] [] []]; vm_compute; reflexivity.
Qed.

Lemma lex_escape (c : ascii) (rest : string) :
  Re.lex Re.LNormal (Re.escape c +:+ rest)
  = option_map (cons (Re.TAtom (Re.CsChar c))) (Re.lex Re.LNormal rest).
Proof.
  unfold Re.escape. pose proof (escape_cases c) as H.
  destruct (Py.char_in c Re.special_chars).
  - rewrite !append_cons, append_nil_l. cbn [Re.lex].
    change (Re.lex_char Re.LNormal "\") with (Re.LGo Re.LEscape []).
    cbn [Re.lex_char]. rewrite H.
    now destruct (Re.lex Re.LNormal rest).
  - rewrite append_cons, append_nil_l. cbn [Re.lex]. rewrite H.
    now destruct (Re.lex Re.LNormal rest).
Qed.

Lemma lex_escape_all (lit rest : string) :
  Re.lex Re.LNormal (escape_all lit +:+ rest)
  = option_map (app (lit_tokens lit)) (Re.lex Re.LNormal rest).
Proof.
  induction lit as [|c lit IH]; simpl.
  - rewrite append_nil_l. now destruct (Re.lex Re.LNormal rest).
  - rewrite append_assoc, lex_escape, IH.
    now destruct (Re.lex Re.LNormal rest).
Qed.

Lemma parse_lit_tokens (lit : string) :
  forall stack alts items rest,
    Re.parse stack (alts, items) (lit_tokens lit ++ rest)
    = Re.parse stack (alts, push_lits lit items) rest.
Proof.
  induction lit as [|c lit IH]; intros; simpl; [reflexivity|].
  apply IH.
Qed.

Lemma mk_seq_push_lits (lit : string) :
  forall items acc,
    fold_left (fun acc r => Re.RSeq r acc) (push_lits lit items) acc
    = fold_left (fun acc r => Re.RSeq r acc) items (lits lit acc).
Proof.
  induction lit as [|c lit IH]; intros; simpl; [reflexivity|].
  now rewrite IH.
Qed.

Lemma compile_literal (lit : string) :
  Re.compile ("^" +:+ escape_all lit +:+ "($|/)") = Ret (literal_regex lit).
Proof.
  unfold Re.compile.
  change ("^" +:+ escape_all lit +:+ "($|/)")
    with (String "^" (escape_all lit +:+ "($|/)")).
  cbn [Re.lex]. change (Re.lex_char Re.LNormal "^")
    with (Re.LGo Re.LNormal [Re.TCaret]).
  cbv beta iota. rewrite lex_escape_all.
  change (Re.lex Re.LNormal "($|/)")
    with (Some [Re.TLParen; Re.TDollar; Re.TBar;
                Re.TAtom (Re.CsChar "/"); Re.TRParen]).
  cbn [option_map app Re.parse]. rewrite parse_lit_tokens.
  cbn [Re.parse Re.close_frame Re.mk_alt Re.mk_seq fst snd fold_left].
  rewrite mk_seq_push_lits. reflexivity.
Qed.

Lemma run_end_or_sep (bol : bool) (rest : string) :
  Re.run (Re.RSeq end_or_sep Re.REmpty) bol rest (fun _ _ => true)
  = tail_ok rest.
Proof.
  unfold tail_ok. simpl. rewrite andb_true_r.
  destruct rest as [|c rest]; [reflexivity|].
  now rewrite andb_true_r.
Qed.

Lemma run_lits (lit : string) :
  forall bol s,
    Re.run (lits lit (Re.RSeq end_or_sep Re.REmpty)) bol s (fun _ _ => true)
    = true
    <-> exists rest, s = lit +:+ rest /\ tail_ok rest = true.
Proof.
  induction lit as [|c lit IH]; intros bol s.
  - cbn [lits]. rewrite run_end_or_sep. split.
    + intros H. exists s. now rewrite append_nil_l.
    + intros (rest & -> & H). now rewrite append_nil_l.
  - cbn [lits Re.run]. destruct s as [|d s].
    + split; [discriminate|]. intros (rest & H & _).
      rewrite append_cons in H. discriminate.
    + cbn [Re.accepts]. split.
      * intros H. apply andb_true_iff in H as [Hd H].
        apply Ascii.eqb_eq in Hd. subst d.
        apply IH in H as (rest & -> & Hr). exists rest.
        now rewrite append_cons.
      * intros (rest & H & Hr). rewrite append_cons in H.
        injection H as -> ->. rewrite Ascii.eqb_refl. simpl.
        apply IH. now exists rest.
Qed.

Lemma match_literal_regex (lit s : string) :
  Re.match_ (literal_regex lit) s = true
  <-> exists rest, s = lit +:+ rest /\ tail_ok rest = true.
Proof.
  unfold Re.match_, literal_regex. cbn [Re.run andb]. apply run_lits.
Qed.

Lemma tail_ok_cases (rest : string) :
  tail_ok rest = true
  <-> rest = "" \/ rest = String Re.newline ""
      \/ exists rest', rest = "/" +:+ rest'.
Proof.
  unfold tail_ok. destruct rest as [|c rest]; simpl.
  - split; auto.
  - split.
    + intros H. apply orb_true_iff in H as [H|H].
      * destruct rest; [|discriminate]. apply Ascii.eqb_eq in H.
        subst c. auto.
      * apply Ascii.eqb_eq in H. subst c. right. right. now exists rest.
    + intros [H|[H|(rest' & H)]]; [discriminate| |].
      * injection H as -> ->. now rewrite Ascii.eqb_refl.
      * change ("/" +:+ rest') with (String "/" rest') in H.
        injection H as -> ->. apply orb_true_r.
Qed.

(** ** The selector *)

Lemma is_literal_drop_last (pat : string) :
  is_literal pat = true -> is_literal (Py.drop_last pat) = true.
Proof.
  induction pat as [|c pat IH]; [reflexivity|].
  intros H. cbn [is_literal] in H. apply andb_true_iff in H as [Hc H].
  destruct pat as [|d pat]; [reflexivity|].
  change (Py.drop_last (String c (String d pat)))
    with (String c (Py.drop_last (String d pat))).
  cbn [is_literal]. rewrite Hc. now apply IH.
Qed.

Lemma strip_trailing_sep_literal (pat : string) (flag : bool) (lit : string) :
  is_literal pat = true ->
  strip_trailing_sep pat = Ret (flag, lit) ->
  is_literal lit = true.
Proof.
  unfold strip_trailing_sep. intros Hlit.
  destruct (String.eqb pat "/"); [now intros [= _ <-]|].
  destruct (Py.last_char pat) as [c|]; [|discriminate].
  destruct (Ascii.eqb c "/"); intros [= _ <-]; auto.
  now apply is_literal_drop_last.
Qed.

(** C3 (as amended).  For a glob without metacharacters, the match regex is
    compiled from the glob with its trailing separator removed; it matches
    that literal and every string that continues the literal with a
    separator (a descendant path), with or without a trailing separator in
    the glob; leaving aside the literal followed by one newline, it matches
    nothing else. *)
Theorem literal_glob_match_regex (pat : string) (flag : bool) (lit : string) :
  is_literal pat = true ->
  strip_trailing_sep pat = Ret (flag, lit) ->
  match_regex pat = Ret (literal_regex lit)
  /\ forall s, s <> lit +:+ String Re.newline "" ->
       (Re.match_ (literal_regex lit) s = true
        <-> s = lit \/ exists rest, s = lit +:+ "/" +:+ rest).
Proof.
  intros Hlit Hstrip. split.
  - unfold match_regex. rewrite Hstrip. cbn [bind].
    unfold glob_comp_re_source.
    rewrite (glob_to_regex_literal lit)
      by (eapply strip_trailing_sep_literal; eauto).
    apply compile_literal.
  - intros s Hs. rewrite match_literal_regex. split.
    + intros (rest & -> & H). apply tail_ok_cases in H.
      destruct H as [->|[->|(rest' & ->)]].
      * left. apply append_nil_r.
      * now contradiction Hs.
      * right. now exists rest'.
    + intros [->|(rest & ->)].
      * exists "". now rewrite append_nil_r.
      * exists ("/" +:+ rest). split; [reflexivity|].
        apply tail_ok_cases. right. right. now exists rest.
Qed.

Lemma literal_glob_match_regex_witness :
  match_regex "a/" = Ret (literal_regex "a")
  /\ forall s, s <> "a" +:+ String Re.newline "" ->
       (Re.match_ (literal_regex "a") s = true
        <-> s = "a" \/ exists rest, s = "a" +:+ "/" +:+ rest).
Proof.
  apply (literal_glob_match_regex "a/" true "a"); reflexivity.
Defined.

(** C3 (counterexample).  The glob [a] has no metacharacter and no trailing
    separator, yet its match regex matches other strings: the descendant
    [a/b], and [a] followed by a newline. *)
Lemma literal_glob_counterexample :
  is_literal "a" = true
  /\ strip_trailing_sep "a" = Ret (false, "a")
  /\ exists r, match_regex "a" = Ret r
               /\ Re.match_ r "a/b" = true /\ "a/b" <> "a"
               /\ Re.match_ r (String "a" (String Re.newline "")) = true.
Proof.
  split; [reflexivity|]. split; [reflexivity|].
  eexists. split; [reflexivity|]. split; [reflexivity|].
  split; [discriminate|reflexivity].
Qed.

(** C4 (as amended).  The match regex of [a/**] matches [a/b] and [a/b/c]
    but not [a]: for a directory named [a] the include selector answers
    through the ancestor-prefix regex, with ScanDirectory (2). *)
Theorem doublestar_match_regex :
  exists r, match_regex "a/**" = Ret r
    /\ Re.match_ r "a" = false
    /\ Re.match_ r "a/b" = true
    /\ Re.match_ r "a/b/c" = true
    /\ path_matches_glob {| name := "a"; isdir := true |} "a/**" 1
       = Ret (Some 2%Z).
Proof.
  eexists. split; [reflexivity|]. repeat split; reflexivity.
Qed.

(** C4 (counterexample).  The match regex of [a/**] does not match [a]. *)
Lemma doublestar_counterexample :
  exists r, match_regex "a/**" = Ret r /\ Re.match_ r "a" = false.
Proof. eexists. split; reflexivity. Qed.

(** C8.  With exclude polarity the selector never answers ScanDirectory:
    when it returns, it returns Exclude (0) or NoOpinion. *)
Theorem exclude_never_scans (path : Path) (glob_str : string) :
  path_matches_glob path glob_str 0 <> Ret (Some 2%Z)
  /\ (path_matches_glob path glob_str 0 = Ret (Some 0%Z)
      \/ path_matches_glob path glob_str 0 = Ret None
      \/ exists e, path_matches_glob path glob_str 0 = Raise e).
Proof.
  assert (H : path_matches_glob path glob_str 0 = Ret (Some 0%Z)
      \/ path_matches_glob path glob_str 0 = Ret None
      \/ exists e, path_matches_glob path glob_str 0 = Raise e).
  { unfold path_matches_glob.
    destruct (strip_trailing_sep glob_str) as [[flag g]|e];
      cbn [bind]; [|eauto].
    destruct (Re.compile (glob_comp_re_source g)) as [r1|e];
      cbn [bind]; [|eauto].
    destruct (_glob_get_prefix_regexs (truncate_after_doublestar g))
      as [rs|e]; cbn [bind]; [|eauto].
    destruct (Re.compile (scan_comp_re_source rs)) as [r2|e];
      cbn [bind]; [|eauto].
    destruct (flag && negb (isdir path)); [auto|].
    destruct (Re.match_ r1 (name path)); [auto|].
    cbn. auto. }
  split; [|exact H].
  destruct H as [H|[H|(e & H)]]; rewrite H; discriminate.
Qed.

(** C7 (as amended).  For a path that is not a directory and a glob other
    than [/] that ends in a separator, the selector returns NoOpinion
    provided the glob compiles; a failure of one of the three compilation
    steps is raised instead, before the directory test is reached. *)
Theorem dir_only_glob_on_non_dir (path : Path) (glob_str : string)
    (include : Z) :
  isdir path = false ->
  glob_str <> "/" ->
  Py.last_char glob_str = Some "/"%char ->
  path_matches_glob path glob_str include
  = (let g := Py.drop_last glob_str in
     let* _ := Re.compile (glob_comp_re_source g) in
     let* regexs := _glob_get_prefix_regexs (truncate_after_doublestar g) in
     let* _ := Re.compile (scan_comp_re_source regexs) in
     Ret None).
Proof.
  intros Hdir Hne Hlast. unfold path_matches_glob, strip_trailing_sep.
  apply String.eqb_neq in Hne. rewrite Hne, Hlast.
  cbn [Ascii.eqb Bool.eqb bind]. rewrite Hdir.
  destruct (Re.compile _) as [r1|e]; cbn [bind]; [|reflexivity].
  destruct (_glob_get_prefix_regexs _) as [rs|e]; cbn [bind]; [|reflexivity].
  destruct (Re.compile _) as [r2|e]; reflexivity.
Qed.

Lemma dir_only_glob_on_non_dir_witness :
  path_matches_glob {| name := "a"; isdir := false |} "a/" 1 = Ret None.
Proof.
  apply (dir_only_glob_on_non_dir {| name := "a"; isdir := false |} "a/" 1);
    [reflexivity | discriminate | reflexivity].
Defined.

(** C7 (counterexample).  On the file [a] the directory-only glob [a//b/]
    raises the malformed-glob error instead of returning NoOpinion. *)
Lemma dir_only_glob_counterexample :
  isdir {| name := "a"; isdir := false |} = false
  /\ Py.last_char "a//b/" = Some "/"%char
  /\ path_matches_glob {| name := "a"; isdir := false |} "a//b/" 1
     <> Ret None.
Proof.
  split; [reflexivity|]. split; [reflexivity|]. vm_compute. discriminate.
Qed.

(** C9 (as amended).  When the glob, after the removal of its trailing
    separator and the truncation after its first [**], still has an empty
    component that is neither first nor last, the selector raises: the
    malformed-glob error, or the error of [re.compile] when the match regex
    itself does not compile.  No decision is returned. *)
Theorem inner_empty_component_raises (path : Path) (glob_str : string)
    (include : Z) (flag : bool) (g : string) :
  strip_trailing_sep glob_str = Ret (flag, g) ->
  has_inner_empty_component (truncate_after_doublestar g) = true ->
  path_matches_glob path glob_str include
  = (let* _ := Re.compile (glob_comp_re_source g) in
     Raise (GlobbingError ("Consecutive '/'s found in globbing string "
                           +:+ truncate_after_doublestar g))).
Proof.
  intros Hstrip Hempty. unfold path_matches_glob. rewrite Hstrip.
  cbn [bind]. destruct (Re.compile _) as [r1|e]; cbn [bind]; [|reflexivity].
  unfold _glob_get_prefix_regexs.
  unfold has_inner_empty_component in Hempty. now rewrite Hempty.
Qed.

Lemma inner_empty_component_raises_witness :
  path_matches_glob {| name := "a"; isdir := true |} "a//b" 1
  = Raise (GlobbingError "Consecutive '/'s found in globbing string a//b").
Proof.
  apply (inner_empty_component_raises
           {| name := "a"; isdir := true |} "a//b" 1 false "a//b");
    reflexivity.
Defined.

(** C9 (counterexample).  The globs [a//] and [**//b] have an empty
    component that is neither first nor last, and the selector returns a
    decision for them. *)
Lemma inner_empty_component_counterexample :
  has_inner_empty_component "a//" = true
  /\ path_matches_glob {| name := "a"; isdir := true |} "a//" 1
     = Ret (Some 2%Z)
  /\ has_inner_empty_component "**//b" = true
  /\ path_matches_glob {| name := "a"; isdir := true |} "**//b" 1
     = Ret (Some 2%Z).
Proof. repeat split; reflexivity. Qed.

End GlobmatchProps.

(** * Properties of lazy.py *)

Module LazyProps.
Import Lazy LazyInv.

(** ** [IterMultiplex2] *)

Section Multiplex2.

Context {A : Type}.
Implicit Types (s : forks2 A) (src ya yb : list A).

Lemma yielda_core src ya yb m :
  mux2_core src ya yb m ->
  match yielda m with
  | (Item x, m') => mux2_core src (ya ++ [x]) yb m'
  | (Stop, m') => m' = m /\ ya = src
  | (Fail _, _) => False
  end.
Proof.
  intros (pulled & Hsrc & Hcase). destruct m as [lead buf it].
  unfold yielda; simpl in *.
  destruct (Z.geb_spec lead 0) as [Hge|Hlt].
  - assert (Hya : ya = pulled /\ pulled = yb ++ buf
                  /\ lead = Z.of_nat (length buf)).
    { destruct Hcase as [(_ & H1 & H2 & H3)|(H0 & H1 & H2 & H3)]; [auto|].
      assert (Hbuf : buf = [])
        by (destruct buf; [reflexivity|simpl in H3; lia]).
      subst buf. rewrite app_nil_r in *. simpl in *.
      repeat split; [congruence|congruence|lia]. }
    destruct Hya as (-> & Hp & Hlen).
    destruct it as [|x it].
    + split; [reflexivity|]. now rewrite app_nil_r in Hsrc.
    + exists (pulled ++ [x]). simpl. split; [now rewrite <- app_assoc|].
      left. rewrite length_app. simpl. repeat split; try lia.
      rewrite Hp at 1. now rewrite <- app_assoc.
  - destruct Hcase as [(H0 & _)|(H0 & H1 & H2 & H3)]; [lia|].
    destruct buf as [|x buf]; [simpl in H3; lia|].
    exists pulled. simpl in *. split; [assumption|]. right.
    repeat split; try lia; auto. now rewrite <- app_assoc.
Qed.

Lemma yieldb_core src ya yb m :
  mux2_core src ya yb m ->
  match yieldb m with
  | (Item x, m') => mux2_core src ya (yb ++ [x]) m'
  | (Stop, m') => m' = m /\ yb = src
  | (Fail _, _) => False
  end.
Proof.
  intros (pulled & Hsrc & Hcase). destruct m as [lead buf it].
  unfold yieldb; simpl in *.
  destruct (Z.leb_spec lead 0) as [Hle|Hgt].
  - assert (Hyb : yb = pulled /\ pulled = ya ++ buf
                  /\ (- lead)%Z = Z.of_nat (length buf)).
    { destruct Hcase as [(H0 & H1 & H2 & H3)|(_ & H1 & H2 & H3)]; [|auto].
      assert (Hbuf : buf = [])
        by (destruct buf; [reflexivity|simpl in H3; lia]).
      subst buf. rewrite app_nil_r in *. simpl in *.
      repeat split; [congruence|congruence|lia]. }
    destruct Hyb as (-> & Hp & Hlen).
    destruct it as [|x it].
    + split; [reflexivity|]. now rewrite app_nil_r in Hsrc.
    + exists (pulled ++ [x]). simpl. split; [now rewrite <- app_assoc|].
      right. rewrite length_app. simpl. repeat split; try lia.
      rewrite Hp at 1. now rewrite <- app_assoc.
  - destruct Hcase as [(H0 & H1 & H2 & H3)|(H0 & _)]; [|lia].
    destruct buf as [|x buf]; [simpl in H3; lia|].
    exists pulled. simpl in *. split; [assumption|]. left.
    repeat split; try lia; auto. now rewrite <- app_assoc.
Qed.

Lemma mux2_core_init src :
  mux2_core src [] [] (IterMultiplex2_init src).
Proof.
  exists []. split; [reflexivity|]. left. simpl. repeat split; lia.
Qed.

Lemma mux2_core_buffer src ya yb m :
  mux2_core src ya yb m ->
  Z.of_nat (length (buffer m))
  = Z.abs (Z.of_nat (length ya) - Z.of_nat (length yb)).
Proof.
  intros (pulled & _ & [(H0 & -> & Hp & Hl)|(H0 & -> & Hp & Hl)]);
    rewrite Hp, length_app; lia.
Qed.

Lemma yields2_cons f g (r : pulled A) tr :
  yields2 f ((g, r) :: tr) = yielded f g r ++ yields2 f tr.
Proof. destruct r; simpl; [destruct (fork2_eqb f g)|..]; reflexivity. Qed.

Lemma next2_inv src ya yb s f :
  mux2_inv src ya yb s ->
  mux2_inv src (ya ++ yielded ForkA f (next2 f s).1)
               (yb ++ yielded ForkB f (next2 f s).1) (next2 f s).2
  /\ (at_end (next2 f s).1 = true -> fork_finished f (next2 f s).2 = true)
  /\ (forall g, fork_finished g s = true ->
                fork_finished g (next2 f s).2 = true).
Proof.
  intros (Hcore & Ha & Hb). destruct s as [m fa fb]. simpl in *.
  destruct f; unfold next2; simpl.
  - destruct fa; simpl.
    { rewrite !app_nil_r. split; [|split]; auto. split; auto. }
    pose proof (yielda_core _ _ _ _ Hcore) as H.
    destruct (yielda m) as [[x| |e] m']; simpl; [| |contradiction].
    + rewrite app_nil_r. split; [|split].
      * split; [assumption|]. split; [discriminate|assumption].
      * discriminate.
      * intros []; simpl; auto.
    + destruct H as [-> ->]. rewrite !app_nil_r. split; [|split].
      * split; [assumption|]. split; auto.
      * reflexivity.
      * intros []; simpl; auto.
  - destruct fb; simpl.
    { rewrite !app_nil_r. split; [|split]; auto. split; auto. }
    pose proof (yieldb_core _ _ _ _ Hcore) as H.
    destruct (yieldb m) as [[x| |e] m']; simpl; [| |contradiction].
    + rewrite app_nil_r. split; [|split].
      * split; [assumption|]. split; [assumption|discriminate].
      * discriminate.
      * intros []; simpl; auto.
    + destruct H as [-> ->]. rewrite !app_nil_r. split; [|split].
      * split; [assumption|]. split; auto.
      * reflexivity.
      * intros []; simpl; auto.
Qed.

Lemma drained2_cons f g (r : pulled A) tr :
  drained2 f ((g, r) :: tr) = true ->
  (at_end r = true /\ f = g) \/ drained2 f tr = true.
Proof.
  cbn [drained2]. destruct (at_end r); auto. intros H.
  apply orb_true_iff in H as [H|H]; auto.
  left. split; [reflexivity|]. now destruct f, g.
Qed.

Lemma run2_inv src (sched : list fork2) :
  forall ya yb s,
    mux2_inv src ya yb s ->
    mux2_inv src (ya ++ yields2 ForkA (run2 sched s).1)
                 (yb ++ yields2 ForkB (run2 sched s).1) (run2 sched s).2
    /\ (forall g, drained2 g (run2 sched s).1 = true
                  \/ fork_finished g s = true ->
                  fork_finished g (run2 sched s).2 = true).
Proof.
  induction sched as [|f sched IH]; intros ya yb s Hinv.
  - simpl. rewrite !app_nil_r. split; [assumption|].
    intros g [H|H]; [discriminate|assumption].
  - cbn [run2]. destruct (next2_inv src ya yb s f Hinv) as (H1 & H2 & H3).
    destruct (next2 f s) as [r s1]. cbn [fst snd] in *.
    specialize (IH _ _ s1 H1) as [IH1 IH2].
    destruct (run2 sched s1) as [tr s2]. cbn [fst snd] in *.
    rewrite !yields2_cons, !app_assoc. split; [assumption|].
    intros g [H|H].
    + apply drained2_cons in H as [[Hr ->]|H]; auto.
    + auto.
Qed.

(** C5.  A source forked in two by [IterMultiplex2]: whatever the
    interleaving of the requests, once both forks have met the end of the
    iteration each has received the source, in order; and after every part
    of the interleaving the buffer is as long as the distance between the
    numbers of elements the two forks have received, so is bounded by it. *)
Theorem multiplex2_forks (src : list A) (sched : list fork2) :
  drained2 ForkA (run2 sched (forks2_init src)).1 = true ->
  drained2 ForkB (run2 sched (forks2_init src)).1 = true ->
  yields2 ForkA (run2 sched (forks2_init src)).1 = src
  /\ yields2 ForkB (run2 sched (forks2_init src)).1 = src
  /\ forall sched1 sched2,
       sched = sched1 ++ sched2 ->
       (Z.of_nat (length (buffer (im2 (run2 sched1 (forks2_init src)).2)))
        <= Z.abs
             (Z.of_nat
                (length (yields2 ForkA (run2 sched1 (forks2_init src)).1))
              - Z.of_nat
                  (length (yields2 ForkB (run2 sched1 (forks2_init src)).1))))%Z.
Proof.
  assert (Hinit : mux2_inv src [] [] (forks2_init src)).
  { split; [apply mux2_core_init|split; discriminate]. }
  intros Ha Hb.
  destruct (run2_inv src sched [] [] _ Hinit) as ((_ & Hfa & Hfb) & Hfin).
  simpl in *. split; [|split].
  - apply Hfa. apply (Hfin ForkA). auto.
  - apply Hfb. apply (Hfin ForkB). auto.
  - intros sched1 sched2 _.
    destruct (run2_inv src sched1 [] [] _ Hinit) as ((Hcore & _) & _).
    simpl in Hcore. apply mux2_core_buffer in Hcore. lia.
Qed.

End Multiplex2.

Lemma multiplex2_forks_witness :
  yields2 ForkA
    (run2 [ForkA; ForkA; ForkB; ForkA; ForkB; ForkB] (forks2_init [1%nat; 2%nat])).1
  = [1%nat; 2%nat]
  /\ yields2 ForkB
       (run2 [ForkA; ForkA; ForkB; ForkA; ForkB; ForkB] (forks2_init [1%nat; 2%nat])).1
     = [1%nat; 2%nat]
  /\ forall sched1 sched2,
       [ForkA; ForkA; ForkB; ForkA; ForkB; ForkB] = sched1 ++ sched2 ->
       (Z.of_nat (length (buffer (im2 (run2 sched1 (forks2_init [1%nat; 2%nat])).2)))
        <= Z.abs
             (Z.of_nat
                (length (yields2 ForkA (run2 sched1 (forks2_init [1%nat; 2%nat])).1))
              - Z.of_nat
                  (length (yields2 ForkB (run2 sched1 (forks2_init [1%nat; 2%nat])).1))))%Z.
Proof.
  apply (multiplex2_forks [1%nat; 2%nat]
           [ForkA; ForkA; ForkB; ForkA; ForkB; ForkB]); reflexivity.
Defined.

(** ** [Iter.multiplex] *)

Section Multiplex.

Context {A : Type}.

Lemma closing_calls_app (l1 l2 : list (mux_event A)) :
  closing_calls (l1 ++ l2) = closing_calls l1 + closing_calls l2.
Proof. unfold closing_calls. now rewrite List.filter_app, length_app. Qed.

Lemma take_closing_calls (fork_num : nat) (m : multiplex_state A) :
  closing_calls (mx_log (take fork_num m).2) = closing_calls (mx_log m).
Proof.
  unfold take. destruct (forkposition m !! fork_num) as [pos|]; [|reflexivity].
  destruct (py_nth (mx_buffer m) pos) as [v|]; [|reflexivity].
  destruct (negb (Z_mem _ _)); [|reflexivity].
  destruct (negb (_ =? _)%Z); [reflexivity|].
  destruct (py_nth (mx_buffer m) _) as [x|]; [|reflexivity].
  cbn [snd mx_log]. rewrite closing_calls_app. cbn. lia.
Qed.

(** One request.  While the flag [called_closing_func] is unset,
    [get_next] calls [closing_func] exactly when it finds the source at its
    end with nothing buffered for any fork: every fork position is where it
    started.  Such a call raises [StopIteration]. *)
Lemma get_next_closing_func (fork_num : nat) (m : multiplex_state A) :
  called_closing_func m = false ->
  closing_calls (mx_log (get_next fork_num m).2)
  = closing_calls (mx_log m)
    + (if meets_exhaustion fork_num m && all_forks_caught_up m
       then 1 else 0)
  /\ (meets_exhaustion fork_num m = true -> (get_next fork_num m).1 = Stop).
Proof.
  intros Hflag. unfold get_next, meets_exhaustion, all_forks_caught_up.
  destruct (forkposition m !! fork_num) as [pos|] eqn:Hpos;
    [|split; [cbn; lia|discriminate]].
  destruct (pos =? -1)%Z eqn:Hm1.
  - unfold refill. destruct (mx_iter m) as [|x rest] eqn:Hit.
    + rewrite Hflag, andb_true_r.
      destruct (Z_list_eqb _ _); cbn [fst snd mx_log andb].
      * rewrite closing_calls_app. split; reflexivity.
      * split; [lia|reflexivity].
    + rewrite take_closing_calls. cbn [mx_log andb].
      split; [lia|discriminate].
  - rewrite take_closing_calls.
    destruct (mx_iter m); cbn [andb]; split; (lia || discriminate).
Qed.


(** ** Runs of the forks of [Iter.multiplex] *)

Lemma Z_list_eqb_eq (a b : list Z) : Z_list_eqb a b = true <-> a = b.
Proof.
  revert b. induction a as [|x a IH]; intros [|y b]; cbn;
    try (split; [discriminate|congruence]); [tauto|].
  rewrite andb_true_iff, Z.eqb_eq, IH. split; [intros []|intros [=]]; subst; auto.
Qed.

Lemma Z_mem_elem_of (x : Z) (l : list Z) : Z_mem x l = true <-> x ∈ l.
Proof.
  unfold Z_mem. rewrite existsb_exists. split.
  - intros (y & Hin & ->%Z.eqb_eq). now apply list_elem_of_In.
  - intros Hin. exists x. split; [now apply list_elem_of_In|apply Z.eqb_refl].
Qed.

Lemma py_nth_nonneg {B} (l : list B) (i : Z) :
  (0 <= i)%Z -> py_nth l i = l !! Z.to_nat i.
Proof.
  intros Hi. unfold py_nth. destruct (Z.ltb_spec i 0); [lia|reflexivity].
Qed.

Lemma refill_item (source : list A) (cs : list nat) (m : multiplex_state A)
    (x : A) (rest : list A) :
  mux_inv source cs m -> mx_iter m = x :: rest ->
  (refill m).1 = Item tt
  /\ mux_inv source cs (refill m).2
  /\ pulled_count source (refill m).2 = S (pulled_count source m)
  /\ mx_finished (refill m).2 = mx_finished m
  /\ mx_log (refill m).2 = mx_log m.
Proof.
  intros [Hst Hfl Hfin Hit Hfp Hle Hbuf] Hx.
  unfold refill. rewrite Hx. cbn [fst snd].
  assert (HP : pulled_count source
                 {| mx_iter := rest; mx_buffer := x :: mx_buffer m;
                    starting_forkposition := starting_forkposition m;
                    forkposition := map (fun p => (p + 1)%Z) (forkposition m);
                    called_closing_func := called_closing_func m;
                    mx_finished := mx_finished m; mx_log := mx_log m |}
               = S (pulled_count source m)).
  { unfold pulled_count. cbn. rewrite Hx in *. cbn in *. lia. }
  split; [reflexivity|]. split; [|auto].
  split; cbn [starting_forkposition called_closing_func mx_finished mx_iter
              forkposition mx_buffer]; auto.
  - rewrite Hx in Hit. cbn in Hit. lia.
  - rewrite HP, Hfp, <- list_fmap_compose. apply list_fmap_ext.
    intros i c _. unfold pos_of. cbn. lia.
  - rewrite HP. eapply Forall_impl; [exact Hle|]. cbn. intros; lia.
  - destruct Hbuf as [->|(cmin & Hin & Hall & Hlen)]; [now left|right].
    exists cmin. rewrite HP. cbn. repeat split; auto; lia.
Qed.

Lemma length_removelast' {B} (l : list B) :
  length (removelast l) = pred (length l).
Proof. rewrite removelast_firstn_len, length_take. lia. Qed.

Lemma take_item (source : list A) (cs : list nat) (m : multiplex_state A)
    (k c : nat) :
  mux_inv source cs m -> cs !! k = Some c -> c < pulled_count source m ->
  (exists x, (take k m).1 = Item x)
  /\ mux_inv source (<[k := S c]> cs) (take k m).2
  /\ mx_finished (take k m).2 = mx_finished m.
Proof.
  intros [Hst Hfl Hfin Hit Hfp Hle Hbuf] Hk Hlt.
  destruct Hbuf as [->|(cmin & Hin & Hall & Hlen)]; [discriminate|].
  assert (Hck : cmin <= c) by exact (Forall_lookup_1 _ _ _ _ Hall Hk).
  assert (Hkn : k < length cs) by (apply lookup_lt_is_Some; eauto).
  set (P := pulled_count source m) in *.
  assert (Hpos : forkposition m !! k = Some (pos_of P c)).
  { rewrite Hfp. change (map ?f ?l) with (f <$> l).
    now rewrite list_lookup_fmap, Hk. }
  assert (Hnn : (0 <= pos_of P c)%Z) by (unfold pos_of; lia).
  destruct (lookup_lt_is_Some_2 (mx_buffer m) (Z.to_nat (pos_of P c)))
    as [v Hv]; [unfold pos_of; lia|].
  assert (Hfp' : <[k := (pos_of P c - 1)%Z]> (forkposition m)
                 = map (pos_of P) (<[k := S c]> cs)).
  { rewrite Hfp. change (map ?f ?l) with (f <$> l).
    rewrite list_fmap_insert. f_equal. unfold pos_of. lia. }
  assert (Hlast : (Z.of_nat (length (mx_buffer m)) - 1 = pos_of P cmin)%Z)
    by (unfold pos_of; lia).
  assert (Hinj : forall a b, pos_of P a = pos_of P b -> a = b)
    by (unfold pos_of; intros; lia).
  unfold take. rewrite Hpos, py_nth_nonneg, Hv by assumption. cbv zeta.
  rewrite Hfp', Hlast.
  destruct (Z_mem (pos_of P cmin) (map (pos_of P) (<[k := S c]> cs)))
    eqn:Hmem; cbn [negb fst snd].
  - split; [eauto|]. split; [|reflexivity].
    apply Z_mem_elem_of, list_elem_of_fmap in Hmem.
    destruct Hmem as (c' & Hc' & Hin'). apply Hinj in Hc'. subst c'.
    split; cbn [starting_forkposition called_closing_func mx_finished mx_iter
                forkposition mx_buffer]; rewrite ?length_insert; auto.
    + apply Forall_insert; [exact Hle|]. change (S c <= P). lia.
    + right. exists cmin. split; [exact Hin'|]. split; [|exact Hlen].
      apply Forall_insert; [exact Hall|lia].
  - assert (Hnot : forall j y, <[k := S c]> cs !! j = Some y -> y <> cmin).
    { intros j y Hj ->.
      assert (Z_mem (pos_of P cmin) (map (pos_of P) (<[k := S c]> cs)) = true)
        as Habs; [|congruence].
      apply Z_mem_elem_of, list_elem_of_fmap. exists cmin.
      split; [reflexivity|]. eapply list_elem_of_lookup_2; eauto. }
    assert (c = cmin) as ->.
    { apply list_elem_of_lookup_1 in Hin. destruct Hin as [j Hj].
      destruct (decide (k = j)) as [->|Hne]; [congruence|].
      exfalso. apply (Hnot j cmin); [|reflexivity].
      now rewrite list_lookup_insert_ne. }
    replace (pos_of P cmin - 1 =? Z.of_nat (length (mx_buffer m)) - 2)%Z
      with true by (symmetry; apply Z.eqb_eq; lia).
    cbn [negb].
    destruct (lookup_lt_is_Some_2 (mx_buffer m) (Z.to_nat (pos_of P cmin)))
      as [lst Hlst]; [unfold pos_of; lia|].
    rewrite py_nth_nonneg, Hlst by assumption. cbn [fst snd].
    split; [eauto|]. split; [|reflexivity].
    split; cbn [starting_forkposition called_closing_func mx_finished mx_iter
                forkposition mx_buffer]; rewrite ?length_insert; auto.
    + apply Forall_insert; [exact Hle|]. change (S cmin <= P). lia.
    + right. exists (S cmin). split; [|split].
      * eapply list_elem_of_lookup_2. now apply list_lookup_insert_eq.
      * apply Forall_lookup_2. intros j y Hj.
        pose proof (Hnot j y Hj).
        apply list_lookup_insert_Some in Hj.
        destruct Hj as [(_ & <- & _)|(_ & Hj)]; [lia|].
        pose proof (Forall_lookup_1 _ _ _ _ Hall Hj). cbn in *. lia.
      * rewrite length_removelast'. change (pulled_count _ _) with P. lia.
Qed.

Lemma caught_up_iff (P : nat) (cs : list nat) :
  Z_list_eqb (map (pos_of P) cs) (repeat (-1)%Z (length cs))
  = forallb (fun c => Nat.eqb c P) cs.
Proof.
  induction cs as [|c cs IH]; [reflexivity|].
  cbn. rewrite IH. f_equal. unfold pos_of.
  destruct (Nat.eqb_spec c P), (Z.eqb_spec (Z.of_nat P - Z.of_nat c - 1) (-1));
    (reflexivity || lia).
Qed.

Lemma get_next_item (source : list A) (cs : list nat) (m : multiplex_state A)
    (k c : nat) :
  mux_inv source cs m -> cs !! k = Some c -> c < length source ->
  (exists x, (get_next k m).1 = Item x)
  /\ mux_inv source (<[k := S c]> cs) (get_next k m).2
  /\ mx_finished (get_next k m).2 = mx_finished m
  /\ closing_calls (mx_log (get_next k m).2) = closing_calls (mx_log m).
Proof.
  intros Hinv Hk Hc. pose proof Hinv as [Hst Hfl Hfin Hit Hfp Hle Hbuf].
  pose proof (Forall_lookup_1 _ _ _ _ Hle Hk) as HcP. cbn in HcP.
  unfold get_next. rewrite Hfp. change (map ?f ?l) with (f <$> l).
  rewrite list_lookup_fmap, Hk. cbn [fmap option_fmap option_map].
  destruct (Z.eqb_spec (pos_of (pulled_count source m) c) (-1)) as [He|Hne].
  - assert (c = pulled_count source m) as -> by (unfold pos_of in He; lia).
    destruct (mx_iter m) as [|x rest] eqn:Hx.
    { unfold pulled_count in Hc. rewrite Hx in Hc. cbn in Hc. lia. }
    destruct (refill_item source cs m x rest Hinv Hx)
      as (Hr & Hinv1 & HP1 & Hfin1 & Hlog1).
    destruct (refill m) as [r m1]. cbn [fst snd] in *. subst r.
    destruct (take_item source cs m1 k _ Hinv1 Hk) as (Hx' & Hinv2 & Hfin2);
      [lia|].
    rewrite take_closing_calls, Hfin2, Hfin1, Hlog1. auto.
  - destruct (take_item source cs m k c Hinv Hk) as (Hx' & Hinv2 & Hfin2);
      [unfold pos_of in Hne; lia|].
    rewrite take_closing_calls, Hfin2. auto.
Qed.

Lemma get_next_stop (source : list A) (cs : list nat) (m : multiplex_state A)
    (k : nat) :
  mux_inv source cs m -> cs !! k = Some (length source) ->
  (get_next k m).1 = Stop
  /\ mux_inv source cs (get_next k m).2
  /\ mx_finished (get_next k m).2 = mx_finished m
  /\ closing_calls (mx_log (get_next k m).2)
     = closing_calls (mx_log m)
       + (if forallb (fun c => Nat.eqb c (length source)) cs then 1 else 0).
Proof.
  intros Hinv Hk. pose proof Hinv as [Hst Hfl Hfin Hit Hfp Hle Hbuf].
  pose proof (Forall_lookup_1 _ _ _ _ Hle Hk) as HcP. cbn in HcP.
  assert (HP : pulled_count source m = length source)
    by (unfold pulled_count in *; lia).
  assert (Hnil : mx_iter m = []).
  { unfold pulled_count in HP. destruct (mx_iter m); [reflexivity|].
    cbn in *. destruct source; cbn in *; [lia|lia]. }
  unfold get_next. rewrite Hfp. change (map ?f ?l) with (f <$> l).
  rewrite list_lookup_fmap, Hk. cbn [fmap option_fmap option_map].
  replace (pos_of (pulled_count source m) (length source) =? -1)%Z with true
    by (symmetry; apply Z.eqb_eq; unfold pos_of; lia).
  assert (Hcu : Z_list_eqb (forkposition m) (starting_forkposition m)
                = forallb (fun c => Nat.eqb c (length source)) cs)
    by (rewrite Hfp, Hst, caught_up_iff, HP; reflexivity).
  unfold refill. rewrite Hnil, Hfl, andb_true_r, Hcu.
  destruct (forallb _ cs); cbn [fst snd].
  - split; [reflexivity|]. split; [|split; [reflexivity|]].
    + assert (HP' : forall m', mx_iter m' = [] ->
                      pulled_count source m' = pulled_count source m)
        by (unfold pulled_count; intros ? ->; now rewrite Hnil).
      split; cbn; rewrite ?HP' by reflexivity; auto. now rewrite Hnil in Hit.
    + cbn [mx_log]. now rewrite closing_calls_app.
  - repeat split; auto.
Qed.

Lemma yields_snoc (j k : nat) (r : pulled A) (tr : list (nat * pulled A)) :
  yields j (tr ++ [(k, r)])
  = yields j tr
    ++ match r with
       | Item x => if Nat.eqb j k then [x] else []
       | _ => []
       end.
Proof.
  induction tr as [|[i [y| |e]] tr IH]; cbn [app yields].
  - destruct r; [destruct (Nat.eqb j k)|..]; reflexivity.
  - rewrite IH. now destruct (Nat.eqb j i).
  - exact IH.
  - exact IH.
Qed.

Lemma drained_snoc (j k : nat) (r : pulled A) (tr : list (nat * pulled A)) :
  drained j (tr ++ [(k, r)]) = drained j tr || (at_end r && Nat.eqb j k).
Proof.
  induction tr as [|[i r'] tr IH]; cbn [app drained].
  - destruct (at_end r); cbn; rewrite ?orb_false_r; reflexivity.
  - rewrite IH. destruct (at_end r'); [now rewrite orb_assoc|reflexivity].
Qed.

Lemma consumed_of_length (n : nat) (tr : list (nat * pulled A)) :
  length (consumed_of n tr) = n.
Proof. unfold consumed_of. now rewrite length_map, length_seq. Qed.

Lemma consumed_of_lookup (n j : nat) (tr : list (nat * pulled A)) :
  j < n -> consumed_of n tr !! j = Some (length (yields j tr)).
Proof.
  intros Hj. unfold consumed_of. change (map ?f ?l) with (f <$> l).
  now rewrite list_lookup_fmap, lookup_seq_lt.
Qed.

Lemma consumed_of_snoc_item (n k : nat) (x : A) (tr : list (nat * pulled A)) :
  consumed_of n (tr ++ [(k, Item x)])
  = <[k := S (length (yields k tr))]> (consumed_of n tr).
Proof.
  apply list_eq. intros j.
  destruct (decide (j < n)) as [Hj|Hj].
  - rewrite consumed_of_lookup, yields_snoc, length_app by assumption.
    destruct (Nat.eqb_spec j k) as [->|Hne].
    + rewrite list_lookup_insert_eq by (now rewrite consumed_of_length).
      cbn. f_equal. lia.
    + rewrite list_lookup_insert_ne, consumed_of_lookup by auto.
      cbn. f_equal. lia.
  - rewrite !(lookup_ge_None_2 _ j);
      rewrite ?length_insert, ?consumed_of_length; (reflexivity || lia).
Qed.

Lemma consumed_of_snoc_other (n k : nat) (r : pulled A)
    (tr : list (nat * pulled A)) :
  is_item r = false -> consumed_of n (tr ++ [(k, r)]) = consumed_of n tr.
Proof.
  intros Hr. unfold consumed_of. apply map_ext. intros j.
  rewrite yields_snoc. destruct r; [discriminate|..]; now rewrite app_nil_r.
Qed.

Lemma all_received_consumed (source : list A) (n : nat)
    (tr : list (nat * pulled A)) :
  forallb (fun c => Nat.eqb c (length source)) (consumed_of n tr)
  = all_received source n tr.
Proof.
  unfold all_received, consumed_of.
  induction (seq 0 n) as [|j l IH]; [reflexivity|]. cbn. now rewrite IH.
Qed.

Lemma all_received_lookup (source : list A) (n k : nat)
    (tr : list (nat * pulled A)) :
  all_received source n tr = true -> k < n ->
  length (yields k tr) = length source.
Proof.
  unfold all_received. rewrite forallb_forall. intros H Hk.
  apply Nat.eqb_eq, H, in_seq. lia.
Qed.

Lemma run_forks_snoc (sched : list nat) (k : nat) (m : multiplex_state A) :
  run_forks (sched ++ [k]) m
  = ((run_forks sched m).1
       ++ [(k, (fork_next k (run_forks sched m).2).1)],
     (fork_next k (run_forks sched m).2).2).
Proof.
  revert m. induction sched as [|f sched IH]; intros m; cbn [app run_forks].
  - cbn [fst snd app]. now destruct (fork_next k m).
  - destruct (fork_next f m) as [r m1]. rewrite IH.
    now destruct (run_forks sched m1).
Qed.

Lemma repeat_lookup {B} (x : B) (n j : nat) :
  j < n -> repeat x n !! j = Some x.
Proof.
  revert j. induction n as [|n IH]; intros [|j] Hj; cbn; try lia; auto.
  apply IH. lia.
Qed.

Lemma reached_init (source : list A) (n : nat) :
  reached source n [] (multiplex source n).
Proof.
  assert (Hc : consumed_of n (@nil (nat * pulled A)) = repeat 0 n).
  { unfold consumed_of. cbn [yields length].
    assert (H : forall s, map (fun _ : nat => 0) (seq s n) = repeat 0 n);
      [|apply H].
    induction n as [|n IH]; intros s; cbn; [reflexivity|]. now rewrite IH. }
  assert (HP : pulled_count source (multiplex source n) = 0)
    by (unfold pulled_count; cbn; lia).
  split.
  - split; rewrite ?HP, ?Hc; cbn; rewrite ?repeat_length; auto.
    + clear. induction n; cbn; [reflexivity|]. now f_equal.
    + apply List.Forall_forall. now intros c ->%repeat_spec.
    + destruct n; [now left|right]. exists 0. cbn.
      split; [apply list_elem_of_here|]. split; [|reflexivity].
      apply List.Forall_forall. intros; lia.
  - intros j Hj. cbn. now apply repeat_lookup.
Qed.

Lemma fork_next_reached (source : list A) (n : nat)
    (tr : list (nat * pulled A)) (m : multiplex_state A) (k : nat) :
  reached source n tr m ->
  reached source n (tr ++ [(k, (fork_next k m).1)]) (fork_next k m).2
  /\ closing_calls (mx_log (fork_next k m).2)
     = closing_calls (mx_log m)
       + (if Nat.ltb k n && negb (drained k tr) && all_received source n tr
          then 1 else 0)
  /\ (Nat.ltb k n && negb (drained k tr) && all_received source n tr = true ->
      (fork_next k m).1 = Fail RuntimeError).
Proof.
  intros [Hinv Hfin]. pose proof (mi_fin _ _ _ Hinv) as Hlen.
  rewrite consumed_of_length in Hlen. unfold fork_next.
  destruct (Nat.ltb_spec k n) as [Hk|Hk]; cbn [andb].
  2: { rewrite lookup_ge_None_2 by lia. cbn [fst snd].
       split; [|split; [lia|discriminate]].
       split; [rewrite consumed_of_snoc_other by reflexivity; exact Hinv|].
       intros j Hj. rewrite drained_snoc. cbn. rewrite orb_false_r. auto. }
  rewrite (Hfin k Hk). destruct (drained k tr) eqn:Hd; cbn [negb andb].
  - cbn [fst snd]. split; [|split; [lia|discriminate]].
    split; [rewrite consumed_of_snoc_other by reflexivity; exact Hinv|].
    intros j Hj. rewrite drained_snoc, (Hfin j Hj).
    destruct (Nat.eqb_spec j k) as [->|];
      [rewrite Hd|rewrite orb_false_r]; reflexivity.
  - pose proof (consumed_of_lookup n k tr Hk) as Hck.
    pose proof (Forall_lookup_1 _ _ _ _ (mi_le _ _ _ Hinv) Hck) as Hle.
    cbn in Hle.
    assert (HP : pulled_count source m <= length source)
      by (unfold pulled_count; lia).
    destruct (decide (length (yields k tr) < length source)) as [Hlt|Hge].
    + destruct (get_next_item source _ m k _ Hinv Hck Hlt)
        as ((x & Hx) & Hinv' & Hfin' & Hcc).
      destruct (get_next k m) as [r m1]. cbn [fst snd] in *. subst r.
      cbn [is_item fst snd].
      replace (all_received source n tr) with false.
      2: { symmetry. apply not_true_is_false. intros Hall.
           apply all_received_lookup with (k := k) in Hall; lia. }
      split; [|split; [lia|discriminate]].
      split; [rewrite consumed_of_snoc_item; exact Hinv'|].
      intros j Hj. rewrite drained_snoc, Hfin'. cbn. rewrite orb_false_r. auto.
    + assert (length (yields k tr) = length source) as Heq by lia.
      rewrite Heq in Hck.
      destruct (get_next_stop source _ m k Hinv Hck)
        as (Hr & Hinv' & Hfin' & Hcc).
      rewrite all_received_consumed in Hcc.
      destruct (get_next k m) as [r m1]. cbn [fst snd] in *. subst r.
      cbn [is_item fst snd mx_log].
      split; [|split; [exact Hcc|reflexivity]].
      split.
      * rewrite consumed_of_snoc_other by reflexivity.
        destruct Hinv'. split; cbn; rewrite ?length_insert; auto.
      * intros j Hj. cbn [mx_finished]. rewrite drained_snoc, Hfin'.
        destruct (Nat.eqb_spec j k) as [->|Hne].
        -- rewrite orb_true_r. apply list_lookup_insert_eq. lia.
        -- rewrite orb_false_r, list_lookup_insert_ne by auto. now apply Hfin.
Qed.

Lemma run_forks_reached (source : list A) (n : nat) (sched : list nat) :
  reached source n (run_forks sched (multiplex source n)).1
    (run_forks sched (multiplex source n)).2.
Proof.
  induction sched as [|k sched IH] using rev_ind; [apply reached_init|].
  rewrite run_forks_snoc. cbn [fst snd]. now apply fork_next_reached.
Qed.

(** C2 (as amended).  After any run of the forks in which [closing_func]
    was not called yet, a request calls it exactly when it comes from a fork
    that has not met the end of the iteration before and every fork has
    received as many elements as the source holds: at once for an empty
    source, and at the end of the stream otherwise.  Such a request raises
    [RuntimeError]: the [StopIteration] that [get_next] raises after the
    call leaves the generator of [make_iterator]. *)
Theorem closing_func_at_exhaustion (source : list A) (n : nat)
    (sched : list nat) (tr : list (nat * pulled A)) (m : multiplex_state A)
    (k : nat) :
  run_forks sched (multiplex source n) = (tr, m) ->
  closing_calls (mx_log m) = 0 ->
  closing_calls (mx_log (fork_next k m).2)
  = (if Nat.ltb k n && negb (drained k tr) && all_received source n tr
     then 1 else 0)
  /\ (Nat.ltb k n && negb (drained k tr) && all_received source n tr = true ->
      (fork_next k m).1 = Fail RuntimeError).
Proof.
  intros Hrun H0. pose proof (run_forks_reached source n sched) as Hr.
  rewrite Hrun in Hr. cbn [fst snd] in Hr.
  destruct (fork_next_reached source n tr m k Hr) as (_ & Hcc & Hstop).
  rewrite Hcc, H0. auto.
Qed.

End Multiplex.

Lemma closing_func_at_exhaustion_witness :
  closing_calls (mx_log (run_forks [0; 1] (multiplex [7] 2)).2) = 0
  /\ closing_calls
       (mx_log (fork_next 0 (run_forks [0; 1] (multiplex [7] 2)).2).2) = 1
  /\ (fork_next 0 (run_forks [0; 1] (multiplex [7] 2)).2).1
     = Fail RuntimeError.
Proof.
  split; [reflexivity|].
  destruct (closing_func_at_exhaustion [7] 2 [0; 1]
              (run_forks [0; 1] (multiplex [7] 2)).1
              (run_forks [0; 1] (multiplex [7] 2)).2
              0 eq_refl eq_refl) as [Hcalls Hstop].
  split; [exact Hcalls|exact (Hstop eq_refl)].
Defined.

(** C2 (counterexample).  On the source [7] with two forks, the third
    request (fork 0 again, after both forks have received the element) calls
    [closing_func] and gets [RuntimeError]; on an empty source the requests
    of fork 0 and of fork 1 call it once each, twice in all. *)
Lemma closing_func_counterexample :
  (run_forks [0; 1; 0] (multiplex [7] 2)).1
  = [(0, Item 7); (1, Item 7); (0, Fail RuntimeError)]
  /\ mx_log (run_forks [0; 1] (multiplex [7] 2)).2 = [FinalFunc 7]
  /\ mx_log (run_forks [0; 1; 0] (multiplex [7] 2)).2
     = [FinalFunc 7; ClosingFunc]
  /\ closing_calls (mx_log (run_forks [0; 1] (multiplex (@nil nat) 2)).2) = 2.
Proof. repeat split; reflexivity. Qed.


(** ** The order of indices *)

Lemma str_compare_refl (s : string) : String.compare s s = Eq.
Proof.
  induction s as [|c s IH]; [reflexivity|].
  simpl. unfold Ascii.compare. now rewrite N.compare_refl.
Qed.

Lemma str_compare_lt_trans (a b c : string) :
  String.compare a b = Lt -> String.compare b c = Lt ->
  String.compare a c = Lt.
Proof.
  intros H1 H2. apply String_as_OT.cmp_lt.
  apply String_as_OT.lt_trans with b; now apply String_as_OT.cmp_lt.
Qed.

Lemma index_compare_refl (a : Index) : index_compare a a = Eq.
Proof.
  induction a as [|x a IH]; [reflexivity|].
  simpl. now rewrite str_compare_refl.
Qed.

Lemma index_compare_eq (a : Index) :
  forall b, index_compare a b = Eq -> a = b.
Proof.
  induction a as [|x a IH]; intros [|y b] H; simpl in H;
    try discriminate; [reflexivity|].
  destruct (String.compare x y) eqn:Hxy; try discriminate.
  apply String.compare_eq_iff in Hxy. subst y. f_equal. now apply IH.
Qed.

Lemma index_compare_antisym (a : Index) :
  forall b, index_compare a b = CompOpp (index_compare b a).
Proof.
  induction a as [|x a IH]; intros [|y b]; simpl; try reflexivity.
  rewrite (String.compare_antisym x y).
  destruct (String.compare y x); simpl; auto.
Qed.

Lemma index_lt_trans (a : Index) :
  forall b c, index_compare a b = Lt -> index_compare b c = Lt ->
              index_compare a c = Lt.
Proof.
  induction a as [|x a IH]; intros [|y b] [|z c] H1 H2; simpl in *;
    try discriminate; try reflexivity.
  destruct (String.compare x y) eqn:Hxy; try discriminate.
  - apply String.compare_eq_iff in Hxy. subst y.
    destruct (String.compare x z); try discriminate; [|reflexivity].
    now apply IH with b.
  - destruct (String.compare y z) eqn:Hyz; try discriminate.
    + apply String.compare_eq_iff in Hyz. subst z. now rewrite Hxy.
    + now rewrite (str_compare_lt_trans x y z).
Qed.

Lemma index_lt_irrefl (a : Index) : index_lt a a = false.
Proof. unfold index_lt. now rewrite index_compare_refl. Qed.

Lemma index_le_refl (a : Index) : index_le a a = true.
Proof. unfold index_le. now rewrite index_compare_refl. Qed.

Lemma index_not_le_lt (a b : Index) :
  index_le a b = false -> index_lt b a = true.
Proof.
  unfold index_le, index_lt. rewrite (index_compare_antisym b a).
  now destruct (index_compare a b).
Qed.

Lemma index_lt_le (a b : Index) : index_lt a b = true -> index_le a b = true.
Proof. unfold index_le, index_lt. now destruct (index_compare a b). Qed.

Lemma index_lt_not_le (a b : Index) :
  index_lt a b = true -> index_le b a = false.
Proof.
  unfold index_le, index_lt. rewrite (index_compare_antisym b a).
  now destruct (index_compare a b).
Qed.

Lemma index_lt_lt (a b c : Index) :
  index_lt a b = true -> index_lt b c = true -> index_lt a c = true.
Proof.
  unfold index_lt. intros H1 H2.
  destruct (index_compare a b) eqn:Hab; try discriminate.
  destruct (index_compare b c) eqn:Hbc; try discriminate.
  now rewrite (index_lt_trans a b c).
Qed.

Lemma index_le_lt (a b c : Index) :
  index_le a b = true -> index_lt b c = true -> index_lt a c = true.
Proof.
  unfold index_le. intros H1 H2.
  destruct (index_compare a b) eqn:Hab; try discriminate.
  - apply index_compare_eq in Hab. now subst.
  - apply index_lt_lt with b; [|assumption]. unfold index_lt. now rewrite Hab.
Qed.

Lemma index_le_lt_le (a b c : Index) :
  index_le a b = true -> index_lt b c = true -> index_le a c = true.
Proof. intros H1 H2. apply index_lt_le. now apply index_le_lt with b. Qed.

Lemma index_eqb_eq (a : Index) : forall b, index_eqb a b = true <-> a = b.
Proof.
  induction a as [|x a IH]; intros [|y b]; simpl; split;
    try discriminate; try reflexivity.
  - intros H. apply andb_true_iff in H as [H1 H2].
    apply String.eqb_eq in H1. apply IH in H2. now subst.
  - intros [= -> ->]. rewrite String.eqb_refl. now apply IH.
Qed.

Lemma is_prefix_spec (p i : Index) :
  is_prefix p i = true <-> exists rest, i = p ++ rest.
Proof.
  unfold is_prefix. rewrite index_eqb_eq. split.
  - intros H. exists (skipn (length p) i).
    rewrite H at 1. now rewrite firstn_skipn.
  - intros [rest ->]. rewrite firstn_app, firstn_all, Nat.sub_diag.
    simpl. now rewrite app_nil_r.
Qed.

Lemma is_prefix_refl (p : Index) : is_prefix p p = true.
Proof. apply is_prefix_spec. exists []. now rewrite app_nil_r. Qed.

Lemma is_prefix_trans (a b c : Index) :
  is_prefix a b = true -> is_prefix b c = true -> is_prefix a c = true.
Proof.
  rewrite !is_prefix_spec. intros [r1 ->] [r2 ->].
  exists (r1 ++ r2). now rewrite app_assoc.
Qed.

Lemma is_prefix_antisym (a b : Index) :
  is_prefix a b = true -> is_prefix b a = true -> a = b.
Proof.
  rewrite !is_prefix_spec. intros [r1 ->] [r2 H].
  rewrite <- app_assoc in H.
  rewrite <- (app_nil_r a) in H at 1. apply app_inv_head in H.
  symmetry in H. apply app_eq_nil in H as [-> _]. now rewrite app_nil_r.
Qed.

Lemma is_prefix_le (p : Index) :
  forall i, is_prefix p i = true -> index_le p i = true.
Proof.
  intros i H. apply is_prefix_spec in H as [rest ->]. unfold index_le.
  induction p as [|x p IH]; simpl.
  - now destruct rest.
  - now rewrite str_compare_refl.
Qed.

(** The indices below a prefix form an interval of the order. *)
Lemma is_prefix_convex (p : Index) :
  forall x y,
    is_prefix p y = true -> index_le p x = true -> index_le x y = true ->
    is_prefix p x = true.
Proof.
  induction p as [|a p IH]; intros x y Hpy Hpx Hxy.
  - apply is_prefix_spec. now exists x.
  - apply is_prefix_spec in Hpy as [rest ->].
    destruct x as [|b x]; [discriminate|].
    unfold index_le in Hpx, Hxy. simpl in Hpx, Hxy.
    rewrite (String.compare_antisym b a) in Hxy.
    destruct (String.compare a b) eqn:Hab; simpl in Hpx, Hxy;
      try discriminate.
    apply String.compare_eq_iff in Hab. subst b.
    assert (Hx : is_prefix p x = true).
    { apply (IH x (p ++ rest)); [apply is_prefix_spec; eauto|assumption..]. }
    apply is_prefix_spec in Hx as [r ->]. apply is_prefix_spec. now exists r.
Qed.

(** ** Logs of events *)

Lemma count_app (f : event -> bool) (l1 l2 : list event) :
  count f (l1 ++ l2) = count f l1 + count f l2.
Proof.
  induction l1 as [|e l1 IH]; [reflexivity|]. simpl. rewrite IH. lia.
Qed.

Lemma count_elem_of (f : event -> bool) (tr : list event) (e : event) :
  e ∈ tr -> f e = true -> 0 < count f tr.
Proof.
  intros Hin Hf. apply list_elem_of_split in Hin as (l1 & l2 & ->).
  rewrite count_app. simpl. rewrite Hf. lia.
Qed.

Lemma count_pos (f : event -> bool) (tr : list event) :
  0 < count f tr -> exists e, e ∈ tr /\ f e = true.
Proof.
  induction tr as [|x tr IH]; simpl; [lia|].
  destruct (f x) eqn:Hx.
  - intros _. exists x. split; [apply elem_of_cons; auto|assumption].
  - intros H. destruct IH as (e & He & Hf); [lia|].
    exists e. split; [apply elem_of_cons; auto|assumption].
Qed.

Lemma count_zero (f : event -> bool) (tr : list event) (e : event) :
  count f tr = 0 -> f e = true -> e ∉ tr.
Proof.
  intros H0 Hf Hin. pose proof (count_elem_of f tr e Hin Hf). lia.
Qed.

Lemma count_two (f : event -> bool) (tr : list event) (x y : event) :
  x ∈ tr -> y ∈ tr -> x <> y -> f x = true -> f y = true ->
  2 <= count f tr.
Proof.
  intros Hx Hy Hne Hfx Hfy.
  apply list_elem_of_split in Hx as (l1 & l2 & ->).
  rewrite count_app. simpl. rewrite Hfx.
  apply elem_of_app in Hy as [Hy|Hy].
  - pose proof (count_elem_of f l1 y Hy Hfy). lia.
  - apply elem_of_cons in Hy as [Hy|Hy]; [congruence|].
    pose proof (count_elem_of f l2 y Hy Hfy). lia.
Qed.

Lemma start_unique (tr : list event) (b : nat) (i j : Index) :
  count (is_start b) tr <= 1 ->
  Ev_start_process b i ∈ tr -> Ev_start_process b j ∈ tr -> i = j.
Proof.
  intros Hc Hi Hj.
  destruct (decide (i = j)) as [|Hne]; [assumption|].
  assert (2 <= count (is_start b) tr); [|lia].
  apply (count_two _ _ (Ev_start_process b i) (Ev_start_process b j));
    auto; try (simpl; apply Nat.eqb_refl).
  congruence.
Qed.

(** Where an event stands in a log that has grown by one event. *)
Lemma decomp_snoc (e x : event) (tr l1 l2 : list event) :
  tr ++ [x] = l1 ++ e :: l2 ->
  (l2 = [] /\ x = e /\ l1 = tr)
  \/ (exists l2', l2 = l2' ++ [x] /\ tr = l1 ++ e :: l2').
Proof.
  destruct l2 as [|y l2 _] using rev_ind; intros H.
  - apply app_inj_tail in H as [-> ->]. auto.
  - right. exists l2. change (e :: l2 ++ [y]) with ((e :: l2) ++ [y]) in H.
    rewrite app_assoc in H. apply app_inj_tail in H as [-> ->]. auto.
Qed.

(** ** The invariant of the tree reducer *)

Lemma benign_not_elem_of (e : event) (evs : list event) :
  Forall benign evs -> structural e -> e ∉ evs.
Proof.
  intros Hall Hs Hin. rewrite Forall_forall in Hall.
  specialize (Hall e Hin). destruct e; contradiction.
Qed.

Lemma elem_of_app_benign (e : event) (tr evs : list event) :
  Forall benign evs -> structural e -> (e ∈ tr ++ evs <-> e ∈ tr).
Proof.
  intros Hall Hs. rewrite elem_of_app. split; [|auto].
  intros [H|H]; [assumption|]. now apply benign_not_elem_of in H.
Qed.

Lemma count_benign (f : event -> bool) (evs : list event) :
  Forall benign evs ->
  (forall e, f e = true -> structural e) ->
  count f evs = 0.
Proof.
  intros Hall Hf. induction Hall as [|e evs He _ IH]; [reflexivity|].
  simpl. rewrite IH. destruct (f e) eqn:Hfe; [|reflexivity].
  apply Hf in Hfe. destruct e; contradiction.
Qed.

Lemma is_start_structural b e : is_start b e = true -> structural e.
Proof. destruct e; simpl; auto; discriminate. Qed.

Lemma is_end_structural b e : is_end b e = true -> structural e.
Proof. destruct e; simpl; auto; discriminate. Qed.

Lemma is_merge_of_structural c e : is_merge_of c e = true -> structural e.
Proof. destruct e; simpl; auto; discriminate. Qed.

Lemma merge_order_snoc (tr : list event) (x : event) :
  merge_order tr ->
  (forall p c, x = Ev_branch_process p c ->
               Ev_end_process c ∈ tr /\ Ev_end_process p ∉ tr) ->
  merge_order (tr ++ [x]).
Proof.
  intros H Hx l1 l2 p c Heq.
  apply decomp_snoc in Heq as [(_ & -> & ->)|(l2' & _ & ->)]; eauto.
Qed.

Lemma anc_order_snoc (tr : list event) (x : event) :
  anc_order tr ->
  (forall q, x = Ev_end_process q ->
     forall c iq ic,
       Ev_start_process q iq ∈ tr -> Ev_start_process c ic ∈ tr -> q <> c ->
       is_prefix iq ic = true -> Ev_end_process c ∈ tr) ->
  (forall c ic, x = Ev_start_process c ic ->
     (Ev_end_process c ∉ tr)
     /\ forall q iq, Ev_start_process q iq ∈ tr -> q <> c ->
                     Ev_end_process q ∈ tr -> is_prefix iq ic = false) ->
  anc_order (tr ++ [x]).
Proof.
  intros H Hend Hstart q c iq ic l1 l2 Hq Hc Hne Hpre Heq.
  apply decomp_snoc in Heq as [(_ & -> & ->)|(l2' & _ & Htr)].
  - apply elem_of_app in Hq as [Hq|Hq];
      [|apply list_elem_of_singleton in Hq; discriminate].
    apply elem_of_app in Hc as [Hc|Hc];
      [|apply list_elem_of_singleton in Hc; discriminate].
    exact (Hend q eq_refl c iq ic Hq Hc Hne Hpre).
  - assert (Hqe : Ev_end_process q ∈ tr).
    { rewrite Htr. apply elem_of_app. right. apply elem_of_cons. auto. }
    apply elem_of_app in Hq as [Hq|Hq].
    + apply elem_of_app in Hc as [Hc|Hc];
        [exact (H q c iq ic l1 l2' Hq Hc Hne Hpre Htr)|].
      apply list_elem_of_singleton in Hc. subst x.
      destruct (Hstart c ic eq_refl) as [_ Hno].
      rewrite (Hno q iq Hq Hne Hqe) in Hpre. discriminate.
    + apply list_elem_of_singleton in Hq. subst x.
      destruct (Hstart q iq eq_refl) as [Hno _]. contradiction.
Qed.

Lemma merge_order_benign (tr evs : list event) :
  merge_order tr -> Forall benign evs -> merge_order (tr ++ evs).
Proof.
  intros H Hall. revert tr H.
  induction Hall as [|e evs He _ IH]; intros tr H.
  - now rewrite app_nil_r.
  - change (e :: evs) with ([e] ++ evs). rewrite app_assoc. apply IH.
    apply merge_order_snoc; [assumption|].
    intros p c ->. contradiction.
Qed.

Lemma anc_order_benign (tr evs : list event) :
  anc_order tr -> Forall benign evs -> anc_order (tr ++ evs).
Proof.
  intros H Hall. revert tr H.
  induction Hall as [|e evs He _ IH]; intros tr H.
  - now rewrite app_nil_r.
  - change (e :: evs) with ([e] ++ evs). rewrite app_assoc. apply IH.
    apply anc_order_snoc; [assumption|..]; intros; subst; contradiction.
Qed.

Lemma merge_near_snoc (tr : list event) (x : event) :
  merge_near tr ->
  (forall p c, x = Ev_branch_process p c ->
     exists ip ic,
       Ev_start_process p ip ∈ tr /\ Ev_start_process c ic ∈ tr
       /\ forall q iq,
            Ev_start_process q iq ∈ tr ->
            is_prefix iq ic = true -> iq <> ic ->
            is_prefix iq ip = true) ->
  merge_near (tr ++ [x]).
Proof.
  intros H Hx l1 l2 p c Heq.
  apply decomp_snoc in Heq as [(_ & -> & ->)|(l2' & _ & ->)]; eauto.
Qed.

Lemma merge_near_app (tr evs : list event) :
  merge_near tr -> Forall no_merge evs -> merge_near (tr ++ evs).
Proof.
  intros H Hall. revert tr H.
  induction Hall as [|e evs He _ IH]; intros tr H.
  - now rewrite app_nil_r.
  - change (e :: evs) with ([e] ++ evs). rewrite app_assoc. apply IH.
    apply merge_near_snoc; [assumption|].
    intros p c ->. contradiction.
Qed.

Lemma starts_sorted_snoc (tr : list event) (x : event) :
  starts_sorted tr ->
  (forall b i, x = Ev_start_process b i ->
     forall b' i', Ev_start_process b' i' ∈ tr -> index_lt i' i = true) ->
  starts_sorted (tr ++ [x]).
Proof.
  intros H Hx l1 l2 b i Heq.
  apply decomp_snoc in Heq as [(_ & -> & ->)|(l2' & _ & ->)]; eauto.
Qed.

Lemma starts_sorted_app (tr evs : list event) :
  starts_sorted tr -> Forall no_start evs -> starts_sorted (tr ++ evs).
Proof.
  intros H Hall. revert tr H.
  induction Hall as [|e evs He _ IH]; intros tr H.
  - now rewrite app_nil_r.
  - change (e :: evs) with ([e] ++ evs). rewrite app_assoc. apply IH.
    apply starts_sorted_snoc; [assumption|].
    intros b i ->. contradiction.
Qed.

Lemma merge_near_nil : merge_near [].
Proof. intros [|e l1] l2 p c H; discriminate. Qed.

Lemma starts_sorted_nil : starts_sorted [].
Proof. intros [|e l1] l2 b i H; discriminate. Qed.

Lemma benign_no_merge (evs : list event) :
  Forall benign evs -> Forall no_merge evs.
Proof.
  intros H. eapply Forall_impl; [exact H|]. now intros [].
Qed.

Lemma benign_no_start (evs : list event) :
  Forall benign evs -> Forall no_start evs.
Proof.
  intros H. eapply Forall_impl; [exact H|]. now intros [].
Qed.

Lemma chain_frame (stk : list nat) (tr tr' : list event) :
  (forall b i, b ∈ stk -> Ev_start_process b i ∈ tr' ->
               Ev_start_process b i ∈ tr) ->
  chain stk tr -> chain stk tr'.
Proof.
  induction stk as [|c rest IH]; intros Hsub H; [exact I|].
  destruct H as [H1 H2]. split.
  - intros p ic ip Hp Hc Hpi. apply (H1 p); auto.
    + apply Hsub; [apply elem_of_cons; auto|assumption].
    + apply Hsub; [apply elem_of_cons; auto|assumption].
  - apply IH; [|assumption]. intros b i Hb. apply Hsub.
    apply elem_of_cons; auto.
Qed.

Lemma inv_benign (stk : list nat) (w w' : world) (evs : list event) :
  inv stk w -> same_frame w w' -> log w' = log w ++ evs ->
  Forall benign evs -> inv stk w'.
Proof.
  intros [] [Hnb Hbase] Hlog Hall.
  assert (Hcount : forall f, (forall e, f e = true -> structural e) ->
                             count f (log w') = count f (log w)).
  { intros f Hf. rewrite Hlog, count_app, (count_benign f evs); auto. }
  assert (Hin : forall e, structural e -> e ∈ log w' <-> e ∈ log w).
  { intros e He. rewrite Hlog. now apply elem_of_app_benign. }
  constructor; rewrite ?Hnb; try assumption.
  - intros b Hb. rewrite (Hcount _ (is_start_structural b)). auto.
  - intros b Hb. rewrite (Hcount _ (is_start_structural b)). auto.
  - intros b Hb Hs. rewrite (Hcount _ (is_end_structural b)). auto.
  - intros b Hb. rewrite (Hcount _ (is_end_structural b)). auto.
  - intros c Hc Hs H0. rewrite (Hcount _ (is_merge_of_structural c)). auto.
  - intros c Hc. rewrite (Hcount _ (is_merge_of_structural c)). auto.
  - intros b Hb. destruct (i_base0 b Hb) as (i & Hi & Hs).
    exists i. rewrite Hbase. split; [assumption|]. now apply Hin.
  - apply (chain_frame stk (log w)); [|assumption].
    intros b i _ H. now apply Hin in H.
  - rewrite Hlog. now apply merge_order_benign.
  - intros p c Hm. apply Hin in Hm; [|exact I].
    destruct (i_merge_base0 p c Hm) as (ip & ic & H1 & H2 & H3).
    exists ip, ic. split; [now apply Hin|]. split; [now apply Hin|assumption].
  - rewrite Hlog. now apply anc_order_benign.
  - rewrite Hlog. apply merge_near_app; [assumption|].
    now apply benign_no_merge.
  - rewrite Hlog. apply starts_sorted_app; [assumption|].
    now apply benign_no_start.
Qed.

Lemma is_start_true b e :
  is_start b e = true -> exists i, e = Ev_start_process b i.
Proof.
  destruct e; simpl; try discriminate. intros H.
  apply Nat.eqb_eq in H. subst. eauto.
Qed.

Lemma is_end_true b e : is_end b e = true -> e = Ev_end_process b.
Proof.
  destruct e; simpl; try discriminate. intros H.
  apply Nat.eqb_eq in H. now subst.
Qed.

Lemma is_merge_of_true c e :
  is_merge_of c e = true -> exists p, e = Ev_branch_process p c.
Proof.
  destruct e; simpl; try discriminate. intros H.
  apply Nat.eqb_eq in H. subst. eauto.
Qed.

Lemma started_lt (stk : list nat) (w : world) (b : nat) (i : Index) :
  inv stk w -> Ev_start_process b i ∈ log w -> b < nb w.
Proof.
  intros Hinv Hin. destruct (Nat.lt_ge_cases b (nb w)) as [|Hge]; [assumption|].
  pose proof (i_start0 _ _ Hinv b Hge) as H0.
  apply (count_zero _ _ (Ev_start_process b i)) in H0; [contradiction|].
  simpl. apply Nat.eqb_refl.
Qed.

Lemma ended_elem_of (stk : list nat) (w : world) (b : nat) :
  inv stk w -> b < nb w -> b ∉ stk -> Ev_end_process b ∈ log w.
Proof.
  intros Hinv Hlt Hnot. pose proof (i_end1 _ _ Hinv b Hlt Hnot) as H1.
  destruct (count_pos (is_end b) (log w)) as (e & He & Hf); [lia|].
  apply is_end_true in Hf. now subst.
Qed.

Lemma not_ended (stk : list nat) (w : world) (b : nat) :
  inv stk w -> b ∈ stk -> Ev_end_process b ∉ log w.
Proof.
  intros Hinv Hb. apply (count_zero (is_end b)).
  - apply (i_end0 _ _ Hinv). auto.
  - simpl. apply Nat.eqb_refl.
Qed.

Lemma pop_events_start (b : nat) (rest : list nat) (evs : list event) x i :
  Forall benign evs -> Ev_start_process x i ∉ pop_events b rest evs.
Proof.
  intros Hall Hin. unfold pop_events in Hin.
  apply elem_of_cons in Hin as [Hin|Hin]; [discriminate|].
  apply elem_of_app in Hin as [Hin|Hin].
  - now apply benign_not_elem_of in Hin.
  - destruct rest; [now apply elem_of_nil in Hin|].
    apply list_elem_of_singleton in Hin. discriminate.
Qed.

Lemma pop_events_count_start (b : nat) (rest : list nat) (evs : list event) x :
  Forall benign evs -> count (is_start x) (pop_events b rest evs) = 0.
Proof.
  intros Hall. unfold pop_events. simpl. rewrite count_app.
  rewrite (count_benign _ evs Hall (is_start_structural x)).
  now destruct rest.
Qed.

Lemma pop_events_count_end (b : nat) (rest : list nat) (evs : list event) x :
  Forall benign evs ->
  count (is_end x) (pop_events b rest evs) = if Nat.eqb x b then 1 else 0.
Proof.
  intros Hall. unfold pop_events. simpl. rewrite count_app.
  rewrite (count_benign _ evs Hall (is_end_structural x)).
  destruct rest; simpl; lia.
Qed.

Lemma pop_events_count_merge (b : nat) (rest : list nat) (evs : list event) x :
  Forall benign evs ->
  count (is_merge_of x) (pop_events b rest evs)
  = match rest with
    | [] => 0
    | _ :: _ => if Nat.eqb x b then 1 else 0
    end.
Proof.
  intros Hall. unfold pop_events. simpl. rewrite count_app.
  rewrite (count_benign _ evs Hall (is_merge_of_structural x)).
  destruct rest; simpl; lia.
Qed.

Lemma inv_pop (b : nat) (rest : list nat) (w w1 : world) (evs : list event) :
  inv (b :: rest) w -> same_frame w w1 -> Forall benign evs ->
  log w1 = log w ++ pop_events b rest evs ->
  inv rest w1.
Proof.
  intros Hinv [Hnb Hbase] Hall Hlog.
  pose proof (i_nodup _ _ Hinv) as Hnd. apply NoDup_cons in Hnd as [Hb Hnd].
  assert (Hblt : b < nb w) by (apply (i_lt _ _ Hinv), elem_of_cons; auto).
  assert (Hb0 : rest <> [] -> b <> 0).
  { intros Hne ->. apply Hb.
    assert (Hl : last (0 :: rest) = Some 0)
      by (apply (i_root _ _ Hinv); discriminate).
    destruct rest as [|p rest]; [contradiction|].
    rewrite last_cons_cons in Hl. now apply last_Some_elem_of. }
  assert (Hstart : forall x i, Ev_start_process x i ∈ log w1
                               <-> Ev_start_process x i ∈ log w).
  { intros x i. rewrite Hlog, elem_of_app. split; [|auto].
    intros [H|H]; [assumption|]. now apply pop_events_start in H. }
  constructor; rewrite ?Hnb.
  - assumption.
  - intros x Hx. apply (i_lt _ _ Hinv), elem_of_cons. auto.
  - intros Hne. destruct rest as [|p rest]; [contradiction|].
    rewrite <- (last_cons_cons b). apply (i_root _ _ Hinv). discriminate.
  - intros x Hx. rewrite Hlog, count_app, pop_events_count_start by assumption.
    rewrite (i_start1 _ _ Hinv) by assumption. lia.
  - intros x Hx. rewrite Hlog, count_app, pop_events_count_start by assumption.
    rewrite (i_start0 _ _ Hinv) by assumption. lia.
  - intros x Hx Hnot.
    rewrite Hlog, count_app, pop_events_count_end by assumption.
    destruct (Nat.eqb_spec x b) as [->|Hne].
    + rewrite (i_end0 _ _ Hinv); [lia|]. right. apply elem_of_cons. auto.
    + rewrite (i_end1 _ _ Hinv); [lia|assumption|].
      apply not_elem_of_cons. auto.
  - intros x Hx.
    rewrite Hlog, count_app, pop_events_count_end by assumption.
    assert (Hne : x <> b) by (destruct Hx; [lia|congruence]).
    apply Nat.eqb_neq in Hne. rewrite Hne.
    rewrite (i_end0 _ _ Hinv); [lia|].
    destruct Hx; [auto|]. right. apply elem_of_cons. auto.
  - intros x Hx Hnot H0.
    rewrite Hlog, count_app, pop_events_count_merge by assumption.
    destruct (Nat.eqb_spec x b) as [->|Hne].
    + rewrite (i_merge0 _ _ Hinv);
        [|right; left; apply elem_of_cons; auto].
      destruct rest; [|reflexivity].
      exfalso. apply H0.
      assert (Hl : last [b] = Some 0)
        by (apply (i_root _ _ Hinv); discriminate).
      simpl in Hl. congruence.
    + rewrite (i_merge1 _ _ Hinv); auto;
        [destruct rest; lia|apply not_elem_of_cons; auto].
  - intros x Hx.
    rewrite Hlog, count_app, pop_events_count_merge by assumption.
    rewrite (i_merge0 _ _ Hinv).
    + destruct rest as [|p rest]; [reflexivity|].
      destruct (Nat.eqb_spec x b) as [->|Hne]; [|reflexivity].
      exfalso. destruct Hx as [Hx|[Hx|Hx]]; [lia|contradiction|].
      now apply Hb0.
    + destruct Hx as [Hx|[Hx|Hx]]; auto.
      right. left. apply elem_of_cons. auto.
  - intros x Hx.
    destruct (i_base _ _ Hinv x) as (i & Hi & Hs);
      [apply elem_of_cons; auto|].
    exists i. rewrite Hbase. split; [assumption|]. now apply Hstart.
  - apply (chain_frame rest (log w)).
    + intros x i _ H. now apply Hstart.
    + apply (i_chain _ _ Hinv).
  - rewrite Hlog. unfold pop_events.
    change (Ev_end_process b :: evs ++ ?m)
      with ([Ev_end_process b] ++ evs ++ m).
    rewrite !app_assoc.
    assert (H1 : merge_order ((log w ++ [Ev_end_process b]) ++ evs)).
    { apply merge_order_benign; [|assumption].
      apply merge_order_snoc; [apply (i_merge_order _ _ Hinv)|].
      discriminate. }
    destruct rest as [|p rest]; [now rewrite app_nil_r|].
    apply merge_order_snoc; [assumption|].
    intros p' c' [= <- <-]. split.
    + apply elem_of_app. left. apply elem_of_app. right.
      now apply list_elem_of_singleton.
    + intros Hin. apply elem_of_app in Hin as [Hin|Hin];
        [|now apply benign_not_elem_of in Hin].
      apply elem_of_app in Hin as [Hin|Hin].
      * revert Hin. apply (not_ended _ _ _ Hinv).
        apply elem_of_cons. right. apply elem_of_cons. auto.
      * apply list_elem_of_singleton in Hin. injection Hin as ->.
        apply Hb. apply elem_of_cons. auto.
  - intros p' c' Hm. rewrite Hlog in Hm. apply elem_of_app in Hm as [Hm|Hm].
    + destruct (i_merge_base _ _ Hinv p' c' Hm) as (ip & ic & H1 & H2 & H3).
      exists ip, ic. rewrite !Hstart. auto.
    + unfold pop_events in Hm.
      apply elem_of_cons in Hm as [Hm|Hm]; [discriminate|].
      apply elem_of_app in Hm as [Hm|Hm];
        [now apply benign_not_elem_of in Hm|].
      destruct rest as [|p rest]; [now apply elem_of_nil in Hm|].
      apply list_elem_of_singleton in Hm. injection Hm as -> ->.
      destruct (i_base _ _ Hinv p) as (ip & _ & Hp);
        [apply elem_of_cons; right; apply elem_of_cons; auto|].
      destruct (i_base _ _ Hinv b) as (ib & _ & Hbs);
        [apply elem_of_cons; auto|].
      exists ip, ib. rewrite !Hstart. split; [assumption|].
      split; [assumption|].
      destruct (i_chain _ _ Hinv) as [Hch _].
      apply (Hch p); auto. apply elem_of_cons. auto.
  - rewrite Hlog. unfold pop_events.
    change (Ev_end_process b :: evs ++ ?m)
      with ([Ev_end_process b] ++ evs ++ m).
    rewrite !app_assoc.
    assert (H1 : anc_order ((log w ++ [Ev_end_process b]) ++ evs)).
    { apply anc_order_benign; [|assumption].
      apply anc_order_snoc; [apply (i_anc _ _ Hinv)| |discriminate].
      intros q [= <-] c iq ic Hq Hc Hne Hpre.
      pose proof (started_lt _ _ _ _ Hinv Hc) as Hclt.
      destruct (decide (c ∈ rest)) as [Hin|Hnin].
      - exfalso. destruct (i_chain _ _ Hinv) as [Hch _].
        destruct (Hch c iq ic Hin Hq Hc) as [Hpre' Hne'].
        apply Hne'. now apply is_prefix_antisym.
      - apply (ended_elem_of _ _ _ Hinv Hclt).
        apply not_elem_of_cons. auto. }
    destruct rest as [|p rest]; [now rewrite app_nil_r|].
    apply anc_order_snoc; [assumption|discriminate|discriminate].
  - rewrite Hlog. unfold pop_events.
    change (Ev_end_process b :: evs ++ ?m)
      with ([Ev_end_process b] ++ evs ++ m).
    rewrite !app_assoc.
    assert (H1 : merge_near ((log w ++ [Ev_end_process b]) ++ evs)).
    { apply merge_near_app; [|now apply benign_no_merge].
      apply merge_near_snoc; [apply (i_near _ _ Hinv)|discriminate]. }
    destruct rest as [|p rest]; [now rewrite app_nil_r|].
    apply merge_near_snoc; [assumption|].
    intros p' c' [= <- <-].
    assert (Hpin : p ∈ b :: p :: rest)
      by (apply elem_of_cons; right; apply elem_of_cons; auto).
    destruct (i_base _ _ Hinv p Hpin) as (ip & _ & Hp).
    destruct (i_base _ _ Hinv b) as (ib & _ & Hbs);
      [apply elem_of_cons; auto|].
    assert (Hold : forall e, e ∈ log w ->
                     e ∈ (log w ++ [Ev_end_process b]) ++ evs).
    { intros e He. apply elem_of_app. left. apply elem_of_app. auto. }
    exists ip, ib. split; [now apply Hold|]. split; [now apply Hold|].
    intros q iq Hq Hpre Hne.
    apply elem_of_app in Hq as [Hq|Hq];
      [|now apply benign_not_elem_of in Hq].
    apply elem_of_app in Hq as [Hq|Hq];
      [|apply list_elem_of_singleton in Hq; discriminate].
    assert (Hqb : q <> b).
    { intros ->. apply Hne. apply (start_unique (log w) b); auto.
      rewrite (i_start1 _ _ Hinv); [lia|exact Hblt]. }
    destruct (decide (q ∈ p :: rest)) as [Hin|Hnin].
    + apply elem_of_cons in Hin as [->|Hin].
      * assert (iq = ip) as ->; [|apply is_prefix_refl].
        apply (start_unique (log w) p); auto.
        rewrite (i_start1 _ _ Hinv); [lia|]. now apply (i_lt _ _ Hinv).
      * destruct (i_chain _ _ Hinv) as [_ [Hch _]].
        now destruct (Hch q ip iq Hin Hp Hq).
    + exfalso. pose proof (started_lt _ _ _ _ Hinv Hq) as Hqlt.
      assert (Hqe : Ev_end_process q ∈ log w).
      { apply (ended_elem_of _ _ _ Hinv Hqlt). apply not_elem_of_cons. auto. }
      apply list_elem_of_split in Hqe as (l1 & l2 & Heq).
      pose proof (i_anc _ _ Hinv q b iq ib l1 l2 Hq Hbs Hqb Hpre Heq) as Hbe.
      apply (not_ended _ _ b Hinv); [apply elem_of_cons; auto|].
      rewrite Heq. apply elem_of_app. auto.
  - rewrite Hlog. apply starts_sorted_app; [apply (i_sorted _ _ Hinv)|].
    unfold pop_events. constructor; [exact I|].
    apply Forall_app. split; [now apply benign_no_start|].
    destruct rest; repeat constructor.
Qed.

Lemma inv_push (stk : list nat) (w w1 : world) (i' : Index)
    (evs : list event) (p : nat) (rest : list nat) (ip : Index) :
  inv stk w -> stk = p :: rest ->
  base w p = Some ip -> is_prefix ip i' = true ->
  (forall b ib, Ev_start_process b ib ∈ log w -> index_lt ib i' = true) ->
  (forall q iq, Ev_start_process q iq ∈ log w -> q ∉ stk ->
                is_prefix iq i' = false) ->
  nb w1 = S (nb w) ->
  (forall b, b < nb w -> base w1 b = base w b) ->
  base w1 (nb w) = Some i' ->
  Forall benign evs ->
  log w1 = log w ++ Ev_start_process (nb w) i' :: evs ->
  inv (nb w :: stk) w1.
Proof.
  intros Hinv Hstk Hbp Hpre Hlt Hclosed Hnb Hbase Hbc Hall Hlog.
  set (c := nb w) in *.
  assert (Hc : c ∉ stk).
  { intros Hin. apply (i_lt _ _ Hinv) in Hin. unfold c in Hin. lia. }
  assert (Hcount : forall f, (forall e, f e = true -> structural e) ->
            count f (log w1)
            = count f (log w)
              + (if f (Ev_start_process c i') then 1 else 0)).
  { intros f Hf. rewrite Hlog, count_app. simpl.
    rewrite (count_benign f evs); auto. }
  assert (Hstart : forall x i, Ev_start_process x i ∈ log w1 <->
            Ev_start_process x i ∈ log w \/ (x = c /\ i = i')).
  { intros x i. rewrite Hlog, elem_of_app, elem_of_cons. split.
    - intros [H|[H|H]]; [auto|injection H; auto|].
      now apply benign_not_elem_of in H.
    - intros [H|[-> ->]]; auto. }
  assert (Hold : forall e, e ∈ log w -> e ∈ log w1).
  { intros e He. rewrite Hlog. apply elem_of_app. auto. }
  assert (Hnew : forall i, Ev_start_process c i ∉ log w).
  { intros i. apply (count_zero (is_start c)).
    - apply (i_start0 _ _ Hinv). unfold c. lia.
    - simpl. apply Nat.eqb_refl. }
  assert (Hstk_start : forall x i, x ∈ stk -> Ev_start_process x i ∈ log w1 ->
                                   Ev_start_process x i ∈ log w).
  { intros x i Hx H. apply Hstart in H as [H|[-> _]]; [assumption|].
    contradiction. }
  constructor; rewrite ?Hnb.
  - apply NoDup_cons. split; [assumption|apply (i_nodup _ _ Hinv)].
  - intros x Hx. apply elem_of_cons in Hx as [->|Hx]; [unfold c; lia|].
    apply (i_lt _ _ Hinv) in Hx. lia.
  - intros _. subst stk. rewrite last_cons_cons.
    apply (i_root _ _ Hinv). discriminate.
  - intros x Hx. rewrite (Hcount _ (is_start_structural x)). simpl.
    destruct (Nat.eqb_spec x c) as [->|Hne].
    + rewrite (i_start0 _ _ Hinv); [lia|unfold c; lia].
    + rewrite (i_start1 _ _ Hinv); [lia|unfold c in *; lia].
  - intros x Hx. rewrite (Hcount _ (is_start_structural x)). simpl.
    destruct (Nat.eqb_spec x c) as [->|Hne]; [unfold c in Hx; lia|].
    rewrite (i_start0 _ _ Hinv); [lia|unfold c in *; lia].
  - intros x Hx Hnot. rewrite (Hcount _ (is_end_structural x)). simpl.
    apply not_elem_of_cons in Hnot as [Hne Hnot].
    rewrite (i_end1 _ _ Hinv); [lia|unfold c in *; lia|assumption].
  - intros x Hx. rewrite (Hcount _ (is_end_structural x)). simpl.
    rewrite (i_end0 _ _ Hinv); [lia|].
    destruct Hx as [Hx|Hx]; [left; lia|].
    apply elem_of_cons in Hx as [->|Hx]; [left; unfold c; lia|auto].
  - intros x Hx Hnot H0. rewrite (Hcount _ (is_merge_of_structural x)). simpl.
    apply not_elem_of_cons in Hnot as [Hne Hnot].
    rewrite (i_merge1 _ _ Hinv); [lia|unfold c in *; lia|assumption..].
  - intros x Hx. rewrite (Hcount _ (is_merge_of_structural x)). simpl.
    rewrite (i_merge0 _ _ Hinv); [lia|].
    destruct Hx as [Hx|[Hx|Hx]]; [left; lia| |auto].
    apply elem_of_cons in Hx as [->|Hx]; [left; unfold c; lia|auto].
  - intros x Hx. apply elem_of_cons in Hx as [->|Hx].
    + exists i'. split; [assumption|]. apply Hstart. auto.
    + destruct (i_base _ _ Hinv x Hx) as (i & Hi & Hs).
      exists i. rewrite Hbase by (apply (i_lt _ _ Hinv); assumption). auto.
  - split.
    + intros p' ic ip' Hp' Hcs Hps.
      apply Hstart in Hcs as [Hcs|[_ ->]]; [now apply Hnew in Hcs|].
      apply Hstk_start in Hps; [|assumption].
      split; [|intros ->; specialize (Hlt _ _ Hps);
               rewrite index_lt_irrefl in Hlt; discriminate].
      destruct (i_base _ _ Hinv p) as (ip0 & Hip0 & Hp0);
        [subst stk; apply elem_of_cons; auto|].
      assert (ip0 = ip) by (unfold base in *; congruence). subst ip0.
      subst stk. apply elem_of_cons in Hp' as [->|Hp'].
      * assert (ip' = ip); [|now subst].
        apply (start_unique (log w) p); auto.
        rewrite (i_start1 _ _ Hinv); [lia|].
        apply (i_lt _ _ Hinv), elem_of_cons. auto.
      * destruct (i_chain _ _ Hinv) as [Hch _].
        destruct (Hch p' ip ip' Hp' Hp0 Hps) as [Hpp _].
        now apply is_prefix_trans with ip.
    + apply (chain_frame stk (log w)); [assumption|apply (i_chain _ _ Hinv)].
  - rewrite Hlog.
    change (Ev_start_process c i' :: evs)
      with ([Ev_start_process c i'] ++ evs).
    rewrite app_assoc. apply merge_order_benign; [|assumption].
    apply merge_order_snoc; [apply (i_merge_order _ _ Hinv)|discriminate].
  - intros p' c' Hm. rewrite Hlog in Hm. apply elem_of_app in Hm as [Hm|Hm].
    + destruct (i_merge_base _ _ Hinv p' c' Hm) as (i1 & i2 & H1 & H2 & H3).
      exists i1, i2. auto.
    + apply elem_of_cons in Hm as [Hm|Hm]; [discriminate|].
      now apply benign_not_elem_of in Hm.
  - rewrite Hlog.
    change (Ev_start_process c i' :: evs)
      with ([Ev_start_process c i'] ++ evs).
    rewrite app_assoc. apply anc_order_benign; [|assumption].
    apply anc_order_snoc; [apply (i_anc _ _ Hinv)|discriminate|].
    intros c0 ic [= <- <-]. split.
    + apply (count_zero (is_end c)); [|simpl; apply Nat.eqb_refl].
      apply (i_end0 _ _ Hinv). left. unfold c. lia.
    + intros q iq Hq Hne Hqe. apply (Hclosed q iq Hq).
      intros Hin. now apply (not_ended _ _ _ Hinv Hin).
  - rewrite Hlog. apply merge_near_app; [apply (i_near _ _ Hinv)|].
    constructor; [exact I|now apply benign_no_merge].
  - rewrite Hlog.
    change (Ev_start_process c i' :: evs)
      with ([Ev_start_process c i'] ++ evs).
    rewrite app_assoc. apply starts_sorted_app; [|now apply benign_no_start].
    apply starts_sorted_snoc; [apply (i_sorted _ _ Hinv)|].
    intros b0 i0 [= <- <-] b' ib' Hb'. now apply (Hlt b').
Qed.

Lemma inv_first (w1 : world) (i : Index) (evs : list event) :
  nb w1 = 1 -> base w1 0 = Some i -> Forall benign evs ->
  log w1 = Ev_start_process 0 i :: evs ->
  inv [0] w1.
Proof.
  intros Hnb Hbase Hall Hlog.
  assert (Hcount : forall f, (forall e, f e = true -> structural e) ->
            count f (log w1) = if f (Ev_start_process 0 i) then 1 else 0).
  { intros f Hf. rewrite Hlog. simpl. rewrite (count_benign f evs); auto. }
  assert (Hstr : forall e, structural e -> e ∈ log w1 ->
                           e = Ev_start_process 0 i).
  { intros e He Hin. rewrite Hlog in Hin.
    apply elem_of_cons in Hin as [Hin|Hin]; [assumption|].
    now apply benign_not_elem_of in Hin. }
  constructor; rewrite ?Hnb.
  - apply NoDup_singleton.
  - intros b Hb. apply list_elem_of_singleton in Hb. lia.
  - reflexivity.
  - intros b Hb. rewrite (Hcount _ (is_start_structural b)). simpl.
    now replace b with 0 by lia.
  - intros b Hb. rewrite (Hcount _ (is_start_structural b)). simpl.
    destruct (Nat.eqb_spec b 0); [lia|reflexivity].
  - intros b Hb Hnot. exfalso. apply Hnot, list_elem_of_singleton. lia.
  - intros b Hb. now rewrite (Hcount _ (is_end_structural b)).
  - intros c Hc Hnot H0. lia.
  - intros c Hc. now rewrite (Hcount _ (is_merge_of_structural c)).
  - intros b Hb. apply list_elem_of_singleton in Hb. subst b.
    exists i. split; [assumption|]. rewrite Hlog. apply elem_of_cons. auto.
  - split; [|exact I]. intros p ic ip Hp. now apply elem_of_nil in Hp.
  - intros l1 l2 p c Heq.
    assert (H : Ev_branch_process p c ∈ log w1).
    { rewrite Heq. apply elem_of_app. right. apply elem_of_cons. auto. }
    apply Hstr in H; [discriminate|exact I].
  - intros p c H. apply Hstr in H; [discriminate|exact I].
  - intros q c iq ic l1 l2 _ _ _ _ Heq.
    assert (H : Ev_end_process q ∈ log w1).
    { rewrite Heq. apply elem_of_app. right. apply elem_of_cons. auto. }
    apply Hstr in H; [discriminate|exact I].
  - rewrite Hlog. apply (merge_near_app []); [apply merge_near_nil|].
    constructor; [exact I|now apply benign_no_merge].
  - rewrite Hlog.
    change (Ev_start_process 0 i :: evs)
      with (([] ++ [Ev_start_process 0 i]) ++ evs).
    apply starts_sorted_app; [|now apply benign_no_start].
    apply starts_sorted_snoc; [apply starts_sorted_nil|].
    intros b0 i0 _ b' ib' Hb'. now apply elem_of_nil in Hb'.
Qed.

(** ** What the operations of the reducer do to the world *)

Lemma ext_refl (w : world) : ext w w [].
Proof. split; [split; auto|]. now rewrite app_nil_r. Qed.

Lemma ext_trans (w w1 w2 : world) (e1 e2 : list event) :
  ext w w1 e1 -> ext w1 w2 e2 -> ext w w2 (e1 ++ e2).
Proof.
  intros [[Hn1 Hb1] Hl1] [[Hn2 Hb2] Hl2]. split; [split|].
  - congruence.
  - intros b. now rewrite Hb2.
  - now rewrite Hl2, Hl1, app_assoc.
Qed.

Lemma ext_emit (e : event) (w : world) : ext w (emit e w) [e].
Proof. split; [split|]; reflexivity. Qed.

Lemma base_update_branch (b : nat) (f : ITRBranch -> ITRBranch) (w : world)
    (x : nat) :
  base (update_branch b f w) x
  = if decide (x = b)
    then match heap w !! b with
         | Some br => base_index (f br)
         | None => None
         end
    else base w x.
Proof.
  unfold base, update_branch. simpl. destruct (decide (x = b)) as [->|Hne].
  - rewrite list_lookup_alter_eq. now destruct (heap w !! b).
  - now rewrite list_lookup_alter_ne by congruence.
Qed.

Lemma ext_update (b : nat) (f : ITRBranch -> ITRBranch) (w : world) :
  (forall br, base_index (f br) = base_index br) ->
  ext w (update_branch b f w) [].
Proof.
  intros Hf. split; [split|].
  - unfold nb, update_branch. simpl. apply length_alter.
  - intros x. rewrite base_update_branch.
    destruct (decide (x = b)) as [->|]; [|reflexivity].
    unfold base. destruct (heap w !! b); [apply Hf|reflexivity].
  - simpl. now rewrite app_nil_r.
Qed.

Lemma check_common_error_ext (b : nat) (fn : Index) (r : hook_result)
    (w : world) :
  exists evs, Forall benign evs /\ Forall quiet evs
              /\ ext w (check_common_error b fn r w) evs.
Proof.
  destruct r; simpl.
  - exists []. repeat split; auto using ext_refl.
    now rewrite app_nil_r.
  - exists [Ev_warn (Warn_error fn)]. split; [|split].
    + repeat constructor.
    + repeat constructor.
    + unfold on_error.
      apply (ext_trans w (update_branch b set_caught_exception w) _ [] _).
      * now apply ext_update.
      * apply ext_emit.
Qed.

(** ** [IterTreeReducer] *)

Section Reducer.

Context {P : Type}.
Variable start_process : list event -> nat -> Index * P -> hook_result.
Variable end_process : list event -> nat -> hook_result.
Variable can_fast_process : list event -> nat -> Index * P -> bool.
Variable fast_process : list event -> nat -> Index * P -> hook_result.

Local Abbreviation call := (call start_process end_process can_fast_process fast_process).
Local Abbreviation feed := (feed start_process end_process can_fast_process fast_process).
Local Abbreviation reduce :=
  (reduce start_process end_process can_fast_process fast_process).
Local Abbreviation Finish := (Finish end_process).
Local Abbreviation Finish_loop := (Finish_loop end_process).
Local Abbreviation finish_branches := (finish_branches end_process).
Local Abbreviation call_end_proc := (call_end_proc end_process).
Local Abbreviation process_w_branch := (process_w_branch start_process).
Local Abbreviation pop_step := (pop_step end_process).

(** C6.  Once an index is accepted, an entry whose index is not above it
    changes neither the stack of branches nor the accepted index nor any
    branch, calls no hook, logs one warning, and the call returns 1. *)
Theorem out_of_order_entry_dropped (args : Index * P) (itr : IterTreeReducer)
    (w : world) (self_index : Index) :
  index itr = Some self_index ->
  index_le (fst args) self_index = true ->
  call args itr w
  = (Ret (Some 1%Z), itr,
     {| heap := heap w;
        log := log w ++ [Ev_warn (Warn_oldindex self_index (fst args))] |}).
Proof.
  intros Hidx Hle. unfold Lazy.call. now rewrite Hidx, Hle.
Qed.

(** What [finish_branches] returns, and the stack it leaves. *)
Lemma finish_branches_shape (i : Index) (bs : list nat) :
  forall w,
    match (finish_branches i bs w).1.1 with
    | Raise IndexError =>
        bs = [] /\ (finish_branches i bs w).1.2 = []
        /\ (finish_branches i bs w).2 = w
    | Ret None => bs <> [] /\ (finish_branches i bs w).1.2 = []
    | _ => bs <> [] /\ (finish_branches i bs w).1.2 <> []
    end.
Proof.
  induction bs as [|b rest IH]; intros w; [simpl; auto|].
  cbn [Lazy.finish_branches].
  destruct (base_index (get_branch w b)) as [base|];
    [|simpl; split; discriminate].
  destruct (negb (index_eqb base (firstn (length base) i)));
    [|simpl; split; discriminate].
  destruct rest as [|parent rest]; [simpl; split; [discriminate|reflexivity]|].
  specialize (IH (branch_process parent b (call_end_proc b w))).
  destruct (finish_branches i (parent :: rest) _) as [[r bs'] w'].
  cbn [fst snd] in *.
  destruct r as [[z|]|[]]; try (destruct IH as [_ IH]; split;
                                [discriminate|assumption]).
  destruct IH as [IH _]. discriminate.
Qed.

(** A call leaves the stack empty exactly when the stack was empty or the
    call returned [None]. *)
Lemma call_stack_empty (args : Index * P) (itr : IterTreeReducer) (w : world) :
  branches (call args itr w).1.2 = []
  <-> branches itr = [] \/ (call args itr w).1.1 = Ret None.
Proof.
  unfold Lazy.call. destruct (index itr) as [self_index|].
  - destruct (index_le (fst args) self_index).
    { cbn [fst snd]. split; [auto|]. intros [H|H]; [assumption|discriminate]. }
    pose proof (finish_branches_shape (fst args) (branches itr) w) as H.
    destruct (finish_branches (fst args) (branches itr) w) as [[r bs] w'].
    cbn [fst snd] in H.
    destruct r as [[z|]|e].
    + destruct H as [Hne Hbs]. cbn [set_branches branches].
      destruct bs as [|last_branch bs]; [contradiction|].
      destruct (start_successful (get_branch w' last_branch)).
      * destruct (can_fast_process (log w') last_branch args);
          cbn [fst snd add_branch set_index set_branches branches];
          (split; [discriminate|]); intros [Hc|Hc];
          [contradiction|discriminate|contradiction|discriminate].
      * cbn [fst snd set_index set_branches branches].
        split; [discriminate|]. intros [Hc|Hc]; [contradiction|discriminate].
    + destruct H as [_ ->]. cbn [fst snd set_branches branches].
      split; auto.
    + cbn [fst snd set_branches branches].
      destruct e; try (destruct H as [Hne Hbs];
                       split; [intros Hc; contradiction|];
                       intros [Hc|Hc]; [contradiction|discriminate]).
      destruct H as (-> & -> & _). split; auto.
  - cbn [fst snd set_index branches]. split; [auto|].
    intros [H|H]; [assumption|discriminate].
Qed.

Lemma feed_stack_empty (entries : list (Index * P)) :
  forall itr w,
    branches (feed entries itr w).1.2 = []
    <-> branches itr = [] \/ In (Ret None) (feed entries itr w).1.1.
Proof.
  induction entries as [|args entries IH]; intros itr w.
  - simpl. tauto.
  - cbn [Lazy.feed].
    pose proof (call_stack_empty args itr w) as Hc.
    destruct (call args itr w) as [[r itr1] w1]. cbn [fst snd] in Hc.
    specialize (IH itr1 w1).
    destruct (feed entries itr1 w1) as [[rs itr2] w2]. cbn [fst snd] in *.
    rewrite IH, Hc. simpl. intuition congruence.
Qed.

Lemma Finish_loop_nonempty (bs : list nat) :
  forall w, bs <> [] ->
    exists w', Finish_loop bs w = (Ret tt, [], w').
Proof.
  induction bs as [|b rest IH]; intros w Hne; [contradiction|].
  cbn [Lazy.Finish_loop]. destruct rest as [|parent rest]; [eauto|].
  apply IH. discriminate.
Qed.

(** C10.  On an empty stack [Finish] raises [IndexError] at its first
    [pop()] and changes nothing; on a stack with a branch left it completes
    and empties the stack.  While entries are fed to a new reducer, the
    stack is empty exactly when a call has returned [None]. *)
Theorem Finish_on_empty_stack :
  (forall itr w,
      branches itr = [] -> Finish itr w = (Raise IndexError, itr, w))
  /\ (forall itr w,
         branches itr <> [] ->
         exists w', Finish itr w = (Ret tt, set_branches [] itr, w'))
  /\ (forall entries,
         branches (feed entries ITR_init.1 ITR_init.2).1.2 = []
         <-> In (Ret None) (feed entries ITR_init.1 ITR_init.2).1.1).
Proof.
  split; [|split].
  - intros [idx root bs] w Hbs. simpl in Hbs. subst bs. reflexivity.
  - intros itr w Hne. unfold Lazy.Finish.
    destruct (Finish_loop_nonempty (branches itr) w Hne) as [w' ->]. eauto.
  - intros entries. rewrite feed_stack_empty. simpl.
    split; [intros [H|H]; [discriminate|assumption]|auto].
Qed.

(** *** The invariant along a reduction *)

Lemma call_end_proc_ext (b : nat) (w : world) :
  exists evs, Forall benign evs /\ Forall quiet evs
              /\ ext w (call_end_proc b w) (Ev_end_process b :: evs).
Proof.
  unfold Lazy.call_end_proc.
  set (w0 := if finished (get_branch w b)
                || negb (start_successful (get_branch w b))
             then update_branch b set_caught_exception w else w).
  assert (H0 : ext w w0 []).
  { unfold w0. destruct (_ || _); [now apply ext_update|apply ext_refl]. }
  destruct (check_common_error_ext b [] (end_process (log w0) b)
              (emit (Ev_end_process b) w0)) as (evs & Hb & Hq & Hext).
  exists evs. split; [assumption|]. split; [assumption|].
  pose proof (ext_trans _ _ _ _ _ H0 (ext_emit (Ev_end_process b) w0)) as H1.
  pose proof (ext_trans _ _ _ _ _ H1 Hext) as H2.
  pose proof (ext_trans _ _ _ _ _ H2
                (ext_update b set_finished _ (fun _ => eq_refl))) as H3.
  simpl in H3. now rewrite app_nil_r in H3.
Qed.

Lemma pop_step_ext (b : nat) (rest : list nat) (w : world) :
  exists evs, Forall benign evs /\ Forall quiet evs
              /\ ext w (pop_step b rest w) (pop_events b rest evs).
Proof.
  destruct (call_end_proc_ext b w) as (evs & Hb & Hq & Hext).
  exists evs. split; [assumption|]. split; [assumption|].
  unfold pop_step, pop_events. destruct rest as [|p rest].
  - now rewrite app_nil_r.
  - pose proof (ext_trans _ _ _ _ _ Hext
                  (ext_emit (Ev_branch_process p b) (call_end_proc b w))) as H.
    exact H.
Qed.

Lemma pop_events_quiet (b : nat) (rest : list nat) (evs : list event) :
  Forall quiet evs -> Forall quiet (pop_events b rest evs).
Proof.
  intros H. unfold pop_events. constructor; [exact I|].
  apply Forall_app. split; [assumption|].
  destruct rest; repeat constructor.
Qed.

Lemma inv_pop_step (b : nat) (rest : list nat) (w : world) :
  inv (b :: rest) w ->
  inv rest (pop_step b rest w)
  /\ (forall x i, Ev_start_process x i ∈ log (pop_step b rest w)
                  <-> Ev_start_process x i ∈ log w)
  /\ exists evs, log (pop_step b rest w) = log w ++ evs /\ Forall quiet evs.
Proof.
  intros Hinv. destruct (pop_step_ext b rest w) as (evs & Hb & Hq & Hf & Hl).
  split; [|split].
  - now apply (inv_pop b rest w _ evs).
  - intros x i. rewrite Hl, elem_of_app. split; [|auto].
    intros [H|H]; [assumption|]. now apply pop_events_start in H.
  - exists (pop_events b rest evs). split; [assumption|].
    now apply pop_events_quiet.
Qed.

Lemma inv_finish_branches (i' : Index) (stk : list nat) :
  forall w,
    inv stk w ->
    (forall q iq, Ev_start_process q iq ∈ log w -> q ∉ stk ->
                  is_prefix iq i' = false) ->
    stk <> [] ->
    finished_for i' w (finish_branches i' stk w).
Proof.
  induction stk as [|b rest IH]; intros w Hinv Hclosed Hne; [contradiction|].
  cbn [Lazy.finish_branches].
  destruct (i_base _ _ Hinv b) as (ib & Hib & Hsb); [apply elem_of_cons; auto|].
  unfold base in Hib. unfold get_branch. rewrite Hib.
  destruct (index_eqb ib (firstn (length ib) i')) eqn:Hpre; cbn [negb].
  - unfold finished_for. cbn [fst snd]. split; [assumption|].
    split; [assumption|]. split; [tauto|]. split.
    + exists []. now rewrite app_nil_r.
    + right. exists b, rest, ib. auto.
  - destruct (inv_pop_step b rest w Hinv) as (Hinv1 & Hst1 & evs1 & Hl1 & Hq1).
    assert (Hclosed1 : forall q iq,
               Ev_start_process q iq ∈ log (pop_step b rest w) -> q ∉ rest ->
               is_prefix iq i' = false).
    { intros q iq Hq Hnot. apply Hst1 in Hq.
      destruct (decide (q = b)) as [->|Hqb].
      - assert (iq = ib); [|now subst].
        apply (start_unique (log w) b); auto.
        rewrite (i_start1 _ _ Hinv); [lia|].
        apply (i_lt _ _ Hinv), elem_of_cons. auto.
      - apply (Hclosed q iq Hq). apply not_elem_of_cons. auto. }
    destruct rest as [|p rest].
    + unfold finished_for. cbn [fst snd]. unfold pop_step in *.
      split; [assumption|]. split; [assumption|]. split; [assumption|].
      split; [eauto|]. left. auto.
    + unfold pop_step in *.
      specialize (IH _ Hinv1 Hclosed1 ltac:(discriminate)).
      destruct IH as (H1 & H2 & H3 & (evs2 & Hl2 & Hq2) & H5).
      split; [assumption|]. split; [assumption|]. split.
      * intros x i. now rewrite H3.
      * split; [|assumption]. exists (evs1 ++ evs2).
        rewrite Hl2, Hl1, app_assoc. split; [reflexivity|].
        apply Forall_app. auto.
Qed.

Lemma process_w_branch_spec (i : Index) (b : nat) (args : Index * P)
    (w : world) :
  exists evs,
    Forall benign evs /\ Forall quiet evs
    /\ nb (process_w_branch i b args w) = nb w
    /\ log (process_w_branch i b args w)
       = log w ++ Ev_start_process b (fst args) :: evs
    /\ (forall x, x <> b -> base (process_w_branch i b args w) x = base w x)
    /\ (b < nb w -> base (process_w_branch i b args w) b = Some i).
Proof.
  unfold Lazy.process_w_branch.
  destruct (check_common_error_ext b (fst args)
              (start_process (log w) b args)
              (emit (Ev_start_process b (fst args)) w))
    as (evs & Hb & Hq & Hext).
  set (w1 := check_common_error b (fst args) _ _) in *.
  set (w2 := if negb (caught_exception (get_branch w1 b))
             then update_branch b set_start_successful w1 else w1).
  assert (H2 : ext w1 w2 []).
  { unfold w2. destruct (negb _); [now apply ext_update|apply ext_refl]. }
  pose proof (ext_trans _ _ _ _ _
                (ext_trans _ _ _ _ _ (ext_emit _ w) Hext) H2) as H.
  rewrite app_nil_r in H. destruct H as [[Hnb Hbase] Hlog].
  exists evs. split; [assumption|]. split; [assumption|]. split; [|split].
  - unfold nb, update_branch. simpl. rewrite length_alter. exact Hnb.
  - exact Hlog.
  - split.
    + intros x Hx. rewrite base_update_branch.
      destruct (decide (x = b)); [contradiction|]. apply Hbase.
    + intros Hlt. rewrite base_update_branch.
      destruct (decide (b = b)); [|contradiction].
      destruct (lookup_lt_is_Some_2 (heap w2) b) as [br Hbr];
        [unfold nb in *; lia|].
      now rewrite Hbr.
Qed.

Lemma bnd_starts (l : Index) (stk : list nat) (w w' : world) :
  (forall x i, Ev_start_process x i ∈ log w' -> Ev_start_process x i ∈ log w) ->
  bnd l stk w -> bnd l stk w'.
Proof.
  intros Hsub [H1 H2]. split.
  - intros b i H. apply (H1 b). now apply Hsub.
  - intros q iq H. apply H2. now apply Hsub.
Qed.

Lemma bnd_advance (l i' : Index) (stk : list nat) (w : world) :
  (forall b i, Ev_start_process b i ∈ log w -> index_le i l = true) ->
  index_lt l i' = true ->
  (forall q iq, Ev_start_process q iq ∈ log w -> q ∉ stk ->
                is_prefix iq i' = false) ->
  bnd i' stk w.
Proof.
  intros Hle Hlt Hclosed. split.
  - intros b i H. apply index_le_lt_le with l; eauto.
  - intros q iq H Hnot j Hj.
    destruct (is_prefix iq j) eqn:Hpre; [|reflexivity].
    rewrite <- (Hclosed q iq H Hnot). symmetry.
    apply (is_prefix_convex iq i' j); auto.
    + apply index_le_lt_le with l; eauto.
    + now apply index_lt_le.
Qed.

Lemma ext_benign_starts (w w' : world) (evs : list event) :
  ext w w' evs -> Forall benign evs ->
  forall x i, Ev_start_process x i ∈ log w' <-> Ev_start_process x i ∈ log w.
Proof.
  intros [_ Hl] Hall x i. rewrite Hl. now apply elem_of_app_benign.
Qed.

Lemma call_good (args : Index * P) (itr : IterTreeReducer) (w : world) :
  good itr w ->
  good (call args itr w).1.2 (call args itr w).2
  /\ forall l,
       index itr = Some l ->
       (index (call args itr w).1.2 = Some l
        \/ index (call args itr w).1.2 = Some (fst args))
       /\ (index_lt l (fst args) = true ->
           exists evs, log (call args itr w).2 = log w ++ evs
                       /\ Forall quiet evs).
Proof.
  intros [Hinv (l & Hl & Hbnd)]. unfold Lazy.call. rewrite Hl.
  destruct (index_le (fst args) l) eqn:Hle.
  { cbn [fst snd]. split.
    - split.
      + apply (inv_benign _ w _ [Ev_warn (Warn_oldindex l (fst args))]);
          auto; [split; auto|repeat constructor].
      + exists l. split; [assumption|]. destruct Hbnd as [H|H]; [auto|].
        right. apply (bnd_starts _ _ w); [|assumption].
        intros x i Hx. simpl in Hx. apply elem_of_app in Hx as [Hx|Hx]; auto.
        apply list_elem_of_singleton in Hx. discriminate.
    - intros l0 [= <-]. split; [auto|]. intros Hlt.
      apply index_lt_not_le in Hlt. congruence. }
  apply index_not_le_lt in Hle.
  destruct (branches itr) as [|b rest] eqn:Hstk.
  { cbn [Lazy.finish_branches fst snd set_branches branches index]. split.
    - split; [assumption|]. exists l. auto.
    - intros l0 [= <-]. split; [auto|]. intros _. exists [].
      now rewrite app_nil_r. }
  destruct Hbnd as [Hbnd|[Hle_l Hfut]]; [discriminate|].
  assert (Hclosed : forall q iq, Ev_start_process q iq ∈ log w ->
                                 q ∉ b :: rest -> is_prefix iq (fst args) = false).
  { intros q iq Hq Hnot. now apply (Hfut q iq Hq Hnot). }
  pose proof (inv_finish_branches (fst args) (b :: rest) w Hinv Hclosed
                ltac:(discriminate)) as Hfin.
  destruct (finish_branches (fst args) (b :: rest) w) as [[r bs] w'].
  destruct Hfin as (Hinv' & Hclosed' & Hst' & (evs & Hlog' & Hq') & Hres).
  cbn [fst snd] in *.
  destruct Hres as [[-> ->]|(top & rest' & ip & -> & -> & Hip & Hpre)].
  { cbn [fst snd set_branches branches index]. split.
    - split; [assumption|]. exists l. auto.
    - intros l0 [= <-]. split; [auto|]. intros _. eauto. }
  assert (Hle' : forall x i, Ev_start_process x i ∈ log w' ->
                             index_le i l = true).
  { intros x i Hx. apply (Hle_l x). now apply Hst'. }
  cbn [set_branches branches].
  destruct (start_successful (get_branch w' top)).
  - destruct (can_fast_process (log w') top args).
    + set (w2 := emit (Ev_can_fast_process top (fst args)) w').
      destruct (check_common_error_ext top (fst args)
                  (fast_process (log w2) top args)
                  (emit (Ev_fast_process top (fst args)) w2))
        as (evs2 & Hb2 & Hq2 & Hext2).
      set (w3 := check_common_error _ _ _ _) in *.
      pose proof (ext_trans _ _ _ _ _
                    (ext_trans _ _ _ _ _ (ext_emit _ w') (ext_emit _ w2))
                    Hext2) as Hext.
      assert (Hben : Forall benign
                       (([Ev_can_fast_process top (fst args)]
                         ++ [Ev_fast_process top (fst args)]) ++ evs2)).
      { apply Forall_app. split; [repeat constructor|assumption]. }
      cbn [fst snd set_index set_branches branches index]. split.
      * split.
        -- apply (inv_benign _ w' _ _ Hinv' (proj1 Hext) (proj2 Hext) Hben).
        -- exists (fst args). split; [reflexivity|]. right.
           apply (bnd_starts _ _ w').
           ++ intros x i. apply (ext_benign_starts _ _ _ Hext Hben).
           ++ now apply (bnd_advance l).
      * intros l0 [= <-]. split; [auto|]. intros _.
        exists (evs ++ ([Ev_can_fast_process top (fst args)]
                        ++ [Ev_fast_process top (fst args)]) ++ evs2).
        destruct Hext as [_ ->]. rewrite Hlog'.
        split; [now rewrite <- !app_assoc|].
        apply Forall_app. split; [assumption|].
        apply Forall_app. split; [repeat constructor|assumption].
    + set (w2 := emit (Ev_can_fast_process top (fst args)) w').
      assert (Hben : Forall benign [Ev_can_fast_process top (fst args)])
        by repeat constructor.
      pose proof (ext_emit (Ev_can_fast_process top (fst args)) w') as Hext2.
      fold w2 in Hext2.
      pose proof (inv_benign _ w' w2 _ Hinv' (proj1 Hext2) (proj2 Hext2) Hben)
        as Hinv2.
      pose proof (ext_benign_starts _ _ _ Hext2 Hben) as Hst2.
      unfold add_branch. cbn [set_branches branches index root_branch].
      set (w2' := {| heap := heap w2 ++ [ITRBranch_new]; log := log w2 |}).
      destruct (process_w_branch_spec (fst args) (length (heap w2)) args w2')
        as (evs3 & Hb3 & Hq3 & Hnb3 & Hlog3 & Hbase3 & Hbase3').
      set (w4 := process_w_branch _ _ _ _) in *.
      assert (Hnb2' : nb w2' = S (nb w2)).
      { unfold nb, w2'. simpl. rewrite length_app. simpl. lia. }
      assert (Hinv4 : inv (nb w2 :: top :: rest') w4).
      { assert (G1 : base w2 top = Some ip).
        { destruct Hext2 as [[_ Hb] _]. now rewrite Hb. }
        assert (G2 : forall x ix, Ev_start_process x ix ∈ log w2 ->
                                  index_lt ix (fst args) = true).
        { intros x ix Hx. apply index_le_lt with l; [|assumption].
          apply (Hle' x). now apply Hst2. }
        assert (G3 : forall q iq, Ev_start_process q iq ∈ log w2 ->
                       q ∉ top :: rest' -> is_prefix iq (fst args) = false).
        { intros q iq Hq. apply Hclosed'. now apply Hst2. }
        assert (G4 : nb w4 = S (nb w2)) by congruence.
        assert (G5 : forall x, x < nb w2 -> base w4 x = base w2 x).
        { intros x Hx. rewrite Hbase3 by (unfold nb in *; lia).
          unfold base, w2'. simpl. now rewrite lookup_app_l. }
        assert (G6 : base w4 (nb w2) = Some (fst args)).
        { apply Hbase3'. unfold nb in *. lia. }
        exact (inv_push (top :: rest') w2 w4 (fst args) evs3 top rest' ip
                 Hinv2 eq_refl G1 Hpre G2 G3 G4 G5 G6 Hb3 Hlog3). }
      cbn [fst snd set_index set_branches branches index]. split.
      * split; [exact Hinv4|].
        exists (fst args). split; [reflexivity|]. right. split.
        -- intros x i Hx. rewrite Hlog3 in Hx.
           apply elem_of_app in Hx as [Hx|Hx].
           ++ apply index_le_lt_le with l; [|assumption].
              apply (Hle' x). now apply Hst2.
           ++ apply elem_of_cons in Hx as [Hx|Hx];
                [injection Hx as -> ->; apply index_le_refl|].
              now apply benign_not_elem_of in Hx.
        -- intros q iq Hq Hnot.
           apply not_elem_of_cons in Hnot as [Hqc Hnot].
           rewrite Hlog3 in Hq. apply elem_of_app in Hq as [Hq|Hq].
           ++ apply Hst2 in Hq.
              destruct (bnd_advance l (fst args) (top :: rest') w'
                          Hle' Hle Hclosed') as [_ H].
              exact (H q iq Hq Hnot).
           ++ apply elem_of_cons in Hq as [Hq|Hq];
                [injection Hq as -> ->; contradiction|].
              now apply benign_not_elem_of in Hq.
      * intros l0 [= <-]. split; [auto|]. intros _.
        exists (evs ++ [Ev_can_fast_process top (fst args)]
                    ++ Ev_start_process (length (heap w2)) (fst args) :: evs3).
        rewrite Hlog3. unfold w2'. cbn [log]. destruct Hext2 as [_ ->].
        rewrite Hlog', <- !app_assoc. split; [reflexivity|].
        apply Forall_app. split; [assumption|].
        constructor; [exact I|]. constructor; [exact I|assumption].
  - assert (Hben : Forall benign [Ev_warn (Warn_skipping (fst args))])
      by repeat constructor.
    pose proof (ext_emit (Ev_warn (Warn_skipping (fst args))) w') as Hext.
    cbn [fst snd set_index set_branches branches index]. split.
    + split.
      * apply (inv_benign _ w' _ _ Hinv' (proj1 Hext) (proj2 Hext) Hben).
      * exists (fst args). split; [reflexivity|]. right.
        apply (bnd_starts _ _ w').
        -- intros x i. apply (ext_benign_starts _ _ _ Hext Hben).
        -- now apply (bnd_advance l).
    + intros l0 [= <-]. split; [auto|]. intros _.
      exists (evs ++ [Ev_warn (Warn_skipping (fst args))]).
      unfold log_prev_error. destruct Hext as [_ ->].
      rewrite Hlog', app_assoc. split; [reflexivity|].
      apply Forall_app. split; [assumption|repeat constructor].
Qed.

Lemma first_call_good (args : Index * P) :
  good (call args ITR_init.1 ITR_init.2).1.2 (call args ITR_init.1 ITR_init.2).2
  /\ index (call args ITR_init.1 ITR_init.2).1.2 = Some (fst args)
  /\ Forall quiet (log (call args ITR_init.1 ITR_init.2).2).
Proof.
  unfold Lazy.call. cbn [ITR_init fst snd index root_branch].
  destruct (process_w_branch_spec (fst args) 0 args
              {| heap := [ITRBranch_new]; log := [] |})
    as (evs & Hb & Hq & Hnb & Hlog & _ & Hbase).
  set (w1 := process_w_branch _ _ _ _) in *.
  cbn [log app nb heap length] in *.
  cbn [set_index branches index]. split; [|split].
  - split; [apply (inv_first w1 (fst args) evs); auto|].
    exists (fst args). split; [reflexivity|]. right.
    assert (Hs : forall x i, Ev_start_process x i ∈ log w1 ->
                             x = 0 /\ i = fst args).
    { intros x i H. rewrite Hlog in H.
      apply elem_of_cons in H as [H|H]; [injection H; auto|].
      now apply benign_not_elem_of in H. }
    split.
    + intros b i H. apply Hs in H as [_ ->]. apply index_le_refl.
    + intros q iq H Hnot. apply Hs in H as [-> _].
      exfalso. apply Hnot, elem_of_cons. auto.
  - reflexivity.
  - rewrite Hlog. constructor; [exact I|assumption].
Qed.

Lemma strictly_increasing_cons (a : Index) (l : list Index) :
  strictly_increasing (a :: l) = true ->
  Forall (fun i => index_lt a i = true) l /\ strictly_increasing l = true.
Proof.
  revert a. induction l as [|b l IH]; intros a H; [auto|].
  cbn [strictly_increasing] in H. apply andb_true_iff in H as [Hab H].
  split; [|exact H]. constructor; [assumption|].
  destruct (IH b H) as [HF _]. eapply Forall_impl; [exact HF|].
  intros x Hx. simpl in Hx. now apply index_lt_lt with b.
Qed.

Lemma feed_good (entries : list (Index * P)) :
  forall itr w,
    good itr w ->
    good (feed entries itr w).1.2 (feed entries itr w).2
    /\ forall l,
         index itr = Some l ->
         Forall (fun i => index_lt l i = true) (map fst entries) ->
         strictly_increasing (map fst entries) = true ->
         exists evs, log (feed entries itr w).2 = log w ++ evs
                     /\ Forall quiet evs.
Proof.
  induction entries as [|args entries IH]; intros itr w Hgood.
  - cbn [Lazy.feed fst snd]. split; [assumption|].
    intros. exists []. now rewrite app_nil_r.
  - cbn [Lazy.feed].
    destruct (call_good args itr w Hgood) as [Hgood1 Hcall].
    destruct (call args itr w) as [[r itr1] w1]. cbn [fst snd] in *.
    destruct (IH itr1 w1 Hgood1) as [Hgood2 Hfeed].
    destruct (feed entries itr1 w1) as [[rs itr2] w2]. cbn [fst snd] in *.
    split; [assumption|].
    intros l Hl Hall Hinc. cbn [map] in Hall, Hinc.
    apply Forall_cons in Hall as [Hla Hall].
    apply strictly_increasing_cons in Hinc as [Hall' Hinc].
    destruct (Hcall l Hl) as [Hidx Hquiet].
    destruct (Hquiet Hla) as (evs1 & Hl1 & Hq1).
    assert (Hnext : exists l1, index itr1 = Some l1
              /\ Forall (fun i => index_lt l1 i = true) (map fst entries)).
    { destruct Hidx as [H|H]; eauto. }
    destruct Hnext as (l1 & Hl1' & Hall1).
    destruct (Hfeed l1 Hl1' Hall1 Hinc) as (evs2 & Hl2 & Hq2).
    exists (evs1 ++ evs2). rewrite Hl2, Hl1, app_assoc.
    split; [reflexivity|]. apply Forall_app. auto.
Qed.

Lemma Finish_loop_good (stk : list nat) :
  forall w,
    inv stk w -> stk <> [] ->
    inv [] (Finish_loop stk w).2
    /\ exists evs, log (Finish_loop stk w).2 = log w ++ evs
                   /\ Forall quiet evs.
Proof.
  induction stk as [|b rest IH]; intros w Hinv Hne; [contradiction|].
  cbn [Lazy.Finish_loop].
  destruct (inv_pop_step b rest w Hinv) as (Hinv1 & _ & evs1 & Hl1 & Hq1).
  unfold pop_step in *. destruct rest as [|p rest].
  - cbn [fst snd]. eauto.
  - destruct (IH _ Hinv1 ltac:(discriminate)) as (Hinv2 & evs2 & Hl2 & Hq2).
    split; [assumption|]. exists (evs1 ++ evs2).
    rewrite Hl2, Hl1, app_assoc. split; [reflexivity|].
    apply Forall_app. auto.
Qed.

Lemma inv_final (w : world) :
  inv [] w ->
  started_and_ended_once (log w) /\ merged_once_into_parent (log w)
  /\ post_order (log w).
Proof.
  intros Hinv.
  assert (Hended : forall b i, Ev_start_process b i ∈ log w ->
                               Ev_end_process b ∈ log w).
  { intros b i Hb. apply (ended_elem_of _ _ _ Hinv).
    - now apply (started_lt _ _ _ _ Hinv) in Hb.
    - apply not_elem_of_nil. }
  split; [|split; [|split]].
  - intros b i Hb. pose proof (started_lt _ _ _ _ Hinv Hb) as Hlt. split.
    + now apply (i_start1 _ _ Hinv).
    + apply (i_end1 _ _ Hinv); [assumption|apply not_elem_of_nil].
  - intros c Hc H0.
    assert (Hlt : c < nb w).
    { destruct (Nat.lt_ge_cases c (nb w)) as [|Hge]; [assumption|].
      exfalso. revert Hc. apply (count_zero (is_end c)).
      - apply (i_end0 _ _ Hinv). auto.
      - simpl. apply Nat.eqb_refl. }
    pose proof (i_merge1 _ _ Hinv c Hlt (not_elem_of_nil c) H0) as H1.
    split; [assumption|].
    destruct (count_pos (is_merge_of c) (log w)) as (e & He & Hf); [lia|].
    apply is_merge_of_true in Hf as [p ->].
    destruct (i_merge_base _ _ Hinv p c He) as (ip & ic & Hp & Hcs & Hpre & Hne).
    exists p, ip, ic. repeat (split; [assumption|]).
    intros q iq Hq Hqpre Hqne.
    apply list_elem_of_split in He as (l1 & l2 & Heq).
    destruct (i_near _ _ Hinv l1 l2 p c Heq) as (ip' & ic' & Hp' & Hc' & Hn).
    assert (Hsub : forall e, e ∈ l1 -> e ∈ log w).
    { intros e H. rewrite Heq. apply elem_of_app. auto. }
    assert (Hone : forall b i j, Ev_start_process b i ∈ log w ->
                     Ev_start_process b j ∈ log w -> i = j).
    { intros b i j Hi Hj. apply (start_unique (log w) b); auto.
      rewrite (i_start1 _ _ Hinv); [lia|].
      now apply (started_lt _ _ _ _ Hinv Hi). }
    assert (ip' = ip) as -> by (apply (Hone p); auto).
    assert (ic' = ic) as -> by (apply (Hone c); auto).
    rewrite Heq in Hq. apply elem_of_app in Hq as [Hq|Hq];
      [now apply (Hn q iq)|].
    apply elem_of_cons in Hq as [Hq|Hq]; [discriminate|].
    apply list_elem_of_split in Hq as (l3 & l4 & ->).
    exfalso.
    assert (Hcq : index_lt ic iq = true).
    { apply (i_sorted _ _ Hinv (l1 ++ Ev_branch_process p c :: l3) l4 q iq
               ltac:(rewrite Heq, <- app_assoc; reflexivity) c).
      apply elem_of_app. auto. }
    apply index_lt_not_le in Hcq. apply is_prefix_le in Hqpre. congruence.
  - intros l1 l2 p c Heq.
    destruct (i_merge_order _ _ Hinv l1 l2 p c Heq) as [H1 H2].
    split; [assumption|]. split; [assumption|].
    assert (Hm : Ev_branch_process p c ∈ log w).
    { rewrite Heq. apply elem_of_app. right. apply elem_of_cons. auto. }
    destruct (i_merge_base _ _ Hinv p c Hm) as (ip & ic & Hp & _).
    apply Hended in Hp. rewrite Heq in Hp.
    apply elem_of_app in Hp as [Hp|Hp]; [contradiction|].
    apply elem_of_cons in Hp as [Hp|Hp]; [discriminate|assumption].
  - intros q c iq ic Hq Hc Hne Hpre.
    destruct (list_elem_of_split _ _ (Hended q iq Hq)) as (l1 & l2 & Heq).
    exists l1, l2. split; [assumption|].
    exact (i_anc _ _ Hinv q c iq ic l1 l2 Hq Hc Hne Hpre Heq).
Qed.

Lemma quiet_none_refused (tr : list event) :
  Forall quiet tr -> none_refused tr.
Proof.
  intros H o n Hin. rewrite Forall_forall in H. exact (H _ Hin).
Qed.

(** The reduction of no entry at all: [Finish] ends the root, whose
    [start_process] was never called. *)
Lemma reduce_nil :
  started_and_ended_once (log (reduce []).2)
  /\ merged_once_into_parent (log (reduce []).2)
  /\ post_order (log (reduce []).2)
  /\ none_refused (log (reduce []).2).
Proof.
  unfold Lazy.reduce. cbn [ITR_init Lazy.feed Lazy.Finish Lazy.Finish_loop
                           branches fst snd].
  destruct (call_end_proc_ext 0 {| heap := [ITRBranch_new]; log := [] |})
    as (evs & Hb & Hq & _ & Hlog).
  set (w1 := call_end_proc 0 _) in *. cbn [log app] in Hlog.
  assert (Hs : forall e, structural e -> e ∈ log w1 -> e = Ev_end_process 0).
  { intros e He Hin. rewrite Hlog in Hin.
    apply elem_of_cons in Hin as [Hin|Hin]; [assumption|].
    now apply benign_not_elem_of in Hin. }
  assert (Hin : forall l1 l2 e, log w1 = l1 ++ e :: l2 -> e ∈ log w1).
  { intros l1 l2 e ->. apply elem_of_app. right. apply elem_of_cons. auto. }
  split; [|split; [|split; [split|]]].
  - intros b i H. apply Hs in H; [discriminate|exact I].
  - intros c H H0. apply Hs in H; [|exact I]. congruence.
  - intros l1 l2 p c Heq. apply Hin, Hs in Heq; [discriminate|exact I].
  - intros q c iq ic H. apply Hs in H; [discriminate|exact I].
  - apply quiet_none_refused. rewrite Hlog. constructor; [exact I|assumption].
Qed.

(** The log of a reduction of entries with strictly increasing indices:
    every branch that was opened has had one [start_process] and one
    [end_process]; every finished branch but the outermost was handed once
    to the [branch_process] of its parent; the calls come in a post-order of
    the tree of the indices; and no entry was refused as out of order. *)
Lemma reduce_log_order (entries : list (Index * P)) :
  strictly_increasing (map fst entries) = true ->
  started_and_ended_once (log (reduce entries).2)
  /\ merged_once_into_parent (log (reduce entries).2)
  /\ post_order (log (reduce entries).2)
  /\ none_refused (log (reduce entries).2).
Proof.
  intros Hinc. destruct entries as [|args entries]; [apply reduce_nil|].
  unfold Lazy.reduce.
  change ITR_init with (ITR_init.1, ITR_init.2). cbn [Lazy.feed].
  destruct (first_call_good args) as (Hgood1 & Hidx1 & Hq1).
  destruct (call args ITR_init.1 ITR_init.2) as [[r itr1] w1].
  cbn [fst snd] in *.
  destruct (feed_good entries itr1 w1 Hgood1) as [Hgood2 Hfeed].
  cbn [map] in Hinc. apply strictly_increasing_cons in Hinc as [Hall Hinc].
  destruct (Hfeed (fst args) Hidx1 Hall Hinc) as (evs2 & Hl2 & Hq2).
  destruct (feed entries itr1 w1) as [[rs itr2] w2]. cbn [fst snd] in *.
  destruct Hgood2 as [Hinv2 _]. unfold Lazy.Finish.
  assert (Hfin : inv [] (Finish_loop (branches itr2) w2).2
                 /\ Forall quiet (log (Finish_loop (branches itr2) w2).2)).
  { destruct (branches itr2) as [|b rest] eqn:Hstk.
    - cbn [Lazy.Finish_loop fst snd]. split; [assumption|].
      rewrite Hl2. apply Forall_app. auto.
    - destruct (Finish_loop_good (b :: rest) w2 Hinv2 ltac:(discriminate))
        as (Hinv3 & evs3 & Hl3 & Hq3).
      split; [assumption|]. rewrite Hl3, Hl2.
      repeat (apply Forall_app; split); auto. }
  destruct (Finish_loop (branches itr2) w2) as [[r3 bs3] w3].
  cbn [fst snd] in *. destruct Hfin as [Hinv3 Hq3].
  destruct (inv_final w3 Hinv3) as (H1 & H2 & H3).
  split; [exact H1|]. split; [exact H2|]. split; [exact H3|].
  now apply quiet_none_refused.
Qed.

(** The first call opens the root on the first index. *)
Lemma reduce_opens_root (entries : list (Index * P)) :
  strictly_increasing (map fst entries) = true ->
  opens_root (map fst entries) (log (reduce entries).2).
Proof.
  intros Hinc. destruct entries as [|args entries].
  { unfold Lazy.reduce. cbn [ITR_init Lazy.feed Lazy.Finish Lazy.Finish_loop
                             branches fst snd map opens_root].
    destruct (call_end_proc_ext 0 {| heap := [ITRBranch_new]; log := [] |})
      as (evs & Hb & _ & _ & Hlog).
    set (w1 := call_end_proc 0 _) in *. cbn [log app] in Hlog.
    intros b i Hin. rewrite Hlog in Hin.
    apply elem_of_cons in Hin as [Hin|Hin]; [discriminate|].
    now apply benign_not_elem_of in Hin. }
  cbn [map opens_root]. unfold Lazy.reduce.
  change ITR_init with (ITR_init.1, ITR_init.2). cbn [Lazy.feed].
  destruct (first_call_good args) as (Hgood1 & Hidx1 & _).
  assert (Hlog1 : exists evs,
             log (call args ITR_init.1 ITR_init.2).2
             = Ev_start_process 0 (fst args) :: evs).
  { unfold Lazy.call. cbn [ITR_init fst snd index root_branch].
    destruct (process_w_branch_spec (fst args) 0 args
                {| heap := [ITRBranch_new]; log := [] |})
      as (evs & _ & _ & _ & -> & _). cbn. eauto. }
  destruct (call args ITR_init.1 ITR_init.2) as [[r itr1] w1].
  cbn [fst snd] in *. destruct Hlog1 as (evs1 & Hl1).
  destruct (feed_good entries itr1 w1 Hgood1) as [Hgood2 Hfeed].
  cbn [map] in Hinc. apply strictly_increasing_cons in Hinc as [Hall Hinc].
  destruct (Hfeed (fst args) Hidx1 Hall Hinc) as (evs2 & Hl2 & _).
  destruct (feed entries itr1 w1) as [[rs itr2] w2]. cbn [fst snd] in *.
  destruct Hgood2 as [Hinv2 _]. unfold Lazy.Finish.
  assert (Hfin : exists evs3,
             log (Finish_loop (branches itr2) w2).2 = log w2 ++ evs3).
  { destruct (branches itr2) as [|b rest] eqn:Hstk.
    - exists []. cbn [Lazy.Finish_loop fst snd]. now rewrite app_nil_r.
    - destruct (Finish_loop_good (b :: rest) w2 Hinv2 ltac:(discriminate))
        as (_ & evs3 & Hl3 & _). eauto. }
  destruct (Finish_loop (branches itr2) w2) as [[r3 bs3] w3].
  cbn [fst snd] in *. destruct Hfin as (evs3 & Hl3).
  exists (evs1 ++ evs2 ++ evs3). rewrite Hl3, Hl2, Hl1.
  now rewrite <- !app_assoc.
Qed.

(** *** What the calls return *)

Lemma call_result (args : Index * P) (itr : IterTreeReducer) (w : world)
    (l r : Index) :
  good itr w -> index itr = Some l -> index_lt l (fst args) = true ->
  Ev_start_process 0 r ∈ log w ->
  (call args itr w).1.1
  = match branches itr with
    | [] => Raise IndexError
    | _ :: _ =>
        if is_prefix r (fst args) then Ret (Some 1%Z) else Ret None
    end.
Proof.
  intros [Hinv (l' & Hl' & Hbnd)] Hl Hlt Hr.
  rewrite Hl in Hl'. injection Hl' as <-.
  unfold Lazy.call. rewrite Hl, (index_lt_not_le _ _ Hlt).
  destruct (branches itr) as [|b rest] eqn:Hstk; [reflexivity|].
  destruct Hbnd as [H|Hbnd]; [discriminate|].
  pose proof (inv_finish_branches (fst args) (b :: rest) w Hinv
                (fun q iq Hq Hn => proj2 Hbnd q iq Hq Hn _ Hlt)
                ltac:(discriminate)) as Hff.
  destruct (finish_branches (fst args) (b :: rest) w) as [[res bs] w'].
  unfold finished_for in Hff. cbn [fst snd] in Hff.
  destruct Hff as (Hinv' & Hclosed' & Hstarts & _
                   & [[-> ->]|(top & rest' & ip & -> & -> & Hbase & Hpre)]).
  - cbn [fst snd]. replace (is_prefix r (fst args)) with false; [reflexivity|].
    symmetry. apply (Hclosed' 0 r); [now apply Hstarts|apply not_elem_of_nil].
  - assert (Hroot : is_prefix r (fst args) = true).
    { apply Hstarts in Hr.
      destruct (i_base _ _ Hinv' top) as (it & Hit & Hst);
        [apply list_elem_of_here|].
      rewrite Hbase in Hit. injection Hit as <-.
      pose proof (i_root _ _ Hinv' ltac:(discriminate)) as Hlast.
      destruct rest' as [|a rest''].
      - cbn in Hlast. injection Hlast as ->.
        assert (r = ip) as ->; [|assumption].
        eapply start_unique; [|exact Hr|exact Hst].
        rewrite (i_start1 _ _ Hinv'); [lia|].
        apply (i_lt _ _ Hinv'), list_elem_of_here.
      - rewrite last_cons_cons in Hlast. apply last_Some_elem_of in Hlast.
        destruct (i_chain _ _ Hinv') as [Hch _].
        destruct (Hch 0 ip r Hlast Hst Hr) as [Hp _].
        now apply is_prefix_trans with ip. }
    rewrite Hroot. cbn [set_branches branches].
    destruct (start_successful (get_branch w' top)); [|reflexivity].
    destruct (can_fast_process (log w') top args); reflexivity.
Qed.

Lemma call_log_grows (args : Index * P) (itr : IterTreeReducer) (w : world)
    (l : Index) (e : event) :
  good itr w -> index itr = Some l -> index_lt l (fst args) = true ->
  e ∈ log w -> e ∈ log (call args itr w).2.
Proof.
  intros Hgood Hl Hlt He.
  destruct (call_good args itr w Hgood) as [_ Hcall].
  destruct (Hcall l Hl) as [_ Hlog].
  destruct (Hlog Hlt) as (evs & -> & _). apply elem_of_app. now left.
Qed.

Lemma feed_results (entries : list (Index * P)) :
  forall itr w l r,
    good itr w -> index itr = Some l ->
    Forall (fun i => index_lt l i = true) (map fst entries) ->
    strictly_increasing (map fst entries) = true ->
    Ev_start_process 0 r ∈ log w ->
    (feed entries itr w).1.1
    = match branches itr with
      | [] => map (fun _ => Raise IndexError) (map fst entries)
      | _ :: _ => results_in_tree r (map fst entries)
      end.
Proof.
  induction entries as [|args entries IH]; intros itr w l r Hgood Hl Hall Hinc Hr.
  - cbn. now destruct (branches itr).
  - cbn [map] in Hall, Hinc. apply Forall_cons in Hall as [Hlt Hall].
    apply strictly_increasing_cons in Hinc as [Hall' Hinc].
    pose proof (call_result args itr w l r Hgood Hl Hlt Hr) as Hres.
    pose proof (call_log_grows args itr w l _ Hgood Hl Hlt Hr) as Hr'.
    pose proof (call_stack_empty args itr w) as Hemp.
    destruct (call_good args itr w Hgood) as [Hgood1 Hcall].
    destruct (Hcall l Hl) as [Hidx _].
    cbn [Lazy.feed map].
    destruct (call args itr w) as [[res itr1] w1]. cbn [fst snd] in *.
    assert (Hfeed : forall l1, index itr1 = Some l1 ->
              Forall (fun i => index_lt l1 i = true) (map fst entries)).
    { intros l1 Hl1. destruct Hidx as [H|H]; rewrite H in Hl1;
        injection Hl1 as <-; assumption. }
    assert (exists l1, index itr1 = Some l1) as [l1 Hl1]
      by (destruct Hidx; eauto).
    specialize (IH itr1 w1 l1 r Hgood1 Hl1 (Hfeed l1 Hl1) Hinc Hr').
    destruct (feed entries itr1 w1) as [[rs itr2] w2]. cbn [fst snd] in *.
    subst rs res.
    destruct (branches itr) as [|b rest].
    + destruct (branches itr1); [reflexivity|].
      destruct Hemp as [_ Hemp]. discriminate Hemp. now left.
    + cbn [results_in_tree]. destruct (is_prefix r (fst args)).
      * destruct (branches itr1) as [|b1 rest1]; [|reflexivity].
        destruct Hemp as [Hemp _]. destruct (Hemp eq_refl); discriminate.
      * destruct (branches itr1) as [|b1 rest1]; [reflexivity|].
        destruct Hemp as [_ Hemp]. discriminate Hemp. now right.
Qed.

(** What the calls of a new reducer return. *)
Lemma new_reducer_results (args : Index * P)
    (entries : list (Index * P)) :
  strictly_increasing (map fst (args :: entries)) = true ->
  (feed (args :: entries) ITR_init.1 ITR_init.2).1.1
  = Ret (Some 1%Z) :: results_in_tree (fst args) (map fst entries).
Proof.
  intros Hinc. cbn [map] in Hinc.
  apply strictly_increasing_cons in Hinc as [Hall Hinc].
  destruct (first_call_good args) as (Hgood & Hidx & _).
  assert (Hres : (call args ITR_init.1 ITR_init.2).1.1 = Ret (Some 1%Z))
    by reflexivity.
  assert (Hstk : branches (call args ITR_init.1 ITR_init.2).1.2 = [0])
    by reflexivity.
  assert (Hr : Ev_start_process 0 (fst args)
               ∈ log (call args ITR_init.1 ITR_init.2).2).
  { unfold Lazy.call. cbn [ITR_init fst snd index root_branch].
    destruct (process_w_branch_spec (fst args) 0 args
                {| heap := [ITRBranch_new]; log := [] |})
      as (evs & _ & _ & _ & -> & _). cbn. apply list_elem_of_here. }
  cbn [Lazy.feed].
  destruct (call args ITR_init.1 ITR_init.2) as [[res itr1] w1].
  cbn [fst snd] in *. subst res.
  pose proof (feed_results entries itr1 w1 _ _ Hgood Hidx Hall Hinc Hr) as H.
  destruct (feed entries itr1 w1) as [[rs itr2] w2]. cbn [fst snd] in *.
  rewrite H, Hstk. reflexivity.
Qed.

(** [IterTreeReducer.__call__], lazy.py 320-356, and [finish_branches],
    lazy.py 274-295: what the calls return for entries with strictly
    increasing indices given to a new reducer.  The first call returns 1;
    each later call returns 1 as long as the index of the first entry, the
    base index of the root branch, begins the index given; the first call
    with an index outside it returns [None]; every call after that raises
    [IndexError], at [branches[-1]] on the emptied stack. *)
Theorem calls_return_None_outside_root (args : Index * P)
    (entries : list (Index * P)) :
  strictly_increasing (map fst (args :: entries)) = true ->
  (feed (args :: entries) ITR_init.1 ITR_init.2).1.1
  = Ret (Some 1%Z) :: results_in_tree (fst args) (map fst entries).
Proof. apply new_reducer_results. Qed.

(** *** The flags of the branches *)

Lemma get_branch_update (b x : nat) (f : ITRBranch -> ITRBranch) (w : world) :
  get_branch (update_branch b f w) x
  = if decide (b = x /\ x < nb w) then f (get_branch w x) else get_branch w x.
Proof.
  unfold get_branch, update_branch, nb. cbn [heap].
  rewrite list_lookup_alter.
  destruct (decide (b = x)) as [->|Hne].
  - destruct (heap w !! x) as [br|] eqn:Hx; cbn.
    + rewrite decide_True; [reflexivity|].
      split; [reflexivity|]. apply lookup_lt_is_Some; eauto.
    + rewrite decide_False; [reflexivity|].
      apply lookup_ge_None in Hx. lia.
  - rewrite decide_False; [reflexivity|]. tauto.
Qed.

Lemma flags_kept_refl (w : world) : flags_kept w w.
Proof. split; [reflexivity|]. intros b. split; auto. Qed.

Lemma flags_kept_trans (w1 w2 w3 : world) :
  flags_kept w1 w2 -> flags_kept w2 w3 -> flags_kept w1 w3.
Proof.
  intros [Hn1 H1] [Hn2 H2]. split; [congruence|].
  intros b. destruct (H1 b), (H2 b). split; auto.
Qed.

Lemma flags_kept_emit (e : event) (w : world) : flags_kept w (emit e w).
Proof. split; [reflexivity|]. intros b. split; auto. Qed.

Lemma flags_kept_update (b : nat) (f : ITRBranch -> ITRBranch) (w : world) :
  (forall br, (finished br = true -> finished (f br) = true)
              /\ (start_successful br = true ->
                  start_successful (f br) = true)) ->
  flags_kept w (update_branch b f w).
Proof.
  intros Hf. split; [apply length_alter|].
  intros x. rewrite get_branch_update.
  destruct (decide _); [apply Hf|split; auto].
Qed.

Lemma plain_on_started (w : world) (evs : list event) :
  Forall plain evs -> Forall (on_started w) evs.
Proof.
  intros Hp. eapply Forall_impl; [exact Hp|].
  intros [] H; cbn in *; auto; contradiction.
Qed.

Lemma check_common_error_kept (b : nat) (fn : Index) (r : hook_result)
    (w : world) :
  flags_kept w (check_common_error b fn r w)
  /\ exists evs, log (check_common_error b fn r w) = log w ++ evs
                 /\ Forall plain evs.
Proof.
  destruct r; cbn [Lazy.check_common_error].
  - split; [apply flags_kept_refl|]. exists []. now rewrite app_nil_r.
  - unfold on_error. split.
    + eapply flags_kept_trans; [|apply flags_kept_emit].
      apply flags_kept_update. intros br. split; auto.
    + eexists. split; [reflexivity|]. repeat constructor.
Qed.

Lemma call_end_proc_kept (b : nat) (w : world) :
  flags_kept w (call_end_proc b w)
  /\ (b < nb w -> finished (get_branch (call_end_proc b w) b) = true)
  /\ exists evs, log (call_end_proc b w) = log w ++ evs /\ Forall plain evs.
Proof.
  unfold Lazy.call_end_proc.
  set (w1 := if finished (get_branch w b)
                || negb (start_successful (get_branch w b))
             then update_branch b set_caught_exception w else w).
  assert (H1 : flags_kept w w1 /\ log w1 = log w).
  { subst w1. destruct (_ || _); [|split; [apply flags_kept_refl|reflexivity]].
    split; [|reflexivity]. apply flags_kept_update. intros br. split; auto. }
  destruct H1 as [Hk1 Hl1].
  destruct (check_common_error_kept b [] (end_process (log w1) b)
              (emit (Ev_end_process b) w1)) as (Hk2 & evs & Hl2 & Hp).
  set (w2 := check_common_error b [] _ _) in *.
  assert (Hk : flags_kept w w2).
  { eapply flags_kept_trans; [exact Hk1|].
    eapply flags_kept_trans; [apply flags_kept_emit|exact Hk2]. }
  split; [|split].
  - eapply flags_kept_trans; [exact Hk|].
    apply flags_kept_update. intros br. split; auto.
  - intros Hb. rewrite get_branch_update, decide_True; [reflexivity|].
    split; [reflexivity|]. destruct Hk as [-> _]. exact Hb.
  - exists (Ev_end_process b :: evs). cbn [update_branch log].
    rewrite Hl2. cbn [emit log]. rewrite Hl1, <- app_assoc.
    split; [reflexivity|]. constructor; [exact I|exact Hp].
Qed.

Lemma process_w_branch_kept (i : Index) (b : nat) (args : Index * P)
    (w : world) :
  flags_kept w (process_w_branch i b args w)
  /\ exists evs, log (process_w_branch i b args w) = log w ++ evs
                 /\ Forall plain evs.
Proof.
  unfold Lazy.process_w_branch.
  destruct (check_common_error_kept b (fst args)
              (start_process (log w) b args)
              (emit (Ev_start_process b (fst args)) w)) as (Hk1 & evs & Hl1 & Hp).
  set (w1 := check_common_error b (fst args) _ _) in *.
  set (w2 := if negb (caught_exception (get_branch w1 b))
             then update_branch b set_start_successful w1 else w1).
  assert (H2 : flags_kept w1 w2 /\ log w2 = log w1).
  { subst w2. destruct (negb _); [|split; [apply flags_kept_refl|reflexivity]].
    split; [|reflexivity]. apply flags_kept_update. intros br. split; auto. }
  destruct H2 as [Hk2 Hl2]. split.
  - eapply flags_kept_trans; [apply flags_kept_emit|].
    eapply flags_kept_trans; [exact Hk1|].
    eapply flags_kept_trans; [exact Hk2|].
    apply flags_kept_update. intros br. split; auto.
  - exists (Ev_start_process b (fst args) :: evs). cbn [update_branch log].
    rewrite Hl2, Hl1. cbn [emit log]. rewrite <- app_assoc.
    split; [reflexivity|]. constructor; [exact I|exact Hp].
Qed.

Lemma on_started_kept (w w' : world) (evs : list event) :
  flags_kept w w' -> Forall (on_started w) evs -> Forall (on_started w') evs.
Proof.
  intros [_ Hk] Hp. eapply Forall_impl; [exact Hp|].
  intros [] H; cbn in *; auto; now apply Hk.
Qed.

Lemma ended_finished_kept (stk : list nat) (w w' : world) :
  flags_kept w w' -> ended_finished stk w -> ended_finished stk w'.
Proof.
  intros [Hn Hk] He b Hb Hs. apply Hk, He; [congruence|assumption].
Qed.

Lemma parents_started_step (stk : list nat) (w w' : world)
    (evs : list event) :
  flags_kept w w' -> log w' = log w ++ evs -> Forall (on_started w') evs ->
  parents_started stk w -> parents_started stk w'.
Proof.
  intros Hk Hl Hevs [Hp Hlog]. split.
  - intros p Hin. now apply Hk, Hp.
  - rewrite Hl. apply Forall_app. split; [|exact Hevs].
    now apply on_started_kept with w.
Qed.

(** The end of the branch on top of the stack keeps the two invariants. *)
Lemma pop_step_tidy (b : nat) (rest : list nat) (w : world) :
  parents_started (b :: rest) w -> ended_finished (b :: rest) w ->
  parents_started rest (pop_step b rest w)
  /\ ended_finished rest (pop_step b rest w).
Proof.
  intros Hps Hef.
  destruct (call_end_proc_kept b w) as (Hk & Hfin & evs & Hl & Hp).
  assert (Hps1 : parents_started (b :: rest) (call_end_proc b w)).
  { eapply parents_started_step; eauto. now apply plain_on_started. }
  assert (Hef1 : ended_finished rest (call_end_proc b w)).
  { intros x Hx Hs. destruct (decide (x = b)) as [->|Hne].
    - apply Hfin. destruct Hk as [<- _]. exact Hx.
    - apply Hk, Hef; [destruct Hk as [<- _]; exact Hx|].
      intros [->|H]%elem_of_cons; [congruence|contradiction]. }
  unfold LazyInv.pop_step. destruct rest as [|p rest'].
  - split; [|exact Hef1]. destruct Hps1 as [_ H].
    split; [intros p Hin; inversion Hin|exact H].
  - split; [|exact Hef1]. destruct Hps1 as [Hp1 Hl1]. split.
    + intros q Hq. apply Hp1. cbn in *. now apply list_elem_of_further.
    + unfold branch_process. cbn [emit log]. apply Forall_app.
      split; [exact Hl1|]. constructor; [|constructor].
      cbn. apply Hp1. cbn. apply list_elem_of_here.
Qed.

Lemma finish_branches_tidy (i : Index) (stk : list nat) :
  forall w,
    parents_started stk w -> ended_finished stk w ->
    parents_started (finish_branches i stk w).1.2 (finish_branches i stk w).2
    /\ ended_finished (finish_branches i stk w).1.2
         (finish_branches i stk w).2.
Proof.
  induction stk as [|b rest IH]; intros w Hps Hef;
    cbn [Lazy.finish_branches]; [now split|].
  destruct (base_index (get_branch w b)) as [ib|]; [|now split].
  destruct (negb _); [|now split].
  destruct (pop_step_tidy b rest w Hps Hef) as [Hps1 Hef1].
  unfold LazyInv.pop_step in *. destruct rest as [|p rest']; [now split|].
  now apply IH.
Qed.

Lemma Finish_loop_tidy (stk : list nat) :
  forall w,
    parents_started stk w -> ended_finished stk w ->
    (Finish_loop stk w).1.2 = []
    /\ parents_started [] (Finish_loop stk w).2
    /\ ended_finished [] (Finish_loop stk w).2.
Proof.
  induction stk as [|b rest IH]; intros w Hps Hef; cbn [Lazy.Finish_loop].
  - split; [reflexivity|]. split; [|exact Hef]. destruct Hps as [_ H].
    split; [intros p Hin; inversion Hin|exact H].
  - destruct (pop_step_tidy b rest w Hps Hef) as [Hps1 Hef1].
    unfold LazyInv.pop_step in *. destruct rest as [|p rest']; [now split|].
    now apply IH.
Qed.

Lemma get_branch_add (w : world) (x : nat) :
  get_branch {| heap := heap w ++ [ITRBranch_new]; log := log w |} x
  = get_branch w x.
Proof.
  unfold get_branch. cbn [heap].
  destruct (decide (x < length (heap w))) as [Hx|Hx].
  - now rewrite lookup_app_l.
  - rewrite (lookup_ge_None_2 (heap w)) by lia.
    destruct (decide (x = length (heap w))) as [->|Hne].
    + now rewrite list_lookup_middle.
    + rewrite lookup_ge_None_2; [reflexivity|].
      rewrite length_app. cbn. lia.
Qed.

Lemma call_tidy (args : Index * P) (itr : IterTreeReducer) (w : world) :
  parents_started (branches itr) w -> ended_finished (branches itr) w ->
  parents_started (branches (call args itr w).1.2) (call args itr w).2
  /\ ended_finished (branches (call args itr w).1.2) (call args itr w).2.
Proof.
  intros Hps Hef. unfold Lazy.call.
  destruct (index itr) as [self_index|].
  2: { cbn [fst snd set_index branches].
       destruct (process_w_branch_kept (fst args) (root_branch itr) args w)
         as (Hk & evs & Hl & Hp).
       split; [|now apply ended_finished_kept with w].
       eapply parents_started_step; eauto. now apply plain_on_started. }
  destruct (index_le (fst args) self_index).
  { cbn [fst snd]. split; [|exact Hef].
    eapply parents_started_step; [apply flags_kept_emit|reflexivity| |exact Hps].
    repeat constructor. }
  destruct (finish_branches_tidy (fst args) (branches itr) w Hps Hef)
    as [Hps1 Hef1].
  destruct (finish_branches (fst args) (branches itr) w) as [[r bs] w1].
  cbn [fst snd] in Hps1, Hef1.
  destruct r as [[z|]|e]; cbn [set_branches branches fst snd]; [|now split..].
  destruct bs as [|last_branch rest]; [now split|].
  destruct (start_successful (get_branch w1 last_branch)) eqn:Hss.
  - set (w2 := emit (Ev_can_fast_process last_branch (fst args)) w1).
    assert (Hps2 : parents_started (last_branch :: rest) w2).
    { eapply parents_started_step;
        [apply flags_kept_emit|reflexivity| |exact Hps1].
      constructor; [exact Hss|constructor]. }
    assert (Hef2 : ended_finished (last_branch :: rest) w2) by exact Hef1.
    destruct (can_fast_process (log w1) last_branch args).
    + cbn [fst snd set_index branches].
      set (w3 := emit (Ev_fast_process last_branch (fst args)) w2).
      destruct (check_common_error_kept last_branch (fst args)
                  (fast_process (log w2) last_branch args) w3)
        as (Hk & evs & Hl & Hp).
      assert (Hps3 : parents_started (last_branch :: rest) w3).
      { eapply parents_started_step;
          [apply flags_kept_emit|reflexivity| |exact Hps2].
        constructor; [exact Hss|constructor]. }
      split; [|now apply ended_finished_kept with w3].
      eapply parents_started_step; eauto. now apply plain_on_started.
    + cbn [add_branch fst snd set_index branches].
      set (w3 := {| heap := heap w2 ++ [ITRBranch_new]; log := log w2 |}).
      assert (Hps3 : parents_started (length (heap w2) :: last_branch :: rest)
                       w3).
      { destruct Hps2 as [Hp2 Hl2]. split.
        - intros p Hin. cbn [tl] in Hin. unfold w3. rewrite get_branch_add.
          apply elem_of_cons in Hin as [->|Hin]; [exact Hss|now apply Hp2].
        - cbn [log]. eapply Forall_impl; [exact Hl2|].
          intros [] H; cbn [on_started] in *; auto; unfold w3;
            now rewrite get_branch_add. }
      assert (Hef3 : ended_finished (length (heap w2) :: last_branch :: rest)
                       w3).
      { intros b Hb Hs. unfold w3. rewrite get_branch_add.
        apply not_elem_of_cons in Hs as [Hne Hs]. apply Hef2; [|exact Hs].
        unfold nb, w3 in *. cbn [heap] in Hb. rewrite length_app in Hb.
        cbn [length] in Hb. lia. }
      destruct (process_w_branch_kept (fst args) (length (heap w2)) args w3)
        as (Hk & evs & Hl & Hp).
      split; [|now apply ended_finished_kept with w3].
      eapply parents_started_step; eauto. now apply plain_on_started.
  - cbn [fst snd set_index branches]. split; [|exact Hef1].
    eapply parents_started_step;
      [apply flags_kept_emit|reflexivity| |exact Hps1].
    repeat constructor.
Qed.

Lemma feed_tidy (entries : list (Index * P)) :
  forall itr w,
    parents_started (branches itr) w -> ended_finished (branches itr) w ->
    parents_started (branches (feed entries itr w).1.2) (feed entries itr w).2
    /\ ended_finished (branches (feed entries itr w).1.2)
         (feed entries itr w).2.
Proof.
  induction entries as [|args entries IH]; intros itr w Hps Hef;
    cbn [Lazy.feed]; [now split|].
  destruct (call_tidy args itr w Hps Hef) as [Hps1 Hef1].
  destruct (call args itr w) as [[r itr1] w1]. cbn [fst snd] in *.
  destruct (IH itr1 w1 Hps1 Hef1) as [Hps2 Hef2].
  destruct (feed entries itr1 w1) as [[rs itr2] w2]. now split.
Qed.

Lemma reduce_tidy (entries : list (Index * P)) :
  branches (reduce entries).1 = []
  /\ parents_started [] (reduce entries).2
  /\ ended_finished [] (reduce entries).2.
Proof.
  unfold Lazy.reduce, Lazy.Finish.
  change ITR_init with (ITR_init.1, ITR_init.2).
  assert (Hps0 : parents_started (branches ITR_init.1) ITR_init.2).
  { split; [intros p Hin; inversion Hin|constructor]. }
  assert (Hef0 : ended_finished (branches ITR_init.1) ITR_init.2).
  { intros b Hb Hs. cbn in *. exfalso. apply Hs.
    replace b with 0 by (unfold nb in Hb; cbn in Hb; lia).
    apply list_elem_of_here. }
  destruct (feed_tidy entries _ _ Hps0 Hef0) as [Hps1 Hef1].
  destruct (feed entries ITR_init.1 ITR_init.2) as [[rs itr1] w1].
  cbn [fst snd] in *.
  destruct (Finish_loop_tidy (branches itr1) w1 Hps1 Hef1) as (Hs & Hps2 & Hef2).
  destruct (Finish_loop (branches itr1) w1) as [[r bs] w2].
  cbn [fst snd set_branches branches] in *. now split.
Qed.

(** [Finish], lazy.py 311-318, with [call_end_proc], lazy.py 372-381:
    whatever entries were given, in whatever order, and whatever the hooks
    did, after [Finish] the stack of branches is empty and every branch
    that was created is finished. *)
Theorem Finish_leaves_all_finished (entries : list (Index * P)) :
  branches (reduce entries).1 = []
  /\ Forall (fun br => finished br = true) (heap (reduce entries).2).
Proof.
  destruct (reduce_tidy entries) as (Hs & _ & Hef). split; [exact Hs|].
  apply Forall_lookup_2. intros b br Hb.
  specialize (Hef b). unfold get_branch in Hef. rewrite Hb in Hef.
  apply Hef; [|apply not_elem_of_nil].
  apply lookup_lt_is_Some. eauto.
Qed.

(** [__call__], lazy.py 344-353: a branch whose [start_process] has not
    succeeded gets nothing to process.  Whatever entries were given, in
    whatever order, and whatever the hooks did: every branch that was
    handed a finished branch by [branch_process], or was asked by
    [can_fast_process] or [fast_process] to take an entry, has
    [start_successful] set. *)
Theorem only_started_branches_process (entries : list (Index * P)) :
  Forall (on_started (reduce entries).2) (log (reduce entries).2).
Proof. now destruct (reduce_tidy entries) as (_ & [_ H] & _). Qed.

(** *** A root that could not be started *)

Lemma call_end_proc_root (w : world) (br : ITRBranch) :
  heap w = [br] -> start_successful br = false ->
  Forall root_event (log w) ->
  (exists br', heap (call_end_proc 0 w) = [br']
               /\ start_successful br' = false)
  /\ Forall root_event (log (call_end_proc 0 w)).
Proof.
  intros Hh Hss Hlog.
  assert (Hg : get_branch w 0 = br) by (unfold get_branch; now rewrite Hh).
  unfold Lazy.call_end_proc. rewrite Hg, Hss, orb_true_r.
  unfold update_branch, emit, check_common_error, on_error, update_branch,
    emit. cbn [heap log]. rewrite Hh.
  destruct (end_process (log w) 0); cbn.
  - split; [eauto|]. apply Forall_app. split; [exact Hlog|].
    repeat constructor.
  - split; [eauto|]. rewrite <- app_assoc. apply Forall_app.
    split; [exact Hlog|]. repeat constructor.
Qed.

Lemma call_root_failed (args : Index * P) (itr : IterTreeReducer)
    (w : world) :
  root_failed itr w -> root_failed (call args itr w).1.2 (call args itr w).2.
Proof.
  intros (Hstk & Hidx & (br & Hh & Hss) & Hlog). unfold Lazy.call.
  destruct (index itr) as [self_index|] eqn:Hi; [|contradiction].
  destruct (index_le (fst args) self_index).
  { cbn [fst snd]. split; [exact Hstk|]. split; [congruence|].
    split; [eauto|]. cbn. apply Forall_app. split; [exact Hlog|].
    repeat constructor. }
  destruct Hstk as [-> | ->]; cbn [Lazy.finish_branches].
  2: { cbn [fst snd set_branches branches index]. split; [now right|].
       split; [cbn [set_branches set_index index]; rewrite ?Hi; discriminate|]. split; [eauto|exact Hlog]. }
  assert (Hg : get_branch w 0 = br) by (unfold get_branch; now rewrite Hh).
  rewrite Hg. destruct (base_index br) as [ib|].
  2: { cbn [fst snd set_branches branches index]. split; [now left|].
       split; [cbn [set_branches set_index index]; rewrite ?Hi; discriminate|]. split; [eauto|exact Hlog]. }
  destruct (negb _).
  - destruct (call_end_proc_root w br Hh Hss Hlog) as (Hh' & Hlog').
    cbn [fst snd set_branches branches index]. split; [now right|].
    split; [cbn [set_branches set_index index]; rewrite ?Hi; discriminate|]. split; assumption.
  - cbn [fst snd set_branches branches index]. rewrite Hg, Hss.
    cbn [fst snd set_index branches index]. split; [now left|].
    split; [cbn [set_branches set_index index]; rewrite ?Hi; discriminate|]. split; [eauto|]. cbn.
    apply Forall_app. split; [exact Hlog|]. repeat constructor.
Qed.

Lemma feed_root_failed (entries : list (Index * P)) :
  forall itr w,
    root_failed itr w ->
    root_failed (feed entries itr w).1.2 (feed entries itr w).2.
Proof.
  induction entries as [|args entries IH]; intros itr w H;
    cbn [Lazy.feed]; [exact H|].
  pose proof (call_root_failed args itr w H) as H1.
  destruct (call args itr w) as [[r itr1] w1]. cbn [fst snd] in *.
  specialize (IH itr1 w1 H1).
  now destruct (feed entries itr1 w1) as [[rs itr2] w2].
Qed.

(** [process_w_branch], lazy.py 303-309, and [__call__], lazy.py 344-353:
    when the [start_process] of the root branch fails on the first entry,
    nothing else is processed.  Whatever entries follow: no other branch is
    created, and beside the start and the end of the root only warnings are
    logged: no [can_fast_process], no [fast_process], no [branch_process]. *)
Theorem failed_root_skips_everything (args : Index * P)
    (entries : list (Index * P)) :
  start_process [] 0 args = Fails ->
  nb (reduce (args :: entries)).2 = 1
  /\ Forall root_event (log (reduce (args :: entries)).2).
Proof.
  intros Hfail. unfold Lazy.reduce, Lazy.Finish.
  change ITR_init with (ITR_init.1, ITR_init.2). cbn [Lazy.feed].
  assert (H1 : root_failed (call args ITR_init.1 ITR_init.2).1.2
                 (call args ITR_init.1 ITR_init.2).2).
  { unfold Lazy.call, Lazy.process_w_branch. cbn [ITR_init fst snd index
      root_branch log heap]. rewrite Hfail.
    split; [now left|]. split; [discriminate|]. split.
    - eexists. split; reflexivity.
    - repeat constructor. }
  destruct (call args ITR_init.1 ITR_init.2) as [[r itr1] w1].
  cbn [fst snd] in *.
  pose proof (feed_root_failed entries itr1 w1 H1) as H2.
  destruct (feed entries itr1 w1) as [[rs itr2] w2]. cbn [fst snd] in *.
  destruct H2 as (Hstk & _ & (br & Hh & Hss) & Hlog).
  destruct Hstk as [-> | ->]; cbn [Lazy.Finish_loop fst snd].
  - destruct (call_end_proc_root w2 br Hh Hss Hlog) as ((br' & Hh' & _) & Hl').
    split; [|exact Hl']. unfold nb. now rewrite Hh'.
  - split; [|exact Hlog]. unfold nb. now rewrite Hh.
Qed.

End Reducer.

Lemma out_of_order_entry_dropped_witness :
  call (fun _ _ _ => Returns) (fun _ _ => Returns) (fun _ _ _ => false)
       (fun _ _ _ => Returns) (["a"], tt)
       {| index := Some ["a"; "b"]; root_branch := 0; branches := [0] |}
       {| heap := [ITRBranch_new]; log := [] |}
  = (Ret (Some 1%Z),
     {| index := Some ["a"; "b"]; root_branch := 0; branches := [0] |},
     {| heap := [ITRBranch_new];
        log := [] ++ [Ev_warn (Warn_oldindex ["a"; "b"] ["a"])] |}).
Proof.
  apply (out_of_order_entry_dropped
           (fun _ _ _ => Returns) (fun _ _ => Returns) (fun _ _ _ => false)
           (fun _ _ _ => Returns) (["a"], tt)
           {| index := Some ["a"; "b"]; root_branch := 0; branches := [0] |}
           {| heap := [ITRBranch_new]; log := [] |} ["a"; "b"]);
    reflexivity.
Defined.

Example stub_reduce_log :
  log (stub_reduce [[]; ["a"]; ["a"; "b"]; ["c"]]).2
  = [Ev_start_process 0 []; Ev_can_fast_process 0 ["a"];
     Ev_start_process 1 ["a"]; Ev_can_fast_process 1 ["a"; "b"];
     Ev_start_process 2 ["a"; "b"]; Ev_end_process 2;
     Ev_branch_process 1 2; Ev_end_process 1; Ev_branch_process 0 1;
     Ev_can_fast_process 0 ["c"]; Ev_start_process 3 ["c"];
     Ev_end_process 3; Ev_branch_process 0 3; Ev_end_process 0].
Proof. reflexivity. Qed.

(** When the indices leave the tree of the first one, the call that unwinds
    the root returns [None]; the next call and [Finish] then raise
    [IndexError] on the empty stack. *)
Example unwound_past_the_root :
  (feed (fun _ _ _ => Returns) (fun _ _ => Returns) (fun _ _ _ => false)
        (fun _ _ _ => Returns)
        [(["a"], tt); (["a"; "x"], tt); (["b"], tt); (["c"], tt)]
        ITR_init.1 ITR_init.2).1.1
  = [Ret (Some 1%Z); Ret (Some 1%Z); Ret None; Raise IndexError]
  /\ log (stub_reduce [["a"]; ["a"; "x"]; ["b"]; ["c"]]).2
     = [Ev_start_process 0 ["a"]; Ev_can_fast_process 0 ["a"; "x"];
        Ev_start_process 1 ["a"; "x"]; Ev_end_process 1;
        Ev_branch_process 0 1; Ev_end_process 0].
Proof. split; reflexivity. Qed.

Lemma calls_return_None_outside_root_witness :
  (feed (fun _ _ _ => Returns) (fun _ _ => Returns) (fun _ _ _ => false)
        (fun _ _ _ => Returns)
        [(["a"], tt); (["a"; "x"], tt); (["b"], tt); (["c"], tt)]
        ITR_init.1 ITR_init.2).1.1
  = Ret (Some 1%Z) :: results_in_tree ["a"] [["a"; "x"]; ["b"]; ["c"]].
Proof.
  apply (calls_return_None_outside_root
           (fun _ _ _ => Returns) (fun _ _ => Returns) (fun _ _ _ => false)
           (fun _ _ _ => Returns)
           (["a"], tt) [(["a"; "x"], tt); (["b"], tt); (["c"], tt)]).
  reflexivity.
Defined.

Lemma failed_root_skips_everything_witness :
  nb (reduce (fun _ _ _ => Fails) (fun _ _ => Returns) (fun _ _ _ => true)
             (fun _ _ _ => Returns)
             [(["a"], tt); (["a"; "x"], tt); (["a"; "y"], tt)]).2 = 1
  /\ Forall root_event
       (log (reduce (fun _ _ _ => Fails) (fun _ _ => Returns)
                    (fun _ _ _ => true) (fun _ _ _ => Returns)
                    [(["a"], tt); (["a"; "x"], tt); (["a"; "y"], tt)]).2).
Proof.
  apply (failed_root_skips_everything
           (fun _ _ _ => Fails) (fun _ _ => Returns) (fun _ _ _ => true)
           (fun _ _ _ => Returns)
           (["a"], tt) [(["a"; "x"], tt); (["a"; "y"], tt)]).
  reflexivity.
Defined.

End LazyProps.

(** * More of [Iter.multiplex] *)

Module MultiplexProps.
Import Lazy LazyInv LazyProps.

Section Runs.

Context {A : Type}.

Lemma final_calls_app (l1 l2 : list (mux_event A)) :
  final_calls (l1 ++ l2) = final_calls l1 ++ final_calls l2.
Proof.
  induction l1 as [|[|x] l1 IH]; cbn; [reflexivity|exact IH|now rewrite IH].
Qed.

Lemma refill_content (source : list A) (m : multiplex_state A)
    (x : A) (rest : list A) :
  mux_content source m -> mx_iter m = x :: rest ->
  length (mx_iter m) <= length source ->
  mux_content source (refill m).2.
Proof.
  intros [Hit Hbuf Hfin] Hx Hlen.
  assert (Hsrc : source !! pulled_count source m = Some x).
  { rewrite <- (Nat.add_0_r (pulled_count source m)), <- lookup_drop, <- Hit.
    now rewrite Hx. }
  assert (Hdrop : drop (S (pulled_count source m)) source = rest).
  { pose proof (drop_S _ _ _ Hsrc) as H. rewrite <- Hit, Hx in H. congruence. }
  unfold refill. rewrite Hx. cbn [snd].
  assert (HP : forall m', mx_iter m' = rest ->
                 pulled_count source m' = S (pulled_count source m)).
  { unfold pulled_count. intros m' ->. rewrite Hx in *. cbn in *. lia. }
  split; cbn [mx_iter mx_buffer mx_log]; rewrite !HP by reflexivity.
  - now rewrite Hdrop.
  - intros [|i] Hi; cbn in *.
    + rewrite <- Hsrc. f_equal. lia.
    + rewrite Hbuf by lia. f_equal. lia.
  - rewrite Hfin. cbn [length]. f_equal.
Qed.

Lemma take_content (source : list A) (cs : list nat) (m : multiplex_state A)
    (k c : nat) :
  mux_inv source cs m -> mux_content source m ->
  cs !! k = Some c -> c < pulled_count source m ->
  (exists x, (take k m).1 = Item x /\ source !! c = Some x)
  /\ mux_content source (take k m).2
  /\ mx_iter (take k m).2 = mx_iter m.
Proof.
  intros Hinv [Hci Hcb Hcf] Hk Hlt.
  destruct (take_item source cs m k c Hinv Hk Hlt) as ((x' & Hx') & _ & _).
  destruct Hinv as [Hst Hfl Hfin Hit Hfp Hle Hbuf].
  destruct Hbuf as [->|(cmin & Hin & Hall & Hlen)]; [discriminate|].
  assert (Hck : cmin <= c) by exact (Forall_lookup_1 _ _ _ _ Hall Hk).
  set (P := pulled_count source m) in *.
  assert (Hpos : forkposition m !! k = Some (pos_of P c)).
  { rewrite Hfp. change (map ?f ?l) with (f <$> l).
    now rewrite list_lookup_fmap, Hk. }
  assert (Hnn : (0 <= pos_of P c)%Z) by (unfold pos_of; lia).
  assert (Hidx : Z.to_nat (pos_of P c) = P - 1 - c) by (unfold pos_of; lia).
  destruct (lookup_lt_is_Some_2 (mx_buffer m) (P - 1 - c)) as [v Hv]; [lia|].
  assert (Hvc : source !! c = Some v).
  { rewrite <- Hv, Hcb by lia. f_equal. lia. }
  assert (Hlast : (Z.of_nat (length (mx_buffer m)) - 1 = pos_of P cmin)%Z)
    by (unfold pos_of; lia).
  assert (Hlidx : Z.to_nat (pos_of P cmin) = length (mx_buffer m) - 1)
    by (unfold pos_of; lia).
  assert (Hpc : forall m', mx_iter m' = mx_iter m ->
                  pulled_count source m' = P)
    by (unfold P, pulled_count; now intros m' ->).
  revert Hx'. unfold take.
  rewrite Hpos, py_nth_nonneg, Hidx, Hv by assumption. cbv zeta.
  rewrite Hlast, (py_nth_nonneg _ (pos_of P cmin)), Hlidx
    by (unfold pos_of; lia).
  destruct (Z_mem _ _); cbn [negb fst snd].
  - intros _. split; [eauto|]. split; [|reflexivity].
    split; cbn [mx_iter mx_buffer mx_log]; rewrite ?Hpc by reflexivity; auto.
  - destruct (negb _); cbn [fst snd]; [discriminate|].
    destruct (mx_buffer m !! (length (mx_buffer m) - 1)) as [lst|] eqn:Hl;
      cbn [fst snd]; [intros _|discriminate].
    assert (Hls : source !! (P - length (mx_buffer m)) = Some lst).
    { rewrite <- Hl, Hcb by lia. f_equal. lia. }
    split; [eauto|]. split; [|reflexivity].
    split; cbn [mx_iter mx_buffer mx_log]; rewrite ?Hpc by reflexivity; auto.
    + intros i Hi. rewrite length_removelast' in Hi.
      rewrite removelast_firstn_len, lookup_take_lt by lia.
      apply Hcb. lia.
    + rewrite final_calls_app, Hcf, length_removelast'. cbn [final_calls].
      replace (P - pred (length (mx_buffer m)))
        with (S (P - length (mx_buffer m))) by lia.
      symmetry. now apply take_S_r.
Qed.

Lemma get_next_content_item (source : list A) (cs : list nat)
    (m : multiplex_state A) (k c : nat) :
  mux_inv source cs m -> mux_content source m ->
  cs !! k = Some c -> c < length source ->
  (exists x, (get_next k m).1 = Item x /\ source !! c = Some x)
  /\ mux_content source (get_next k m).2
  /\ (pulled_count source m ∈ cs ->
      pulled_count source (get_next k m).2 ∈ <[k := S c]> cs).
Proof.
  intros Hinv Hcon Hk Hc. pose proof Hinv as [Hst Hfl Hfin Hit Hfp Hle Hbuf].
  pose proof (Forall_lookup_1 _ _ _ _ Hle Hk) as HcP. cbn in HcP.
  assert (Hkn : k < length cs) by (apply lookup_lt_is_Some; eauto).
  unfold get_next. rewrite Hfp. change (map ?f ?l) with (f <$> l).
  rewrite list_lookup_fmap, Hk. cbn [fmap option_fmap option_map].
  destruct (Z.eqb_spec (pos_of (pulled_count source m) c) (-1)) as [He|Hne].
  - assert (c = pulled_count source m) as -> by (unfold pos_of in He; lia).
    destruct (mx_iter m) as [|x rest] eqn:Hx.
    { unfold pulled_count in Hc. rewrite Hx in Hc. cbn in Hc. lia. }
    destruct (refill_item source cs m x rest Hinv Hx)
      as (Hr & Hinv1 & HP1 & Hfin1 & Hlog1).
    assert (Hcon1 : mux_content source (refill m).2).
    { eapply refill_content; eauto. now rewrite Hx. }
    destruct (refill m) as [r m1]. cbn [fst snd] in *. subst r.
    destruct (take_content source cs m1 k _ Hinv1 Hcon1 Hk)
      as (Hx' & Hcon2 & Hit2); [lia|].
    split; [exact Hx'|]. split; [exact Hcon2|]. intros _.
    unfold pulled_count in *. rewrite Hit2, HP1.
    eapply list_elem_of_lookup_2. now apply list_lookup_insert_eq.
  - destruct (take_content source cs m k c Hinv Hcon Hk)
      as (Hx' & Hcon2 & Hit2); [unfold pos_of in Hne; lia|].
    split; [exact Hx'|]. split; [exact Hcon2|]. intros HP.
    unfold pulled_count in *. rewrite Hit2.
    apply list_elem_of_lookup_1 in HP as [j Hj].
    eapply list_elem_of_lookup_2 with (i := j).
    rewrite list_lookup_insert_ne; [exact Hj|].
    intros ->. rewrite Hk in Hj. injection Hj as ->.
    unfold pos_of in Hne. lia.
Qed.

Lemma get_next_content_stop (source : list A) (cs : list nat)
    (m : multiplex_state A) (k : nat) :
  mux_inv source cs m -> mux_content source m ->
  cs !! k = Some (length source) ->
  mux_content source (get_next k m).2
  /\ pulled_count source (get_next k m).2 = pulled_count source m.
Proof.
  intros Hinv [Hci Hcb Hcf] Hk.
  pose proof Hinv as [Hst Hfl Hfin Hit Hfp Hle Hbuf].
  pose proof (Forall_lookup_1 _ _ _ _ Hle Hk) as HcP. cbn in HcP.
  assert (HP : pulled_count source m = length source)
    by (unfold pulled_count in *; lia).
  assert (Hnil : mx_iter m = []).
  { unfold pulled_count in HP. destruct (mx_iter m); [reflexivity|].
    cbn in *. destruct source; cbn in *; lia. }
  unfold get_next. rewrite Hfp. change (map ?f ?l) with (f <$> l).
  rewrite list_lookup_fmap, Hk. cbn [fmap option_fmap option_map].
  replace (pos_of (pulled_count source m) (length source) =? -1)%Z with true
    by (symmetry; apply Z.eqb_eq; unfold pos_of; lia).
  unfold refill. rewrite Hnil.
  destruct (_ && _); cbn [fst snd]; [|now split].
  assert (HP' : forall m', mx_iter m' = [] ->
                  pulled_count source m' = pulled_count source m)
    by (unfold pulled_count; intros ? ->; now rewrite Hnil).
  split; [|now apply HP'].
  split; cbn [mx_iter mx_buffer mx_log]; rewrite ?HP' by reflexivity; auto.
  - now rewrite <- Hnil.
  - rewrite final_calls_app. cbn. now rewrite app_nil_r.
Qed.

Lemma mux_content_finished (source : list A) (m : multiplex_state A)
    (fin : list bool) :
  mux_content source m ->
  mux_content source
    {| mx_iter := mx_iter m; mx_buffer := mx_buffer m;
       starting_forkposition := starting_forkposition m;
       forkposition := forkposition m;
       called_closing_func := called_closing_func m;
       mx_finished := fin; mx_log := mx_log m |}.
Proof. intros [H1 H2 H3]. split; assumption. Qed.

Lemma fork_next_content (source : list A) (n : nat)
    (tr : list (nat * pulled A)) (m : multiplex_state A) (k : nat) :
  reached source n tr m -> reached_content source n tr m ->
  (fork_next k m).1 = like_source source n tr k
  /\ reached_content source n (tr ++ [(k, (fork_next k m).1)])
       (fork_next k m).2.
Proof.
  intros [Hinv Hfin] (Hcon & Hmax & Hpre & Hall).
  pose proof (mi_fin _ _ _ Hinv) as Hlen.
  rewrite consumed_of_length in Hlen. unfold fork_next, like_source.
  destruct (Nat.leb_spec n k) as [Hk|Hk].
  { rewrite lookup_ge_None_2 by lia. cbn [fst snd]. split; [reflexivity|].
    split; [exact Hcon|].
    rewrite consumed_of_snoc_other by reflexivity. split; [exact Hmax|].
    split; intros j Hj; rewrite ?yields_snoc, ?drained_snoc, ?app_nil_r,
      ?orb_false_r; auto. }
  rewrite (Hfin k Hk). destruct (drained k tr) eqn:Hd.
  - cbn [fst snd]. split; [reflexivity|]. split; [exact Hcon|].
    rewrite consumed_of_snoc_other by reflexivity. split; [exact Hmax|].
    split; intros j Hj; rewrite ?yields_snoc, ?drained_snoc, ?app_nil_r; auto.
    destruct (Nat.eqb_spec j k) as [->|];
      rewrite ?orb_false_r; auto.
  - pose proof (consumed_of_lookup n k tr Hk) as Hck.
    pose proof (Forall_lookup_1 _ _ _ _ (mi_le _ _ _ Hinv) Hck) as Hle.
    cbn in Hle.
    assert (HP : pulled_count source m <= length source)
      by (unfold pulled_count; lia).
    destruct Hmax as [->|Hmax]; [lia|].
    destruct (decide (length (yields k tr) < length source)) as [Hlt|Hge].
    + destruct (get_next_content_item source _ m k _ Hinv Hcon Hck Hlt)
        as ((x & Hx & Hsx) & Hcon' & Hmax').
      destruct (get_next k m) as [r m1]. cbn [fst snd] in *. subst r.
      cbn [is_item fst snd]. rewrite Hsx. split; [reflexivity|].
      split; [exact Hcon'|]. rewrite consumed_of_snoc_item.
      split; [right; auto|].
      split; intros j Hj; rewrite ?yields_snoc, ?drained_snoc, ?orb_false_r.
      * destruct (Nat.eqb_spec j k) as [->|]; [|rewrite app_nil_r; auto].
        rewrite length_app. cbn [length].
        rewrite Nat.add_1_r, (take_S_r _ _ _ Hsx). f_equal. auto.
      * destruct (Nat.eqb_spec j k) as [->|]; [congruence|].
        rewrite app_nil_r. auto.
    + assert (length (yields k tr) = length source) as Heq by lia.
      rewrite Heq in Hck.
      destruct (get_next_content_stop source _ m k Hinv Hcon Hck)
        as (Hcon' & HP').
      destruct (get_next_stop source _ m k Hinv Hck) as (Hr & _).
      destruct (get_next k m) as [r m1]. cbn [fst snd] in *. subst r.
      cbn [is_item fst snd].
      rewrite Heq, (lookup_ge_None_2 source) by lia. split; [reflexivity|].
      split; [now apply mux_content_finished|].
      rewrite consumed_of_snoc_other by reflexivity.
      split; [right; unfold pulled_count in *; cbn [mx_iter]; now rewrite HP'|].
      split; intros j Hj; rewrite ?yields_snoc, ?drained_snoc, ?app_nil_r;
        auto.
      destruct (Nat.eqb_spec j k) as [->|];
        rewrite ?orb_false_r; auto.
Qed.

Lemma reached_content_init (source : list A) (n : nat) :
  reached_content source n [] (multiplex source n).
Proof.
  assert (HP : pulled_count source (multiplex source n) = 0)
    by (unfold pulled_count; cbn; lia).
  split; [|split; [|split]].
  - split; rewrite ?HP; cbn; auto. intros; lia.
  - destruct n as [|n]; [now left|right]. rewrite HP.
    eapply list_elem_of_lookup_2 with (i := 0).
    rewrite consumed_of_lookup by lia. reflexivity.
  - reflexivity.
  - discriminate.
Qed.

Lemma run_forks_content (source : list A) (n : nat) (sched : list nat) :
  reached_content source n (run_forks sched (multiplex source n)).1
    (run_forks sched (multiplex source n)).2.
Proof.
  induction sched as [|k sched IH] using rev_ind;
    [apply reached_content_init|].
  rewrite run_forks_snoc. cbn [fst snd].
  apply fork_next_content; [apply run_forks_reached|exact IH].
Qed.

(** A request after a run of the forks gets what the reference behaviour
    says. *)
Lemma fork_next_run (source : list A) (n : nat) (sched : list nat)
    (k : nat) :
  (fork_next k (run_forks sched (multiplex source n)).2).1
  = like_source source n (run_forks sched (multiplex source n)).1 k.
Proof.
  apply fork_next_content; [apply run_forks_reached|apply run_forks_content].
Qed.

(** [Iter.multiplex], lazy.py 177-207: what a request gets.  After any
    run of the forks, a request of the fork [k] returns the element of the
    source after those the fork has received.  The first request of the
    fork at the end of the source raises [RuntimeError], the
    [StopIteration] of [get_next] having left the generator, and every
    request after that raises [StopIteration].  The assertion of
    [get_next] and the indexing of the buffer never fail; only a fork
    number out of range raises [IndexError]. *)
Theorem multiplex_request_like_source (source : list A) (n : nat)
    (sched : list nat) (k : nat) :
  (fork_next k (run_forks sched (multiplex source n)).2).1
  = like_source source n (run_forks sched (multiplex source n)).1 k.
Proof. apply fork_next_run. Qed.

(** [Iter.multiplex]: whatever the interleaving of the requests, a fork
    has received a beginning of the source, in order, as long as the number
    of its successful requests; once one of its requests has met the end of
    the iteration it has received the whole source. *)
Theorem multiplex_forks_yield_source (source : list A) (n : nat)
    (sched : list nat) (k : nat) :
  k < n ->
  yields k (run_forks sched (multiplex source n)).1
  = firstn (length (yields k (run_forks sched (multiplex source n)).1)) source
  /\ (drained k (run_forks sched (multiplex source n)).1 = true ->
      yields k (run_forks sched (multiplex source n)).1 = source).
Proof.
  intros Hk.
  destruct (run_forks_content source n sched) as (_ & _ & Hpre & Hall).
  split; [now apply Hpre|]. intros Hd.
  rewrite (Hpre k Hk), (Hall k Hk Hd). apply firstn_all.
Qed.

Lemma fewest_spec (cs : list nat) (cmin : nat) :
  cmin ∈ cs -> Forall (fun c => cmin <= c) cs -> fewest cs = cmin.
Proof.
  destruct cs as [|c cs]; [intros H; inversion H|]. cbn [fewest].
  intros Hin Hall. apply Forall_cons in Hall as [Hc Hall].
  apply elem_of_cons in Hin as [->|Hin].
  - clear Hc. induction Hall as [|d cs Hd _ IH]; cbn; lia.
  - revert Hin. induction Hall as [|d cs Hd Hall IH]; intros Hin;
      [inversion Hin|].
    cbn. apply elem_of_cons in Hin as [<-|Hin].
    + assert (cmin <= fold_right Nat.min c cs); [|lia].
      clear IH. induction Hall; cbn; lia.
    + specialize (IH Hin). lia.
Qed.

Lemma most_spec (cs : list nat) (cmax : nat) :
  cmax ∈ cs -> Forall (fun c => c <= cmax) cs -> most cs = cmax.
Proof.
  intros Hin Hall. apply Nat.le_antisymm.
  - unfold most. induction Hall; cbn; [lia|].
    apply elem_of_cons in Hin as [->|Hin]; [|specialize (IHHall Hin)];
      try lia.
    assert (fold_right Nat.max 0 l <= x); [|lia].
    clear IHHall. induction Hall; cbn; lia.
  - clear Hall. unfold most. induction cs as [|c cs IH]; [inversion Hin|].
    cbn. apply elem_of_cons in Hin as [->|Hin];
      [|specialize (IH Hin)]; lia.
Qed.

Lemma run_forks_no_fork (source : list A) (sched : list nat) :
  (run_forks sched (multiplex source 0)).2 = multiplex source 0.
Proof.
  induction sched as [|k sched IH]; [reflexivity|].
  cbn [run_forks]. unfold fork_next at 1. cbn [multiplex mx_finished repeat].
  rewrite lookup_nil. fold (multiplex source 0).
  destruct (run_forks sched (multiplex source 0)). exact IH.
Qed.

(** What a run leaves: the slowest fork has received
    [fewest (consumed_of n tr)] elements, the fastest as many as were
    pulled, and the buffer holds what lies between. *)
Lemma run_forks_window (source : list A) (n : nat) (sched : list nat) :
  pulled_count source (run_forks sched (multiplex source n)).2
  = most (consumed_of n (run_forks sched (multiplex source n)).1)
  /\ length (mx_buffer (run_forks sched (multiplex source n)).2)
       + fewest (consumed_of n (run_forks sched (multiplex source n)).1)
     = pulled_count source (run_forks sched (multiplex source n)).2.
Proof.
  destruct n as [|n].
  { rewrite run_forks_no_fork. unfold pulled_count. cbn. lia. }
  destruct (run_forks_reached source (S n) sched) as [Hinv _].
  destruct (run_forks_content source (S n) sched) as (_ & Hmax & _).
  destruct Hmax as [|Hmax]; [discriminate|].
  destruct Hinv as [_ _ _ _ _ Hle Hbuf]. split.
  - symmetry. now apply most_spec.
  - destruct Hbuf as [Hnil|(cmin & Hin & Hall & Hlen)].
    + rewrite Hnil in Hmax. inversion Hmax.
    + now rewrite (fewest_spec _ cmin).
Qed.

(** [final_func], lazy.py 195-200: after any run of the forks,
    [final_func] has been called on the elements of the source that every
    fork has received, once on each and in the order of the source, and on
    no other. *)
Theorem multiplex_final_func_calls (source : list A) (n : nat)
    (sched : list nat) :
  final_calls (mx_log (run_forks sched (multiplex source n)).2)
  = firstn (fewest (consumed_of n (run_forks sched (multiplex source n)).1))
      source.
Proof.
  destruct (run_forks_window source n sched) as [_ Hlen].
  destruct (run_forks_content source n sched) as ([_ _ Hfin] & _).
  rewrite Hfin. f_equal. lia.
Qed.

(** The buffer of [Iter.multiplex]: after any run of the forks it holds,
    newest first, exactly the elements of the source that the fastest fork
    has received and the slowest has not. *)
Theorem multiplex_buffer_window (source : list A) (n : nat)
    (sched : list nat) :
  rev (mx_buffer (run_forks sched (multiplex source n)).2)
  = firstn
      (most (consumed_of n (run_forks sched (multiplex source n)).1)
       - fewest (consumed_of n (run_forks sched (multiplex source n)).1))
      (skipn (fewest (consumed_of n (run_forks sched (multiplex source n)).1))
         source).
Proof.
  destruct (run_forks_window source n sched) as [Hmost Hlen].
  destruct (run_forks_content source n sched) as ([_ Hbuf _] & _).
  rewrite <- Hmost.
  set (m := (run_forks sched (multiplex source n)).2) in *.
  set (lo := fewest _) in *.
  rewrite rev_alt. change (rev_append ?l []) with (reverse l).
  apply list_eq. intros i.
  destruct (decide (i < length (mx_buffer m))) as [Hi|Hi].
  - rewrite reverse_lookup, lookup_take_lt, lookup_drop, Hbuf by lia.
    f_equal. lia.
  - rewrite lookup_take_ge by lia. apply lookup_ge_None_2.
    rewrite length_reverse. lia.
Qed.

(** *** The two implementations *)

Lemma mux2_core_next (src ya yb : list A) (m : IterMultiplex2 A) :
  mux2_core src ya yb m ->
  exists ra rb, src = ya ++ ra /\ src = yb ++ rb.
Proof.
  intros (pulled & -> & [(_ & -> & Hp & _)|(_ & -> & Hp & _)]).
  - exists (iter m), (buffer m ++ iter m). split; [reflexivity|].
    rewrite Hp at 1. now rewrite <- app_assoc.
  - exists (buffer m ++ iter m), (iter m). split; [|reflexivity].
    rewrite Hp at 1. now rewrite <- app_assoc.
Qed.

Lemma prefix_lookup_next (src y : list A) (x : A) (r : list A) :
  src = (y ++ [x]) ++ r -> src !! length y = Some x.
Proof.
  intros ->. rewrite <- app_assoc. cbn. now apply list_lookup_middle.
Qed.

Lemma next_fork2_spec (source : list A) (tr : list (nat * pulled A))
    (s : forks2 A) (k : nat) :
  reached2 source tr s ->
  exists s',
    next_fork k (Forks2 s) = (like_source source 2 tr k, Forks2 s')
    /\ reached2 source (tr ++ [(k, like_source source 2 tr k)]) s'.
Proof.
  intros (Hcore & Ha & Hb). destruct s as [m fa fb]. cbn in Ha, Hb, Hcore.
  unfold like_source. destruct k as [|[|k]]; cbn [next_fork Nat.leb].
  - unfold next2. cbn [a_finished b_finished im2]. rewrite <- Ha.
    destruct fa.
    { eexists. split; [reflexivity|].
      split; [|split]; cbn [im2 a_finished b_finished];
        rewrite ?yields_snoc, ?drained_snoc, ?app_nil_r, <- ?Ha, <- ?Hb;
        cbn; rewrite ?orb_false_r; auto. }
    pose proof (yielda_core _ _ _ _ Hcore) as H.
    destruct (yielda m) as [[x| |e] m']; [| |contradiction].
    + destruct (mux2_core_next _ _ _ _ H) as (ra & _ & Hra & _).
      rewrite (prefix_lookup_next _ _ _ _ Hra).
      eexists. split; [reflexivity|].
      split; [|split]; cbn [im2 a_finished b_finished is_item negb];
        rewrite ?yields_snoc, ?drained_snoc, ?app_nil_r, <- ?Ha, <- ?Hb;
        cbn; auto. now rewrite orb_false_r.
    + destruct H as [-> Hsrc].
      rewrite (lookup_ge_None_2 source) by (rewrite Hsrc; lia).
      eexists. split; [reflexivity|].
      split; [|split]; cbn [im2 a_finished b_finished is_item negb];
        rewrite ?yields_snoc, ?drained_snoc, ?app_nil_r, <- ?Ha, <- ?Hb;
        cbn; auto. now rewrite orb_false_r.
  - unfold next2. cbn [a_finished b_finished im2]. rewrite <- Hb.
    destruct fb.
    { eexists. split; [reflexivity|].
      split; [|split]; cbn [im2 a_finished b_finished];
        rewrite ?yields_snoc, ?drained_snoc, ?app_nil_r, <- ?Ha, <- ?Hb;
        cbn; rewrite ?orb_false_r; auto. }
    pose proof (yieldb_core _ _ _ _ Hcore) as H.
    destruct (yieldb m) as [[x| |e] m']; [| |contradiction].
    + destruct (mux2_core_next _ _ _ _ H) as (ra & rb & _ & Hrb).
      rewrite (prefix_lookup_next _ _ _ _ Hrb).
      eexists. split; [reflexivity|].
      split; [|split]; cbn [im2 a_finished b_finished is_item negb];
        rewrite ?yields_snoc, ?drained_snoc, ?app_nil_r, <- ?Ha, <- ?Hb;
        cbn; auto. now rewrite orb_false_r.
    + destruct H as [-> Hsrc].
      rewrite (lookup_ge_None_2 source) by (rewrite Hsrc; lia).
      eexists. split; [reflexivity|].
      split; [|split]; cbn [im2 a_finished b_finished is_item negb];
        rewrite ?yields_snoc, ?drained_snoc, ?app_nil_r, <- ?Ha, <- ?Hb;
        cbn; auto. now rewrite orb_false_r.
  - eexists. split; [reflexivity|].
    split; [|split]; cbn [im2 a_finished b_finished];
      rewrite ?yields_snoc, ?drained_snoc, ?app_nil_r, ?orb_false_r; auto.
Qed.

Lemma run_multiplex_snoc (sched : list nat) (k : nat) (f : forks A) :
  run_multiplex (sched ++ [k]) f
  = ((run_multiplex sched f).1
       ++ [(k, (next_fork k (run_multiplex sched f).2).1)],
     (next_fork k (run_multiplex sched f).2).2).
Proof.
  revert f. induction sched as [|j sched IH]; intros f;
    cbn [app run_multiplex].
  - cbn [fst snd app]. now destruct (next_fork k f).
  - destruct (next_fork j f) as [r f1]. rewrite IH.
    now destruct (run_multiplex sched f1).
Qed.

Lemma run_multiplex_general (sched : list nat) (m : multiplex_state A) :
  run_multiplex sched (ForksN m)
  = ((run_forks sched m).1, ForksN (run_forks sched m).2).
Proof.
  revert m. induction sched as [|k sched IH]; intros m; [reflexivity|].
  cbn [run_multiplex run_forks next_fork].
  destruct (fork_next k m) as [r m1]. rewrite IH.
  now destruct (run_forks sched m1).
Qed.

Lemma run_multiplex2 (source : list A) (sched : list nat) :
  (run_multiplex sched (Forks2 (forks2_init source))).1
  = (run_forks sched (multiplex source 2)).1
  /\ exists s,
       (run_multiplex sched (Forks2 (forks2_init source))).2 = Forks2 s
       /\ reached2 source (run_forks sched (multiplex source 2)).1 s.
Proof.
  induction sched as [|k sched IH] using rev_ind.
  - split; [reflexivity|]. eexists. split; [reflexivity|].
    split; [apply mux2_core_init|split; reflexivity].
  - destruct IH as (Htr & s & Hs & Hr).
    rewrite run_multiplex_snoc, run_forks_snoc. cbn [fst snd].
    rewrite Htr, Hs, fork_next_run.
    destruct (next_fork2_spec source _ s k Hr) as (s' & Hn & Hr').
    rewrite Hn. cbn [fst snd]. eauto.
Qed.

(** [Iter.multiplex], lazy.py 159-161: handing over to [IterMultiplex2]
    changes nothing for the forks.  With or without the callbacks, under every
    interleaving, the requests get the same results as from the general
    implementation. *)
Theorem multiplex_implementations_agree (source : list A) (n : nat)
    (final_func closing_func : bool) (sched : list nat) :
  (run_multiplex sched (Iter_multiplex source n final_func closing_func)).1
  = (run_forks sched (multiplex source n)).1.
Proof.
  unfold Iter_multiplex.
  destruct (Nat.eqb_spec n 2) as [->|_]; cbn [andb];
    [|now rewrite run_multiplex_general].
  destruct (negb final_func && negb closing_func);
    [apply run_multiplex2|now rewrite run_multiplex_general].
Qed.

End Runs.

Lemma multiplex_forks_yield_source_witness :
  yields 1 (run_forks [0; 1; 0; 1; 1] (multiplex [5; 6] 2)).1
  = firstn (length (yields 1 (run_forks [0; 1; 0; 1; 1] (multiplex [5; 6] 2)).1))
      [5; 6]
  /\ (drained 1 (run_forks [0; 1; 0; 1; 1] (multiplex [5; 6] 2)).1 = true ->
      yields 1 (run_forks [0; 1; 0; 1; 1] (multiplex [5; 6] 2)).1 = [5; 6]).
Proof.
  apply (multiplex_forks_yield_source [5; 6] 2 [0; 1; 0; 1; 1] 1). lia.
Defined.

End MultiplexProps.

(** * The functions of [Iter] on one iterator *)

Module IterProps.
Import Lazy.

Section Functions.

Context {A B : Type}.

(** [Iter.equal], lazy.py 75-98: the result is [1] exactly when the two
    iterators have the same length and the operator holds of their elements
    pair by pair; it is [None] otherwise. *)
Theorem Iter_equal_pairwise (operator : A -> B -> bool)
    (iter1 : list A) (iter2 : list B) :
  ((Iter.equal operator iter1 iter2).1.1 = Some 1%Z
   <-> Forall2 (fun i1 i2 => operator i1 i2 = true) iter1 iter2)
  /\ ((Iter.equal operator iter1 iter2).1.1 = Some 1%Z
      \/ (Iter.equal operator iter1 iter2).1.1 = None).
Proof.
  revert iter2. induction iter1 as [|i1 rest1 IH]; intros [|i2 rest2];
    cbn [Iter.equal fst].
  - split; [|now left]. split; [constructor|reflexivity].
  - split; [|now right]. split; [discriminate|intros H; inversion H].
  - split; [|now right]. split; [discriminate|intros H; inversion H].
  - destruct (operator i1 i2) eqn:Hop; cbn [fst].
    + destruct (IH rest2) as [IH1 IH2]. split; [|exact IH2].
      rewrite IH1. split; [now constructor|].
      intros H. now inversion H.
    + split; [|now right]. split; [discriminate|].
      intros H. inversion H. congruence.
Qed.

Lemma Or_loop_spec (truth : A -> bool) (iter : list A) (i : option A) :
  Iter.Or_truth truth i = false ->
  Iter.Or_truth truth (Iter.Or_loop truth i iter).1 = existsb truth iter
  /\ (Iter.Or_loop truth i iter).1
     = match List.find truth iter with
       | Some x => Some x
       | None => match last iter with Some x => Some x | None => i end
       end.
Proof.
  revert i. induction iter as [|x rest IH]; intros i Hi; cbn; [auto|].
  destruct (truth x) eqn:Hx; cbn; [auto|].
  destruct (IH (Some x) Hx) as [IH1 IH2]. split; [exact IH1|].
  rewrite IH2. destruct (List.find truth rest); [reflexivity|].
  destruct rest as [|a rest']; [reflexivity|].
  change (last (x :: a :: rest')) with (last (a :: rest')).
  destruct (last (a :: rest')) eqn:Hl; [reflexivity|].
  now apply last_None in Hl.
Qed.

Lemma And_loop_spec (truth : A -> bool) (iter : list A) (i : option A) :
  Iter.And_truth truth i = true ->
  Iter.And_truth truth (Iter.And_loop truth i iter).1 = forallb truth iter
  /\ (Iter.And_loop truth i iter).1
     = match List.find (fun x => negb (truth x)) iter with
       | Some x => Some x
       | None => match last iter with Some x => Some x | None => i end
       end.
Proof.
  revert i. induction iter as [|x rest IH]; intros i Hi; cbn; [auto|].
  destruct (truth x) eqn:Hx; cbn; [|auto].
  destruct (IH (Some x) Hx) as [IH1 IH2]. split; [exact IH1|].
  rewrite IH2. destruct (List.find _ rest); [reflexivity|].
  destruct rest as [|a rest']; [reflexivity|].
  change (last (x :: a :: rest')) with (last (a :: rest')).
  destruct (last (a :: rest')) eqn:Hl; [reflexivity|].
  now apply last_None in Hl.
Qed.

(** [Iter.Or] and [Iter.And], lazy.py 101-116: [Iter.Or] returns the first
    element that is true, or the last element when none is, or [None] on an
    empty iterator, so its result is true exactly when some element is;
    [Iter.And] returns the first element that is false, or the last element,
    or [1] on an empty iterator, so its result is true exactly when every
    element is. *)
Theorem Iter_Or_And (truth : A -> bool) (iter : list A) :
  (Iter.Or truth iter).1
  = match List.find truth iter with
    | Some x => Some x
    | None => last iter
    end
  /\ Iter.Or_truth truth (Iter.Or truth iter).1 = existsb truth iter
  /\ (Iter.And truth iter).1
     = match List.find (fun x => negb (truth x)) iter with
       | Some x => Some x
       | None => last iter
       end
  /\ Iter.And_truth truth (Iter.And truth iter).1 = forallb truth iter.
Proof.
  destruct (Or_loop_spec truth iter None eq_refl) as [HO1 HO2].
  destruct (And_loop_spec truth iter None eq_refl) as [HA1 HA2].
  unfold Iter.Or, Iter.And. split; [|split; [exact HO1|split; [|exact HA1]]].
  - rewrite HO2. destruct (List.find truth iter); [reflexivity|].
    now destruct (last iter).
  - clear HO1 HO2. rewrite HA2.
    destruct (List.find (fun x => negb (truth x)) iter); [reflexivity|].
    now destruct (last iter).
Qed.

Lemma len_loop_spec (iter : list A) (i : Z) :
  Iter.len_loop i iter = ((i + Z.of_nat (length iter))%Z, []).
Proof.
  revert i. induction iter as [|x rest IH]; intros i; cbn [Iter.len_loop].
  - cbn. f_equal. lia.
  - rewrite IH. f_equal. cbn [length]. lia.
Qed.

(** [Iter.empty] and [Iter.len], lazy.py 68-72 and 119-127: the test for
    emptiness takes the first element off the iterator, so the length
    counted after it on a non-empty iterator is one short; [Iter.len] leaves
    the iterator at its end. *)
Theorem Iter_empty_consumes (iter : list A) :
  ((Iter.empty iter).1 = Some 1%Z <-> iter = [])
  /\ ((Iter.empty iter).1 = None <-> iter <> [])
  /\ (Iter.len (Iter.empty iter).2).1 = Z.of_nat (length iter - 1)
  /\ Iter.len iter = (Z.of_nat (length iter), []).
Proof.
  unfold Iter.len. rewrite !len_loop_spec.
  destruct iter as [|x rest]; cbn [Iter.empty fst snd length].
  - repeat split; auto; try discriminate. now intros [].
  - repeat split; auto; try discriminate. f_equal. lia.
Qed.

Lemma drain_S {S : Type} (next : S -> pulled A * S) (fuel : nat) (s : S) :
  Iter.drain next (Datatypes.S fuel) s
  = match next s with
    | (Item x, s') =>
        let '(xs, ended, s'') := Iter.drain next fuel s' in
        (x :: xs, ended, s'')
    | (_, s') => ([], true, s')
    end.
Proof. reflexivity. Qed.

Lemma drain_filter (predicate : A -> bool) (iterator : list A) :
  forall extra,
    Iter.drain (Iter.filter_next predicate) (S (length iterator + extra))
      iterator
    = (List.filter predicate iterator, true, []).
Proof.
  induction iterator as [|i rest IH]; intros extra; [reflexivity|].
  cbn [List.filter]. destruct (predicate i) eqn:Hi.
  - rewrite drain_S. cbn [Iter.filter_next]. rewrite Hi.
    cbn [length Nat.add]. now rewrite IH.
  - specialize (IH (S extra)).
    replace (S (length rest + S extra)) with (S (length (i :: rest) + extra))
      in IH by (cbn; lia).
    rewrite <- IH, !drain_S. cbn [Iter.filter_next]. now rewrite Hi.
Qed.

(** [Iter.filter], lazy.py 35-39: a request returns the first element left
    that satisfies the predicate and leaves the source right after it, or
    meets the end when none does; the generator read to its end has given
    the elements that satisfy the predicate, in order, and has used up the
    source. *)
Theorem Iter_filter_yields (predicate : A -> bool) (iterator : list A) :
  match Iter.filter_next predicate iterator with
  | (Item x, rest) =>
      exists skipped,
        iterator = skipped ++ x :: rest
        /\ forallb (fun i => negb (predicate i)) skipped = true
        /\ predicate x = true
  | (Stop, rest) =>
      rest = [] /\ forallb (fun i => negb (predicate i)) iterator = true
  | (Fail _, _) => False
  end
  /\ Iter.drain (Iter.filter_next predicate) (S (length iterator)) iterator
     = (List.filter predicate iterator, true, []).
Proof.
  split.
  - induction iterator as [|i rest IH]; cbn [Iter.filter_next]; [auto|].
    destruct (predicate i) eqn:Hi.
    + exists []. auto.
    + destruct (Iter.filter_next predicate rest) as [[x| |e] rest'];
        [|cbn; rewrite Hi; exact IH|exact IH].
      destruct IH as (skipped & -> & Hs & Hx). exists (i :: skipped).
      cbn. rewrite Hi. auto.
  - rewrite <- (Nat.add_0_r (length iterator)). apply drain_filter.
Qed.

Lemma drain_cat (iters : list (list A)) :
  forall extra,
    Iter.drain Iter.cat_next (S (length (concat iters) + extra)) iters
    = (concat iters, true, []).
Proof.
  induction iters as [|iter rest IH]; intros extra; [reflexivity|].
  induction iter as [|i iter IHi].
  - cbn [concat app]. rewrite <- (IH extra), !drain_S. reflexivity.
  - cbn [concat app length Nat.add] in *.
    rewrite drain_S. cbn [Iter.cat_next]. now rewrite IHi.
Qed.

(** [Iter.cat] and [Iter.cat2], lazy.py 54-65: the generator read to its
    end has given the elements of the first iterator, then those of the
    second, and so on, whatever iterators among them are empty, and has used
    them all up. *)
Theorem Iter_cat_yields (iters : list (list A)) :
  Iter.drain Iter.cat_next (S (length (concat iters))) iters
  = (concat iters, true, []).
Proof.
  rewrite <- (Nat.add_0_r (length (concat iters))). apply drain_cat.
Qed.

End Functions.

End IterProps.

(** * More of globmatch.py *)

Module GlobmatchRules.
Import Globmatch GlobmatchProps.

(** ** [glob_to_regex] reads the pattern from left to right *)

Lemma at_shift (pre pat : string) (j : nat) :
  Py.at_ (pre +:+ pat) (String.length pre + j) = Py.at_ pat j.
Proof. unfold Py.at_. now rewrite get_append_r. Qed.

Lemma slice_shift (pre pat : string) (i j : nat) :
  Py.slice (pre +:+ pat) (String.length pre + i) (String.length pre + j)
  = Py.slice pat i j.
Proof.
  unfold Py.slice.
  replace (String.length pre + j - (String.length pre + i)) with (j - i)
    by lia.
  apply substring_append_r.
Qed.

Lemma skip_to_close_fuel (pat : string) (fuel : nat) :
  forall j,
    String.length pat - j <= fuel ->
    skip_to_close (S fuel) pat j = skip_to_close fuel pat j.
Proof.
  induction fuel as [|fuel IH]; intros j Hf.
  - cbn [skip_to_close].
    replace (Nat.ltb j (String.length pat)) with false; [reflexivity|].
    symmetry. apply Nat.ltb_ge. lia.
  - change (skip_to_close (S (S fuel)) pat j)
      with (if Nat.ltb j (String.length pat)
               && negb (Ascii.eqb (Py.at_ pat j) "]")
            then skip_to_close (S fuel) pat (j + 1) else j).
    change (skip_to_close (S fuel) pat j)
      with (if Nat.ltb j (String.length pat)
               && negb (Ascii.eqb (Py.at_ pat j) "]")
            then skip_to_close fuel pat (j + 1) else j).
    destruct (_ && _); [|reflexivity]. apply IH. lia.
Qed.

Lemma skip_to_close_more (pat : string) (extra : nat) :
  forall j,
    skip_to_close (String.length pat + extra) pat j
    = skip_to_close (String.length pat) pat j.
Proof.
  induction extra as [|extra IH]; intros j.
  - now rewrite Nat.add_0_r.
  - rewrite Nat.add_succ_r, skip_to_close_fuel; [apply IH|lia].
Qed.

Lemma skip_to_close_shift (pre pat : string) (fuel : nat) :
  forall j,
    skip_to_close fuel (pre +:+ pat) (String.length pre + j)
    = String.length pre + skip_to_close fuel pat j.
Proof.
  induction fuel as [|fuel IH]; intros j; cbn [skip_to_close]; [reflexivity|].
  rewrite length_append, at_shift.
  replace (Nat.ltb (String.length pre + j)
             (String.length pre + String.length pat))
    with (Nat.ltb j (String.length pat)).
  2: { destruct (Nat.ltb_spec j (String.length pat));
         symmetry; [apply Nat.ltb_lt|apply Nat.ltb_ge]; lia. }
  destruct (_ && _); [|reflexivity].
  rewrite <- Nat.add_assoc. apply IH.
Qed.

(** The result so far is only added to. *)
Lemma glob_to_regex_loop_acc (pat : string) (fuel : nat) :
  forall i res,
    glob_to_regex_loop fuel pat i res
    = res +:+ glob_to_regex_loop fuel pat i "".
Proof.
  induction fuel as [|fuel IH]; intros i res.
  - cbn. now rewrite append_nil_r.
  - rewrite !glob_to_regex_loop_S. cbv zeta.
    destruct (Nat.ltb i (String.length pat)); [|now rewrite append_nil_r].
    repeat match goal with
           | |- context [if ?b then _ else _] => destruct b
           end;
      rewrite IH, (IH _ ("" +:+ _)), ?append_nil_l, ?append_assoc;
      reflexivity.
Qed.

Lemma skip_to_close_enough (pat : string) (fuel : nat) (j : nat) :
  String.length pat <= fuel ->
  skip_to_close fuel pat j = skip_to_close (String.length pat) pat j.
Proof.
  intros H. replace fuel with (String.length pat + (fuel - String.length pat))
    by lia.
  apply skip_to_close_more.
Qed.

Lemma ltb_shift (p a b : nat) : Nat.ltb (p + a) (p + b) = Nat.ltb a b.
Proof.
  destruct (Nat.ltb_spec a b); [apply Nat.ltb_lt|apply Nat.ltb_ge]; lia.
Qed.

Lemma leb_shift (p a b : nat) : Nat.leb (p + a) (p + b) = Nat.leb a b.
Proof.
  destruct (Nat.leb_spec a b); [apply Nat.leb_le|apply Nat.leb_gt]; lia.
Qed.

Lemma if_shift (b : bool) (p x : nat) :
  (if b then p + x + 1 else p + x) = p + (if b then x + 1 else x).
Proof. destruct b; lia. Qed.

(** What lies before the position read plays no part. *)
Lemma glob_to_regex_loop_shift (pre pat : string) (fuel : nat) :
  forall i res,
    glob_to_regex_loop fuel (pre +:+ pat) (String.length pre + i) res
    = res +:+ glob_to_regex_loop fuel pat i "".
Proof.
  induction fuel as [|fuel IH]; intros i res.
  - cbn. now rewrite append_nil_r.
  - assert (Hstep : forall i' x,
              glob_to_regex_loop fuel (pre +:+ pat) (String.length pre + i')
                (res +:+ x)
              = res +:+ glob_to_regex_loop fuel pat i' ("" +:+ x)).
    { intros i' x. rewrite IH, (glob_to_regex_loop_acc pat fuel _ ("" +:+ _)).
      now rewrite ?append_nil_l, ?append_assoc. }
    rewrite !glob_to_regex_loop_S. cbv zeta.
    rewrite length_append, ltb_shift.
    destruct (Nat.ltb i (String.length pat)); [|now rewrite append_nil_r].
    rewrite at_shift.
    replace (String.length pre + i + 2) with (String.length pre + (i + 2))
      by lia.
    rewrite slice_shift.
    replace (String.length pre + i + 1) with (String.length pre + (i + 1))
      by lia.
    replace (String.length pre + (i + 1) + 1)
      with (String.length pre + (i + 1 + 1)) by lia.
    destruct (String.eqb _ "**"); [apply Hstep|].
    destruct (Ascii.eqb _ "*"); [apply Hstep|].
    destruct (Ascii.eqb _ "?"); [apply Hstep|].
    destruct (Ascii.eqb _ "["); [|apply Hstep].
    set (n := String.length pat).
    rewrite (ltb_shift _ (i + 1) n), at_shift.
    set (b1 := Nat.ltb (i + 1) n && Py.char_in (Py.at_ pat (i + 1)) "!^").
    replace (if b1 then String.length pre + (i + 1 + 1)
             else String.length pre + (i + 1))
      with (String.length pre + (if b1 then i + 1 + 1 else i + 1))
      by (now destruct b1).
    set (j1 := if b1 then i + 1 + 1 else i + 1).
    rewrite (ltb_shift _ j1 n), at_shift.
    set (b2 := Nat.ltb j1 n && Ascii.eqb (Py.at_ pat j1) "]").
    rewrite (if_shift b2 _ j1).
    set (j2 := if b2 then j1 + 1 else j1).
    rewrite skip_to_close_shift.
    rewrite (skip_to_close_enough pat (String.length pre + n))
      by (unfold n; lia).
    fold n. set (j3 := skip_to_close n pat j2).
    rewrite leb_shift. destruct (Nat.leb n j3); [apply Hstep|].
    rewrite slice_shift.
    replace (String.length pre + j3 + 1) with (String.length pre + (j3 + 1))
      by lia.
    rewrite IH, (glob_to_regex_loop_acc pat fuel (j3 + 1) ("" +:+ _)).
    now rewrite ?append_nil_l, ?append_assoc.
Qed.

Lemma glob_to_regex_loop_after (pre rest x : string) (extra : nat) :
  glob_to_regex_loop (String.length rest + extra) (pre +:+ rest)
    (String.length pre) x
  = x +:+ glob_to_regex rest.
Proof.
  rewrite <- (Nat.add_0_r (String.length pre)).
  now rewrite glob_to_regex_loop_shift, glob_to_regex_fuel.
Qed.

Lemma rule_char (c : ascii) (rest : string) :
  Py.char_in c "?*[" = false ->
  glob_to_regex (String c rest) = Re.escape c +:+ glob_to_regex rest.
Proof.
  intros Hc. destruct (not_meta_cases c Hc) as (Hstar & Hq & Hbr).
  unfold glob_to_regex at 1. cbn [String.length].
  rewrite glob_to_regex_loop_S. cbv zeta. cbn [String.length Nat.ltb Nat.leb].
  change (Py.at_ (String c rest) 0) with c.
  change (Py.slice (String c rest) 0 (0 + 2))
    with (String c (String.substring 0 1 rest)).
  cbn [String.eqb]. rewrite Hstar, Hq, Hbr.
  change (String c rest) with (String c "" +:+ rest).
  change (0 + 1) with (String.length (String c "")).
  rewrite <- (Nat.add_0_r (String.length rest)).
  now rewrite glob_to_regex_loop_after.
Qed.

Lemma rule_question (rest : string) :
  glob_to_regex ("?" +:+ rest) = "[^/]" +:+ glob_to_regex rest.
Proof.
  unfold glob_to_regex at 1. cbn [String.length].
  rewrite append_cons, append_nil_l. cbn [String.length].
  rewrite glob_to_regex_loop_S. cbv zeta. cbn [String.length Nat.ltb Nat.leb].
  change (Py.at_ (String "?" rest) 0) with "?"%char.
  change (Py.slice (String "?" rest) 0 (0 + 2))
    with (String "?" (String.substring 0 1 rest)).
  cbn [String.eqb Ascii.eqb Bool.eqb].
  change (String "?" rest) with ("?" +:+ rest).
  change (0 + 1) with (String.length "?").
  rewrite <- (Nat.add_0_r (String.length rest)).
  now rewrite glob_to_regex_loop_after.
Qed.

Lemma rule_star (rest : string) :
  begins_with_star rest = false ->
  glob_to_regex ("*" +:+ rest) = "[^/]*" +:+ glob_to_regex rest.
Proof.
  intros Hrest. unfold glob_to_regex at 1.
  rewrite append_cons, append_nil_l. cbn [String.length].
  rewrite glob_to_regex_loop_S. cbv zeta. cbn [String.length Nat.ltb Nat.leb].
  change (Py.at_ (String "*" rest) 0) with "*"%char.
  assert (Hs : String.eqb (Py.slice (String "*" rest) 0 (0 + 2)) "**" = false).
  { destruct rest as [|d rest]; [reflexivity|].
    cbn [begins_with_star] in Hrest. unfold Py.slice.
    destruct rest as [|e rest];
      cbn [Nat.add Nat.sub String.substring String.eqb];
      now rewrite Hrest. }
  rewrite Hs. cbn [Ascii.eqb Bool.eqb].
  change (String "*" rest) with ("*" +:+ rest).
  change (0 + 1) with (String.length "*").
  rewrite <- (Nat.add_0_r (String.length rest)).
  now rewrite glob_to_regex_loop_after.
Qed.

Lemma rule_doublestar (rest : string) :
  glob_to_regex ("**" +:+ rest) = ".*" +:+ glob_to_regex rest.
Proof.
  unfold glob_to_regex at 1.
  rewrite !append_cons, append_nil_l. cbn [String.length].
  rewrite glob_to_regex_loop_S. cbv zeta. cbn [String.length Nat.ltb Nat.leb].
  assert (Hs : String.eqb (Py.slice (String "*" (String "*" rest)) 0 (0 + 2))
                 "**" = true)
    by (unfold Py.slice; now destruct rest).
  rewrite Hs.
  change (String "*" (String "*" rest)) with ("**" +:+ rest).
  change (0 + 1 + 1) with (String.length "**").
  replace (S (String.length rest)) with (String.length rest + 1) by lia.
  now rewrite glob_to_regex_loop_after.
Qed.

(** [glob_to_regex], globmatch.py 105-135, reads the pattern from left to
    right: [**] becomes [.*], a [*] that no [*] follows becomes [[^/]*], [?]
    becomes [[^/]], any character other than [*], [?] and the opening
    bracket is escaped by [re.escape], and the translation goes on with the
    rest of the pattern. *)
Theorem glob_to_regex_rules (rest : string) :
  glob_to_regex ("**" +:+ rest) = ".*" +:+ glob_to_regex rest
  /\ (begins_with_star rest = false ->
      glob_to_regex ("*" +:+ rest) = "[^/]*" +:+ glob_to_regex rest)
  /\ glob_to_regex ("?" +:+ rest) = "[^/]" +:+ glob_to_regex rest
  /\ (forall c, Py.char_in c "?*[" = false ->
        glob_to_regex (String c rest) = Re.escape c +:+ glob_to_regex rest).
Proof.
  split; [apply rule_doublestar|]. split; [apply rule_star|].
  split; [apply rule_question|]. intros c. apply rule_char.
Qed.

(** *** Brackets *)

Lemma skip_to_close_finds (body rest : string) :
  forall fuel,
    no_close body = true -> String.length body < fuel ->
    skip_to_close fuel (body +:+ "]" +:+ rest) 0 = String.length body.
Proof.
  induction body as [|c body IH]; intros fuel Hb Hf.
  - destruct fuel; [cbn in Hf; lia|]. cbn [skip_to_close].
    rewrite append_nil_l, append_cons.
    change (Py.at_ (String "]" ("" +:+ rest)) 0) with "]"%char.
    cbn [Ascii.eqb Bool.eqb negb]. now rewrite andb_false_r.
  - destruct fuel; [cbn in Hf; lia|]. cbn [no_close] in Hb.
    apply andb_true_iff in Hb as [Hc Hb]. cbn [skip_to_close].
    rewrite append_cons. cbn [String.length Nat.ltb Nat.leb].
    change (Py.at_ (String c (body +:+ "]" +:+ rest)) 0) with c.
    rewrite Hc. cbn [andb].
    change (String c (body +:+ "]" +:+ rest))
      with (String c "" +:+ (body +:+ "]" +:+ rest)).
    change (0 + 1) with (String.length (String c "") + 0).
    rewrite skip_to_close_shift, IH; [reflexivity|assumption|].
    cbn in Hf. lia.
Qed.

Lemma glob_to_regex_bracket_step (rest : string) :
  glob_to_regex ("[" +:+ rest)
  = let pat := "[" +:+ rest in
    let j := bracket_end pat 1 in
    if Nat.leb (String.length pat) j then
      glob_to_regex_loop (String.length rest) pat 1 "\["
    else
      glob_to_regex_loop (String.length rest) pat (j + 1)
        ("[" +:+ class_body (Py.slice pat 1 j) +:+ "]").
Proof.
  unfold glob_to_regex at 1. rewrite append_cons, append_nil_l.
  cbn [String.length]. rewrite glob_to_regex_loop_S. cbv zeta.
  cbn [String.length Nat.ltb Nat.leb].
  change (Py.at_ (String "[" rest) 0) with "["%char.
  change (Py.slice (String "[" rest) 0 (0 + 2))
    with (String "[" (String.substring 0 1 rest)).
  cbn [String.eqb Ascii.eqb Bool.eqb]. reflexivity.
Qed.

Lemma no_close_at (s : string) :
  no_close s = true -> forall k, Py.at_ s k <> "]"%char.
Proof.
  induction s as [|c s IH]; intros Hs k.
  - unfold Py.at_. destruct k; discriminate.
  - cbn [no_close] in Hs. apply andb_true_iff in Hs as [Hc Hs].
    destruct k as [|k].
    + change (Py.at_ (String c s) 0) with c. intros ->. discriminate.
    + change (Py.at_ (String c s) (S k)) with (Py.at_ s k). now apply IH.
Qed.

Lemma skip_to_close_all (pat : string) (fuel j : nat) :
  no_close pat = true -> String.length pat - j <= fuel ->
  String.length pat <= skip_to_close fuel pat j.
Proof.
  intros Hp Hf. destruct (skip_to_close_stops pat fuel j Hf) as [H|H];
    [exact H|].
  now apply no_close_at in H.
Qed.

Lemma rule_open_bracket (rest : string) :
  no_close rest = true ->
  glob_to_regex ("[" +:+ rest) = "\[" +:+ glob_to_regex rest.
Proof.
  intros Hrest. rewrite glob_to_regex_bracket_step. cbv zeta.
  assert (Hpat : no_close ("[" +:+ rest) = true) by exact Hrest.
  replace (Nat.leb (String.length ("[" +:+ rest))
             (bracket_end ("[" +:+ rest) 1)) with true.
  - change 1 with (String.length "[") at 1.
    rewrite <- (Nat.add_0_r (String.length rest)).
    now rewrite glob_to_regex_loop_after.
  - symmetry. apply Nat.leb_le. unfold bracket_end.
    apply skip_to_close_all; [exact Hpat|lia].
Qed.

Lemma substring_append_l (a b : string) :
  String.substring 0 (String.length a) (a +:+ b) = a.
Proof.
  induction a as [|c a IH]; [now destruct b|].
  rewrite append_cons. cbn. now rewrite IH.
Qed.

Lemma char_in_neg_cases (c : ascii) :
  Py.char_in c "!^" = true -> Ascii.eqb c "]" = false.
Proof.
  cbn. rewrite orb_false_r.
  destruct (Ascii.eqb_spec c "!") as [->|]; [reflexivity|].
  destruct (Ascii.eqb_spec c "^") as [->|]; [reflexivity|discriminate].
Qed.

Lemma bracket_end_simple (body rest : string) :
  simple_class body = true ->
  bracket_end ("[" +:+ body +:+ "]" +:+ rest) 1 = 1 + String.length body.
Proof.
  intros Hb. unfold simple_class in Hb. apply andb_true_iff in Hb as [Hnc Hb].
  destruct body as [|b0 body]; [discriminate|].
  cbn [no_close] in Hnc. apply andb_true_iff in Hnc as [Hb0 Hnc].
  apply negb_true_iff in Hb0.
  set (tail := "]" +:+ rest).
  assert (Hfind : forall pre s, no_close s = true ->
            skip_to_close (String.length (pre +:+ s +:+ tail))
              (pre +:+ s +:+ tail) (String.length pre)
            = String.length pre + String.length s).
  { intros pre s Hs.
    replace (skip_to_close (String.length (pre +:+ s +:+ tail))
               (pre +:+ s +:+ tail) (String.length pre))
      with (skip_to_close (String.length (pre +:+ s +:+ tail))
              (pre +:+ s +:+ tail) (String.length pre + 0))
      by (now rewrite Nat.add_0_r).
    rewrite skip_to_close_shift. unfold tail.
    rewrite skip_to_close_finds; [reflexivity|exact Hs|].
    rewrite !length_append. cbn [String.length]. lia. }
  unfold bracket_end.
  change ("[" +:+ String b0 body +:+ tail)
    with (String "[" (String b0 (body +:+ tail))).
  cbn [String.length Nat.ltb Nat.leb].
  change (Py.at_ (String "[" (String b0 (body +:+ tail))) 1) with b0.
  destruct (Py.char_in b0 "!^") eqn:Hneg; cbn [andb].
  - destruct body as [|b1 body]; [discriminate|].
    cbn [no_close] in Hnc.
    change (String b1 body +:+ tail) with (String b1 (body +:+ tail)).
    cbn [String.length Nat.ltb Nat.leb Nat.add].
    change (Py.at_ (String "[" (String b0 (String b1 (body +:+ tail)))) 2)
      with b1.
    apply andb_true_iff in Hnc as [Hb1 Hnc]. apply negb_true_iff in Hb1.
    rewrite Hb1. cbn [andb].
    specialize (Hfind (String "[" (String b0 "")) (String b1 body)).
    cbn [String.length] in Hfind.
    change (String "[" (String b0 "") +:+ String b1 body +:+ tail)
      with (String "[" (String b0 (String b1 (body +:+ tail)))) in Hfind.
    cbn [String.length] in Hfind. rewrite Hfind; [lia|].
    cbn [no_close]. now rewrite Hb1, Hnc.
  - change (Py.at_ (String "[" (String b0 (body +:+ tail))) 1) with b0.
    rewrite Hb0, andb_false_r.
    specialize (Hfind "[" (String b0 body)).
    change ("[" +:+ String b0 body +:+ tail)
      with (String "[" (String b0 (body +:+ tail))) in Hfind.
    cbn [String.length] in Hfind. rewrite Hfind; [lia|].
    cbn [no_close]. now rewrite Hb0, Hnc.
Qed.

Lemma rule_class (body rest : string) :
  simple_class body = true ->
  glob_to_regex ("[" +:+ body +:+ "]" +:+ rest)
  = "[" +:+ class_body body +:+ "]" +:+ glob_to_regex rest.
Proof.
  intros Hb. rewrite glob_to_regex_bracket_step. cbv zeta.
  rewrite bracket_end_simple by exact Hb.
  replace (Nat.leb _ _) with false.
  2: { symmetry. apply Nat.leb_gt. rewrite !length_append.
       cbn [String.length]. lia. }
  assert (Hsl : Py.slice ("[" +:+ body +:+ "]" +:+ rest) 1
                  (1 + String.length body) = body).
  { unfold Py.slice. rewrite append_cons, append_nil_l.
    replace (1 + String.length body - 1) with (String.length body) by lia.
    change (String.substring 1 (String.length body)
              (String "[" (body +:+ "]" +:+ rest)))
      with (String.substring 0 (String.length body) (body +:+ "]" +:+ rest)).
    apply substring_append_l. }
  rewrite Hsl.
  replace ("[" +:+ body +:+ "]" +:+ rest)
    with (("[" +:+ body +:+ "]") +:+ rest)
    by (now rewrite !append_assoc).
  replace (1 + String.length body + 1)
    with (String.length ("[" +:+ body +:+ "]"))
    by (rewrite !length_append; cbn [String.length]; lia).
  replace (String.length (body +:+ "]" +:+ rest))
    with (String.length rest + (String.length body + 1))
    by (rewrite !length_append; cbn [String.length]; lia).
  rewrite glob_to_regex_loop_after. now rewrite ?append_assoc.
Qed.

(** Brackets in [glob_to_regex], globmatch.py 116-132: a bracket that no
    closing bracket follows stands for itself, escaped; a bracket followed
    by a class without a closing bracket in it (and more than a lone [!] or
    [^]) and a closing bracket becomes a character class of [re], its
    backslashes doubled and its leading [!] turned into [^]; the translation
    goes on after it. *)
Theorem glob_to_regex_brackets (body rest : string) :
  (no_close rest = true ->
   glob_to_regex ("[" +:+ rest) = "\[" +:+ glob_to_regex rest)
  /\ (simple_class body = true ->
      glob_to_regex ("[" +:+ body +:+ "]" +:+ rest)
      = "[" +:+ class_body body +:+ "]" +:+ glob_to_regex rest).
Proof. split; [apply rule_open_bracket|apply rule_class]. Qed.

(** ** The selector *)

Lemma last_char_snoc (g : string) (c : ascii) :
  Py.last_char (g +:+ String c "") = Some c.
Proof.
  induction g as [|d g IH]; [reflexivity|].
  rewrite append_cons. cbn [Py.last_char]. rewrite IH.
  destruct (g +:+ String c "") eqn:E; [|reflexivity].
  destruct g; discriminate.
Qed.

Lemma drop_last_snoc (g : string) (c : ascii) :
  Py.drop_last (g +:+ String c "") = g.
Proof.
  induction g as [|d g IH]; [reflexivity|].
  rewrite append_cons. cbn [Py.drop_last]. rewrite IH.
  destruct (g +:+ String c "") eqn:E; [|reflexivity].
  destruct g; discriminate.
Qed.

Lemma strip_trailing_sep_snoc (g : string) :
  g <> "" -> strip_trailing_sep (g +:+ "/") = Ret (true, g).
Proof.
  intros Hg. unfold strip_trailing_sep.
  rewrite last_char_snoc, drop_last_snoc.
  replace (String.eqb (g +:+ "/") "/") with false; [reflexivity|].
  symmetry. apply String.eqb_neq. destruct g as [|c g]; [contradiction|].
  rewrite append_cons. intros [=]. destruct g; discriminate.
Qed.

Lemma strip_trailing_sep_none (g : string) (c : ascii) :
  Py.last_char g = Some c -> c <> "/"%char ->
  strip_trailing_sep g = Ret (false, g).
Proof.
  intros Hl Hc. unfold strip_trailing_sep. rewrite Hl.
  apply Ascii.eqb_neq in Hc. rewrite Hc.
  now destruct (String.eqb g "/").
Qed.

(** [path_matches_glob], globmatch.py 65-69 and 82-84: for a directory a
    separator at the end of the glob changes nothing.  (The glob is not
    empty and does not end in a separator before the one added.) *)
Theorem trailing_sep_on_directory (path : Path) (g : string) (c : ascii)
    (include : Z) :
  isdir path = true ->
  Py.last_char g = Some c -> c <> "/"%char ->
  path_matches_glob path (g +:+ "/") include
  = path_matches_glob path g include.
Proof.
  intros Hdir Hl Hc. unfold path_matches_glob.
  rewrite strip_trailing_sep_snoc by (intros ->; discriminate).
  rewrite (strip_trailing_sep_none g c Hl Hc). cbn [bind].
  now rewrite Hdir.
Qed.

Lemma compile_raises (r : string) (e : exn) :
  Re.compile r = Raise e -> e = ReError.
Proof.
  unfold Re.compile. destruct (Re.lex _ r); [|congruence].
  destruct (Re.parse _ _ _); congruence.
Qed.

Lemma last_char_None (g : string) : Py.last_char g = None <-> g = "".
Proof.
  split; [|now intros ->]. induction g as [|c g IH]; [reflexivity|].
  cbn [Py.last_char]. destruct g; [discriminate|]. intros H.
  now specialize (IH H).
Qed.

(** [path_matches_glob], globmatch.py 65: [glob_str[-1]] on an empty glob.
    The selector raises [IndexError] exactly when the glob is the empty
    string, whatever the path and the polarity. *)
Theorem empty_glob_raises_IndexError (path : Path) (glob_str : string)
    (include : Z) :
  path_matches_glob path glob_str include = Raise IndexError
  <-> glob_str = "".
Proof.
  split; [|now intros ->]. unfold path_matches_glob.
  destruct (strip_trailing_sep glob_str) as [[flag g]|e] eqn:Hst; cbn [bind].
  - intros H. exfalso. revert H.
    destruct (Re.compile _) as [r1|e1] eqn:H1; cbn [bind];
      [|apply compile_raises in H1; subst; discriminate].
    unfold _glob_get_prefix_regexs.
    destruct (Py.mem _ _); cbn [bind]; [discriminate|].
    destruct (Re.compile (scan_comp_re_source _)) as [r2|e2] eqn:H2;
      cbn [bind]; [|apply compile_raises in H2; subst; discriminate].
    repeat match goal with
           | |- context [if ?b then _ else _] => destruct b
           end; discriminate.
  - intros _. unfold strip_trailing_sep in Hst.
    destruct (String.eqb glob_str "/"); [discriminate|].
    destruct (Py.last_char glob_str) as [c|] eqn:Hl;
      [destruct (Ascii.eqb c "/"); discriminate|].
    now apply last_char_None.
Qed.

(** ** Literal globs: the selector without regular expressions *)

Lemma is_literal_app (a b : string) :
  is_literal (a +:+ b) = is_literal a && is_literal b.
Proof.
  induction a as [|c a IH]; [reflexivity|].
  rewrite append_cons. cbn [is_literal]. now rewrite IH, andb_assoc.
Qed.

Lemma is_literal_split (s : string) :
  is_literal s = true ->
  Forall (fun p => is_literal p = true) (Py.split "/" s).
Proof.
  induction s as [|c s IH]; intros Hs; cbn [Py.split].
  - repeat constructor.
  - cbn [is_literal] in Hs. apply andb_true_iff in Hs as [Hc Hs].
    specialize (IH Hs). destruct (Ascii.eqb c "/").
    + constructor; [reflexivity|exact IH].
    + destruct (Py.split "/" s) as [|h t].
      * repeat constructor. cbn [is_literal]. now rewrite Hc.
      * apply Forall_cons in IH as [Hh Ht]. constructor; [|exact Ht].
        cbn [is_literal]. now rewrite Hc, Hh.
Qed.

Lemma is_literal_join (parts : list string) :
  Forall (fun p => is_literal p = true) parts ->
  is_literal (Py.join "/" parts) = true.
Proof.
  unfold Py.join. induction 1 as [|p parts Hp Hall IH]; [reflexivity|].
  cbn [String.concat]. destruct parts as [|q parts]; [exact Hp|].
  change (p ++ "/" ++ String.concat "/" (q :: parts))%string
    with (p +:+ "/" +:+ String.concat "/" (q :: parts)).
  now rewrite !is_literal_app, Hp, IH.
Qed.

Lemma glob_prefixes_literal (lit : string) :
  is_literal lit = true ->
  Forall (fun p => is_literal p = true) (glob_prefixes lit).
Proof.
  intros Hl. unfold glob_prefixes.
  assert (H : Forall (fun p => is_literal p = true)
                (map (fun i => Py.join "/" (firstn (i + 1) (Py.split "/" lit)))
                   (seq 0 (length (Py.split "/" lit))))).
  { apply Forall_fmap, Forall_forall. intros i _. cbn.
    apply is_literal_join, Forall_take, is_literal_split, Hl. }
  destruct (map _ _) as [|p0 rest]; [exact H|].
  destruct (String.eqb p0 ""); [|exact H].
  apply Forall_cons in H as [_ H]. constructor; [reflexivity|exact H].
Qed.

Lemma glob_prefixes_nonempty (lit : string) : glob_prefixes lit <> [].
Proof.
  unfold glob_prefixes.
  destruct (Py.split "/" lit) as [|p parts] eqn:Hs.
  - destruct lit as [|c lit]; [discriminate|]. cbn [Py.split] in Hs.
    destruct (Ascii.eqb c "/"); [discriminate|].
    destruct (Py.split "/" lit); discriminate.
  - cbn [length seq map]. destruct (String.eqb _ ""); discriminate.
Qed.

Lemma map_glob_to_regex_literal (ps : list string) :
  Forall (fun p => is_literal p = true) ps ->
  map glob_to_regex ps = map escape_all ps.
Proof.
  induction 1 as [|p ps Hp _ IH]; [reflexivity|].
  cbn [map]. now rewrite IH, glob_to_regex_literal.
Qed.

(** *** Compiling [^(p1|...|pn)$] *)

Lemma lex_alts (ps : list string) (rest : string) :
  ps <> [] ->
  Re.lex Re.LNormal (Py.join "|" (map escape_all ps) +:+ rest)
  = option_map (app (alt_tokens ps)) (Re.lex Re.LNormal rest).
Proof.
  unfold Py.join. induction ps as [|p ps IH]; intros Hne; [contradiction|].
  destruct ps as [|q ps].
  - cbn [map String.concat alt_tokens]. apply lex_escape_all.
  - cbn [map String.concat alt_tokens] in *.
    change (escape_all p ++ "|" ++ String.concat "|" (escape_all q :: map escape_all ps))%string
      with (escape_all p +:+ "|" +:+ String.concat "|" (escape_all q :: map escape_all ps)).
    rewrite !append_assoc, lex_escape_all, append_cons, append_nil_l.
    cbn [Re.lex].
    change (Re.lex_char Re.LNormal "|") with (Re.LGo Re.LNormal [Re.TBar]).
    cbv beta iota. rewrite IH by discriminate.
    destruct (Re.lex Re.LNormal rest); cbn [option_map app];
      [|reflexivity].
    now rewrite <- app_assoc.
Qed.

Lemma mk_seq_lits (p : string) : Re.mk_seq (push_lits p []) = lits p Re.REmpty.
Proof. unfold Re.mk_seq. now rewrite mk_seq_push_lits. Qed.

Lemma parse_alts (ps : list string) :
  forall stack alts0 items0 alts rest,
    ps <> [] ->
    Re.parse ((alts0, items0) :: stack) (alts, [])
      (alt_tokens ps ++ Re.TRParen :: rest)
    = Re.parse stack (alts0, Re.mk_alt alts (alts_regex ps) :: items0) rest.
Proof.
  induction ps as [|p ps IH]; intros stack alts0 items0 alts rest Hne;
    [contradiction|].
  destruct ps as [|q ps].
  - cbn [alt_tokens alts_regex]. rewrite parse_lit_tokens.
    cbn [Re.parse]. unfold Re.close_frame. cbn [fst snd].
    now rewrite mk_seq_lits.
  - cbn [alt_tokens alts_regex] in *. rewrite <- app_assoc, parse_lit_tokens.
    cbn [app Re.parse]. rewrite IH by discriminate.
    rewrite mk_seq_lits. reflexivity.
Qed.

Lemma compile_scan (ps : list string) :
  ps <> [] ->
  Re.compile (scan_comp_re_source (map escape_all ps)) = Ret (scan_regex ps).
Proof.
  intros Hne. unfold Re.compile, scan_comp_re_source.
  change ("^(" +:+ Py.join "|" (map escape_all ps) +:+ ")$")
    with (String "^" (String "(" (Py.join "|" (map escape_all ps) +:+ ")$"))).
  cbn [Re.lex].
  change (Re.lex_char Re.LNormal "^") with (Re.LGo Re.LNormal [Re.TCaret]).
  cbv beta iota.
  change (Re.lex_char Re.LNormal "(") with (Re.LGo Re.LNormal [Re.TLParen]).
  cbv beta iota. rewrite lex_alts by exact Hne.
  change (Re.lex Re.LNormal ")$") with (Some [Re.TRParen; Re.TDollar]).
  cbn [option_map app Re.parse]. rewrite parse_alts by exact Hne.
  reflexivity.
Qed.

(** *** Running the two regular expressions *)

Lemma run_lits_starts (p : string) :
  forall bol s (k : bool -> string -> bool),
    (forall b1 b2 s', k b1 s' = k b2 s') ->
    Re.run (lits p Re.REmpty) bol s k = starts (k true) p s.
Proof.
  induction p as [|c p IH]; intros bol s k Hk; cbn [lits Re.run starts].
  - apply Hk.
  - destruct s as [|d s]; [reflexivity|]. cbn [Re.accepts].
    now rewrite IH.
Qed.

Lemma run_alts (ps : list string) :
  forall bol s (k : bool -> string -> bool),
    ps <> [] ->
    (forall b1 b2 s', k b1 s' = k b2 s') ->
    Re.run (alts_regex ps) bol s k
    = existsb (fun p => starts (k true) p s) ps.
Proof.
  induction ps as [|p ps IH]; intros bol s k Hne Hk; [contradiction|].
  destruct ps as [|q ps].
  - cbn [alts_regex existsb]. rewrite orb_false_r.
    now apply run_lits_starts.
  - cbn [alts_regex Re.run] in *. rewrite run_lits_starts, IH by
      (auto; discriminate).
    reflexivity.
Qed.

Lemma starts_ext (t1 t2 : string -> bool) (p : string) :
  (forall x, t1 x = t2 x) -> forall s, starts t1 p s = starts t2 p s.
Proof.
  intros Ht. induction p as [|c p IH]; intros s; cbn [starts]; [apply Ht|].
  destruct s; [reflexivity|]. now rewrite IH.
Qed.

Lemma match_scan_regex (ps : list string) (s : string) :
  ps <> [] ->
  Re.match_ (scan_regex ps) s = existsb (fun p => starts Re.at_eol p s) ps.
Proof.
  intros Hne. unfold Re.match_, scan_regex. cbn [Re.run andb].
  rewrite run_alts; [|exact Hne|reflexivity].
  clear Hne. induction ps as [|p ps IH]; [reflexivity|].
  cbn [existsb]. rewrite IH. f_equal. apply starts_ext.
  intros x. cbn [Re.run]. apply andb_true_r.
Qed.

Lemma match_literal_starts (lit s : string) :
  Re.match_ (literal_regex lit) s = starts tail_ok lit s.
Proof.
  unfold Re.match_, literal_regex. cbn [Re.run andb].
  generalize true at 1. revert s.
  induction lit as [|c lit IH]; intros s bol; cbn [lits starts].
  - apply run_end_or_sep.
  - cbn [Re.run]. destruct s as [|d s]; [reflexivity|].
    cbn [Re.accepts]. now rewrite IH.
Qed.

Lemma substring_star (g : string) :
  forall m, String.substring m 2 g = "**" -> is_literal g = false.
Proof.
  induction g as [|c g IH]; intros m H.
  - destruct m; discriminate.
  - destruct m as [|m].
    + cbn in H. injection H as -> _. reflexivity.
    + cbn [String.substring] in H. cbn [is_literal].
      rewrite (IH m H). apply andb_false_r.
Qed.

Lemma truncate_literal (lit : string) :
  is_literal lit = true -> truncate_after_doublestar lit = lit.
Proof.
  intros Hl. unfold truncate_after_doublestar, Py.find.
  destruct (String.index 0 "**" lit) as [k|] eqn:Hk; [|reflexivity].
  apply String.index_correct1 in Hk. apply substring_star in Hk. congruence.
Qed.

(** The decision of [path_matches_glob] on a glob without metacharacters,
    computed without the regular expressions. *)
Lemma path_matches_literal_glob (path : Path) (glob_str : string)
    (include : Z) (match_only_dirs : bool) (lit : string) :
  is_literal glob_str = true ->
  strip_trailing_sep glob_str = Ret (match_only_dirs, lit) ->
  has_inner_empty_component lit = false ->
  path_matches_glob path glob_str include
  = Ret (literal_decision path match_only_dirs lit include).
Proof.
  intros Hg Hst Hin.
  pose proof (strip_trailing_sep_literal _ _ _ Hg Hst) as Hl.
  unfold path_matches_glob. rewrite Hst. cbn [bind].
  unfold glob_comp_re_source.
  rewrite glob_to_regex_literal, compile_literal by exact Hl. cbn [bind].
  rewrite truncate_literal by exact Hl.
  assert (Hp : _glob_get_prefix_regexs lit
               = Ret (map escape_all (glob_prefixes lit))).
  { unfold _glob_get_prefix_regexs. unfold has_inner_empty_component in Hin.
    rewrite Hin. fold (glob_prefixes lit). f_equal.
    apply map_glob_to_regex_literal, glob_prefixes_literal, Hl. }
  rewrite Hp. cbn [bind].
  rewrite compile_scan by apply glob_prefixes_nonempty. cbn [bind].
  rewrite match_literal_starts, match_scan_regex
    by apply glob_prefixes_nonempty.
  unfold literal_decision.
  repeat match goal with
         | |- context [if ?b then _ else _] => destruct b
         end; reflexivity.
Qed.

(** [path_matches_glob], globmatch.py 52-90, on a glob without
    metacharacters and without an empty inner component: its decision
    needs no regular expression.  It is [None] for a glob with a trailing
    separator and a path that is no directory; [include] for a name that is
    the glob or goes on after it with a separator; 2 for an include glob and
    a name that is the glob up to one of its separators (the directories to
    scan on the way to it); [None] otherwise.  A final newline of the name
    is passed over by [$]. *)
Theorem literal_glob_decision (path : Path) (glob_str : string)
    (include : Z) (match_only_dirs : bool) (lit : string) :
  is_literal glob_str = true ->
  strip_trailing_sep glob_str = Ret (match_only_dirs, lit) ->
  has_inner_empty_component lit = false ->
  path_matches_glob path glob_str include
  = Ret (literal_decision path match_only_dirs lit include).
Proof. apply path_matches_literal_glob. Qed.

Lemma starts_refl (tail : string -> bool) (p : string) :
  starts tail p p = tail "".
Proof.
  induction p as [|c p IH]; [reflexivity|].
  cbn [starts]. now rewrite Ascii.eqb_refl, IH.
Qed.

Lemma starts_short (tail : string -> bool) (lit : string) :
  forall s, String.length s < String.length lit -> starts tail lit s = false.
Proof.
  induction lit as [|c lit IH]; intros s Hs; [cbn in Hs; lia|].
  cbn [starts]. destruct s as [|d s]; [reflexivity|].
  rewrite IH; [apply andb_false_r|]. cbn in Hs. lia.
Qed.

(** The directories on the way to an included path are scanned:
    [path_matches_glob], globmatch.py 79-88, with an include glob without
    metacharacters returns 2 for a directory whose name is the glob up to
    one of its separators. *)
Theorem include_glob_scans_prefixes (path : Path) (glob_str : string)
    (match_only_dirs : bool) (lit p : string) :
  is_literal glob_str = true ->
  strip_trailing_sep glob_str = Ret (match_only_dirs, lit) ->
  has_inner_empty_component lit = false ->
  In p (glob_prefixes lit) ->
  String.length p < String.length lit ->
  isdir path = true -> name path = p ->
  path_matches_glob path glob_str 1 = Ret (Some 2%Z).
Proof.
  intros Hg Hst Hin Hp Hlen Hdir Hname.
  rewrite (path_matches_literal_glob path glob_str 1 match_only_dirs lit
             Hg Hst Hin).
  unfold literal_decision. rewrite Hdir, andb_false_r, Hname.
  rewrite starts_short by exact Hlen.
  replace (existsb _ _) with true; [reflexivity|].
  symmetry. apply existsb_exists. exists p. split; [exact Hp|].
  now rewrite starts_refl.
Qed.

(** ** The prefixes of a glob *)

Lemma join_split (s : string) : Py.join "/" (Py.split "/" s) = s.
Proof.
  unfold Py.join. induction s as [|c s IH]; [reflexivity|].
  cbn [Py.split]. destruct (Ascii.eqb_spec c "/") as [->|Hc].
  - cbn [String.concat]. destruct (Py.split "/" s) as [|h t] eqn:Hs.
    + destruct s as [|d s]; [discriminate|]. cbn [Py.split] in Hs.
      destruct (Ascii.eqb d "/"); [discriminate|].
      destruct (Py.split "/" s); discriminate.
    + now rewrite IH.
  - destruct (Py.split "/" s) as [|h t] eqn:Hs.
    + destruct s as [|d s]; [discriminate|]. cbn [Py.split] in Hs.
      destruct (Ascii.eqb d "/"); [discriminate|].
      destruct (Py.split "/" s); discriminate.
    + cbn [String.concat] in *. destruct t as [|h' t]; [now rewrite IH|].
      rewrite <- IH. reflexivity.
Qed.

Lemma last_map_seq {B} (f : nat -> B) (n : nat) :
  last (map f (seq 0 (S n))) = Some (f n).
Proof.
  rewrite seq_S, map_app. cbn [map Nat.add]. apply last_snoc.
Qed.

Lemma glob_prefixes_last (g : string) :
  g <> "" -> last (glob_prefixes g) = Some g.
Proof.
  intros Hg. unfold glob_prefixes.
  destruct (Py.split "/" g) as [|p parts] eqn:Hs.
  { pose proof (join_split g) as H. rewrite Hs in H. cbn in H. congruence. }
  assert (Hlast : last (map (fun i => Py.join "/" (firstn (i + 1) (p :: parts)))
                          (seq 0 (length (p :: parts)))) = Some g).
  { cbn [length]. rewrite last_map_seq. f_equal.
    rewrite Nat.add_1_r, <- (join_split g), Hs.
    f_equal. apply (firstn_all (p :: parts)). }
  destruct (map _ _) as [|p0 rest] eqn:Hm; [exact Hlast|].
  destruct (String.eqb_spec p0 "") as [->|]; [|exact Hlast].
  destruct rest as [|q rest]; [|exact Hlast].
  cbn in Hlast. congruence.
Qed.

(** [_glob_get_prefix_regexs], globmatch.py 36-49: for a glob that is not
    empty and has no empty inner component, it returns one regular
    expression for each component of the glob, the last of which is that of
    the whole glob. *)
Theorem prefix_regexs_end_with_glob (glob_str : string) :
  glob_str <> "" ->
  has_inner_empty_component glob_str = false ->
  exists regexs,
    _glob_get_prefix_regexs glob_str = Ret regexs
    /\ length regexs = length (Py.split "/" glob_str)
    /\ last regexs = Some (glob_to_regex glob_str).
Proof.
  intros Hg Hin. exists (map glob_to_regex (glob_prefixes glob_str)).
  split; [|split].
  - unfold _glob_get_prefix_regexs.
    unfold has_inner_empty_component in Hin. now rewrite Hin.
  - rewrite length_map. unfold glob_prefixes.
    destruct (map _ (seq _ _)) as [|p0 rest] eqn:Hm.
    + apply (f_equal (@length _)) in Hm.
      now rewrite length_map, length_seq in Hm.
    + apply (f_equal (@length _)) in Hm.
      rewrite length_map, length_seq in Hm.
      now destruct (String.eqb p0 "").
  - change (map glob_to_regex ?l) with (glob_to_regex <$> l).
    now rewrite fmap_last, glob_prefixes_last.
Qed.

(** ** A literal followed by [*] or [**] *)

Lemma glob_to_regex_literal_app (lit x : string) :
  is_literal lit = true ->
  glob_to_regex (lit +:+ x) = escape_all lit +:+ glob_to_regex x.
Proof.
  induction lit as [|c lit IH]; intros Hl; [reflexivity|].
  cbn [is_literal] in Hl. apply andb_true_iff in Hl as [Hc Hl].
  apply negb_true_iff in Hc.
  rewrite append_cons, rule_char, IH by assumption.
  cbn [escape_all]. now rewrite append_assoc.
Qed.

Lemma compile_prefix_any (lit : string) :
  Re.compile ("^" +:+ (escape_all lit +:+ ".*") +:+ "($|/)")
  = Ret (prefix_regex Re.CsAny lit).
Proof.
  unfold Re.compile. rewrite append_assoc.
  change ("^" +:+ escape_all lit +:+ ".*" +:+ "($|/)")
    with (String "^" (escape_all lit +:+ ".*($|/)")).
  cbn [Re.lex]. change (Re.lex_char Re.LNormal "^")
    with (Re.LGo Re.LNormal [Re.TCaret]).
  cbv beta iota. rewrite lex_escape_all.
  change (Re.lex Re.LNormal ".*($|/)")
    with (Some [Re.TAtom Re.CsAny; Re.TStar; Re.TLParen; Re.TDollar; Re.TBar;
                Re.TAtom (Re.CsChar "/"); Re.TRParen]).
  cbn [option_map app Re.parse]. rewrite parse_lit_tokens.
  cbn [Re.parse Re.close_frame Re.mk_alt Re.mk_seq fst snd fold_left].
  rewrite mk_seq_push_lits. reflexivity.
Qed.

Lemma compile_prefix_not_sep (lit : string) :
  Re.compile ("^" +:+ (escape_all lit +:+ "[^/]*") +:+ "($|/)")
  = Ret (prefix_regex not_sep lit).
Proof.
  unfold Re.compile. rewrite append_assoc.
  change ("^" +:+ escape_all lit +:+ "[^/]*" +:+ "($|/)")
    with (String "^" (escape_all lit +:+ "[^/]*($|/)")).
  cbn [Re.lex]. change (Re.lex_char Re.LNormal "^")
    with (Re.LGo Re.LNormal [Re.TCaret]).
  cbv beta iota. rewrite lex_escape_all.
  change (Re.lex Re.LNormal "[^/]*($|/)")
    with (Some [Re.TAtom not_sep; Re.TStar; Re.TLParen; Re.TDollar; Re.TBar;
                Re.TAtom (Re.CsChar "/"); Re.TRParen]).
  cbn [option_map app Re.parse]. rewrite parse_lit_tokens.
  cbn [Re.parse Re.close_frame Re.mk_alt Re.mk_seq fst snd fold_left].
  rewrite mk_seq_push_lits. reflexivity.
Qed.

Lemma star_to_tail (a : Re.charset) :
  (forall c, c <> "/"%char -> Re.accepts a c = true) ->
  forall s bol, Re.star a (fun _ s' => tail_ok s') bol s = true.
Proof.
  intros Ha. induction s as [|c s IH]; intros bol; [reflexivity|].
  cbn [Re.star]. destruct (Ascii.eqb_spec c "/") as [->|Hc].
  - replace (tail_ok (String "/" s)) with true; [reflexivity|].
    symmetry. apply tail_ok_cases. right. right. now exists s.
  - rewrite Ha, IH by assumption. apply orb_true_r.
Qed.

Lemma run_lits_any (lit : string) (tail : Re.regex) :
  (forall b s, Re.run tail b s (fun _ _ => true) = true) ->
  forall bol s,
    Re.run (lits lit tail) bol s (fun _ _ => true)
    = starts (fun _ => true) lit s.
Proof.
  intros Ht. induction lit as [|c lit IH]; intros bol s; cbn [lits starts].
  - apply Ht.
  - cbn [Re.run]. destruct s as [|d s]; [reflexivity|].
    cbn [Re.accepts]. now rewrite IH.
Qed.

Lemma star_ext (a : Re.charset) (k1 k2 : bool -> string -> bool) :
  (forall b s, k1 b s = k2 b s) ->
  forall s bol, Re.star a k1 bol s = Re.star a k2 bol s.
Proof.
  intros Hk. induction s as [|c s IH]; intros bol; cbn [Re.star].
  - now rewrite Hk.
  - now rewrite Hk, IH.
Qed.

Lemma match_prefix_regex (a : Re.charset) (lit s : string) :
  (forall c, c <> "/"%char -> Re.accepts a c = true) ->
  Re.match_ (prefix_regex a lit) s = starts (fun _ => true) lit s.
Proof.
  intros Ha. unfold Re.match_, prefix_regex. cbn [Re.run andb].
  apply run_lits_any. intros b s'.
  change (Re.run (Re.RSeq (Re.RStar a) (Re.RSeq end_or_sep Re.REmpty)) b s'
            (fun _ _ => true))
    with (Re.star a
            (fun b0 s0 =>
               Re.run (Re.RSeq end_or_sep Re.REmpty) b0 s0 (fun _ _ => true))
            b s').
  rewrite (star_ext a _ (fun _ s0 => tail_ok s0)) by apply run_end_or_sep.
  now apply star_to_tail.
Qed.

Lemma not_sep_accepts (c : ascii) :
  c <> "/"%char -> Re.accepts not_sep c = true.
Proof.
  intros Hc. unfold not_sep, Re.accepts, existsb, Re.in_range, Re.code.
  cbn [fst snd]. rewrite orb_false_r.
  destruct (N.leb_spec (N_of_ascii "/") (N_of_ascii c)) as [H1|H1];
    [|reflexivity].
  destruct (N.leb_spec (N_of_ascii c) (N_of_ascii "/")) as [H2|H2];
    [|reflexivity].
  exfalso. apply Hc. rewrite <- (ascii_N_embedding c),
    <- (ascii_N_embedding "/"). f_equal. lia.
Qed.

Lemma strip_trailing_sep_star (lit : string) (stars : string) :
  stars = "*" \/ stars = "**" ->
  strip_trailing_sep (lit +:+ stars) = Ret (false, lit +:+ stars).
Proof.
  intros Hs. apply (strip_trailing_sep_none _ "*"); [|discriminate].
  destruct Hs as [-> | ->].
  - apply last_char_snoc.
  - replace (lit +:+ "**") with ((lit +:+ "*") +:+ "*")
      by (now rewrite append_assoc).
    apply last_char_snoc.
Qed.

(** [path_matches_glob], globmatch.py 74, on a literal followed by [**] or
    by [*]: the match regex, [^lit.*($|/)] or [^lit[^/]*($|/)], matches
    exactly the names that begin with the literal, whatever follows it; a
    [*] at the end of a glob stops at no separator there. *)
Theorem star_suffix_matches_beginnings (lit : string) :
  is_literal lit = true ->
  match_regex (lit +:+ "**") = Ret (prefix_regex Re.CsAny lit)
  /\ match_regex (lit +:+ "*") = Ret (prefix_regex not_sep lit)
  /\ forall s,
       Re.match_ (prefix_regex Re.CsAny lit) s
       = starts (fun _ => true) lit s
       /\ Re.match_ (prefix_regex not_sep lit) s
          = starts (fun _ => true) lit s.
Proof.
  intros Hl. split; [|split].
  - unfold match_regex. rewrite strip_trailing_sep_star by auto.
    cbn [bind]. unfold glob_comp_re_source.
    rewrite glob_to_regex_literal_app by exact Hl.
    change (glob_to_regex "**") with ".*". apply compile_prefix_any.
  - unfold match_regex. rewrite strip_trailing_sep_star by auto.
    cbn [bind]. unfold glob_comp_re_source.
    rewrite glob_to_regex_literal_app by exact Hl.
    change (glob_to_regex "*") with "[^/]*". apply compile_prefix_not_sep.
  - intros s. split; apply match_prefix_regex;
      [reflexivity|apply not_sep_accepts].
Qed.

(** ** Instances *)

Lemma trailing_sep_on_directory_witness :
  path_matches_glob {| name := "a/b"; isdir := true |} ("a" +:+ "/") 1
  = path_matches_glob {| name := "a/b"; isdir := true |} "a" 1.
Proof.
  apply (trailing_sep_on_directory {| name := "a/b"; isdir := true |}
           "a" "a" 1); [reflexivity|reflexivity|discriminate].
Defined.

Lemma literal_glob_decision_witness :
  path_matches_glob {| name := "a"; isdir := true |} "a/b/" 1
  = Ret (literal_decision {| name := "a"; isdir := true |} true "a/b" 1).
Proof.
  apply (literal_glob_decision {| name := "a"; isdir := true |}
           "a/b/" 1 true "a/b"); reflexivity.
Defined.

Lemma include_glob_scans_prefixes_witness :
  path_matches_glob {| name := "a/b"; isdir := true |} "a/b/c" 1
  = Ret (Some 2%Z).
Proof.
  apply (include_glob_scans_prefixes {| name := "a/b"; isdir := true |}
           "a/b/c" false "a/b/c" "a/b");
    [reflexivity|reflexivity|reflexivity| |cbn; lia|reflexivity|reflexivity].
  right. left. reflexivity.
Defined.

Lemma prefix_regexs_end_with_glob_witness :
  exists regexs,
    _glob_get_prefix_regexs "a/b*" = Ret regexs
    /\ length regexs = length (Py.split "/" "a/b*")
    /\ last regexs = Some (glob_to_regex "a/b*").
Proof.
  apply (prefix_regexs_end_with_glob "a/b*"); [discriminate|reflexivity].
Defined.

Lemma star_suffix_matches_beginnings_witness :
  match_regex ("a/" +:+ "**") = Ret (prefix_regex Re.CsAny "a/")
  /\ match_regex ("a/" +:+ "*") = Ret (prefix_regex not_sep "a/")
  /\ forall s,
       Re.match_ (prefix_regex Re.CsAny "a/") s
       = starts (fun _ => true) "a/" s
       /\ Re.match_ (prefix_regex not_sep "a/") s
          = starts (fun _ => true) "a/" s.
Proof. apply (star_suffix_matches_beginnings "a/"). reflexivity. Defined.

End GlobmatchRules.

(** * [closing_func] and the end of the streams *)

Module MultiplexClosing.
Import Lazy LazyInv LazyProps MultiplexProps.

Section Runs.

Context {A : Type}.

Lemma all_received_forall (source : list A) (n : nat)
    (tr : list (nat * pulled A)) :
  all_received source n tr = true
  <-> forall j, j < n -> length (yields j tr) = length source.
Proof.
  unfold all_received. rewrite forallb_forall. split.
  - intros H j Hj. apply Nat.eqb_eq, H, in_seq. lia.
  - intros H j Hj%in_seq. apply Nat.eqb_eq, H. lia.
Qed.

(** Once every fork has received the whole source, no request returns an
    element. *)
Lemma like_source_after_all (source : list A) (n : nat)
    (tr : list (nat * pulled A)) (k : nat) :
  all_received source n tr = true ->
  is_item (like_source source n tr k) = false.
Proof.
  intros Hall. unfold like_source.
  destruct (Nat.leb_spec n k) as [Hk|Hk]; [reflexivity|].
  destruct (drained k tr); [reflexivity|].
  rewrite (proj1 (all_received_forall _ _ _) Hall k Hk).
  now rewrite lookup_ge_None_2.
Qed.

Lemma all_received_snoc (source : list A) (n : nat)
    (tr : list (nat * pulled A)) (k : nat) (r : pulled A) :
  is_item r = false ->
  all_received source n (tr ++ [(k, r)]) = all_received source n tr.
Proof.
  intros Hr. unfold all_received.
  induction (seq 0 n) as [|j l IH]; [reflexivity|].
  cbn [forallb]. rewrite IH, yields_snoc. f_equal.
  destruct r; [discriminate|..]; now rewrite app_nil_r.
Qed.

Lemma closing_func_run (source : list A) (n : nat) (sched : list nat) :
  (1 <= closing_calls (mx_log (run_forks sched (multiplex source n)).2) ->
   all_received source n (run_forks sched (multiplex source n)).1 = true)
  /\ ((forall j, j < n ->
         drained j (run_forks sched (multiplex source n)).1 = true) ->
      0 < n ->
      1 <= closing_calls (mx_log (run_forks sched (multiplex source n)).2)).
Proof.
  induction sched as [|k sched [IH1 IH2]] using rev_ind.
  - split; [cbn; lia|]. intros H Hn. specialize (H 0 Hn). discriminate.
  - pose proof (run_forks_reached source n sched) as Hr.
    destruct (run_forks_content source n sched) as (_ & _ & Hpre & Hfull).
    pose proof (fork_next_run source n sched k) as Hlike.
    rewrite run_forks_snoc. cbn [fst snd].
    destruct (fork_next_reached source n _ _ k Hr) as (_ & Hcc & _).
    set (tr := (run_forks sched (multiplex source n)).1) in *.
    set (m := (run_forks sched (multiplex source n)).2) in *.
    rewrite Hcc, Hlike. split.
    + intros Hcalls.
      assert (Hall : all_received source n tr = true).
      { destruct (Nat.ltb k n && negb (drained k tr)
                  && all_received source n tr) eqn:Hcond.
        - now apply andb_true_iff in Hcond as [_ ?].
        - apply IH1. lia. }
      rewrite all_received_snoc; [exact Hall|].
      now apply like_source_after_all.
    + intros Hd Hn.
      destruct (Nat.ltb k n && negb (drained k tr)) eqn:Hk;
        rewrite ?andb_true_l, ?andb_false_l.
      * apply andb_true_iff in Hk as [Hkn Hdk].
        apply Nat.ltb_lt in Hkn. apply negb_true_iff in Hdk.
        replace (all_received source n tr) with true; [lia|].
        symmetry. apply all_received_forall. intros j Hj.
        specialize (Hd j Hj). rewrite drained_snoc in Hd.
        destruct (Nat.eqb_spec j k) as [Hjk|Hne].
        -- rewrite Hjk in *. clear Hjk.
           rewrite Hdk in Hd. cbn [orb] in Hd.
           unfold like_source in Hd.
           replace (Nat.leb n k) with false in Hd
             by (symmetry; apply Nat.leb_gt; exact Hkn).
           rewrite Hdk in Hd.
           destruct (source !! length (yields k tr)) eqn:Hlk;
             [discriminate|].
           apply lookup_ge_None in Hlk.
           pose proof (f_equal (@length _) (Hpre k Hkn)) as Hlen.
           rewrite length_take in Hlen. lia.
        -- apply Hfull; [exact Hj|].
           replace (Nat.eqb j k) with false in Hd
             by (symmetry; now apply Nat.eqb_neq).
           now rewrite andb_false_r, orb_false_r in Hd.
      * rewrite Nat.add_0_r. apply IH2; [|exact Hn]. intros j Hj.
        specialize (Hd j Hj). rewrite drained_snoc in Hd.
        apply orb_true_iff in Hd as [Hd|Hd]; [exact Hd|].
        apply andb_true_iff in Hd as [_ Hd].
        apply Nat.eqb_eq in Hd. subst j.
        apply andb_false_iff in Hk as [Hk|Hk].
        -- apply Nat.ltb_ge in Hk. lia.
        -- now apply negb_false_iff in Hk.
Qed.

(** [closing_func], lazy.py 183-188, is called when all the streams are
    finished: after any run of the forks of a new multiplexer, it has been
    called only if every fork has received the whole source, and it has
    been called once every fork (there is one at least) has met the end of
    the iteration. *)
Theorem closing_func_when_streams_finished (source : list A) (n : nat)
    (sched : list nat) :
  (1 <= closing_calls (mx_log (run_forks sched (multiplex source n)).2) ->
   forall j, j < n ->
     yields j (run_forks sched (multiplex source n)).1 = source)
  /\ ((forall j, j < n ->
         drained j (run_forks sched (multiplex source n)).1 = true) ->
      0 < n ->
      1 <= closing_calls (mx_log (run_forks sched (multiplex source n)).2)).
Proof.
  destruct (closing_func_run source n sched) as [H1 H2].
  split; [|exact H2]. intros Hc j Hj.
  destruct (run_forks_content source n sched) as (_ & _ & Hpre & _).
  rewrite (Hpre j Hj).
  rewrite (proj1 (all_received_forall _ _ _) (H1 Hc) j Hj).
  apply firstn_all.
Qed.

End Runs.

End MultiplexClosing.

(** * Every entry is accounted for once *)

Module ReducerEntries.
Import Lazy LazyInv.

Section Reducer.

Context {P : Type}.
Variable start_process : list event -> nat -> Index * P -> hook_result.
Variable end_process : list event -> nat -> hook_result.
Variable can_fast_process : list event -> nat -> Index * P -> bool.
Variable fast_process : list event -> nat -> Index * P -> hook_result.

Local Abbreviation call := (call start_process end_process can_fast_process fast_process).
Local Abbreviation feed := (feed start_process end_process can_fast_process fast_process).
Local Abbreviation reduce :=
  (reduce start_process end_process can_fast_process fast_process).
Local Abbreviation Finish := (Finish end_process).
Local Abbreviation Finish_loop := (Finish_loop end_process).
Local Abbreviation finish_branches := (finish_branches end_process).
Local Abbreviation call_end_proc := (call_end_proc end_process).
Local Abbreviation process_w_branch := (process_w_branch start_process).

Lemma handled_emit (e : event) (w : world) :
  omap handled (log (emit e w)) = omap handled (log w) ++ omap handled [e].
Proof. unfold emit. cbn [log]. apply omap_app. Qed.

Lemma handled_check_common_error (b : nat) (filename : Index)
    (r : hook_result) (w : world) :
  omap handled (log (check_common_error b filename r w))
  = omap handled (log w).
Proof.
  destruct r; [reflexivity|]. unfold check_common_error, on_error.
  rewrite handled_emit. cbn. apply app_nil_r.
Qed.

Lemma handled_call_end_proc (b : nat) (w : world) :
  omap handled (log (call_end_proc b w)) = omap handled (log w).
Proof.
  unfold Lazy.call_end_proc. cbn [update_branch log].
  rewrite handled_check_common_error, handled_emit. cbn [omap handled].
  rewrite app_nil_r.
  now destruct (finished (get_branch w b) || negb (start_successful (get_branch w b))).
Qed.

Lemma handled_finish_branches (i : Index) (bs : list nat) :
  forall w,
    omap handled (log (finish_branches i bs w).2) = omap handled (log w).
Proof.
  induction bs as [|b rest IH]; intros w; [reflexivity|].
  cbn [Lazy.finish_branches].
  destruct (base_index (get_branch w b)) as [base|]; [|reflexivity].
  destruct (negb (index_eqb base (firstn (length base) i))); [|reflexivity].
  destruct rest as [|p rest'].
  - cbn [snd]. apply handled_call_end_proc.
  - rewrite IH. unfold branch_process. rewrite handled_emit.
    cbn [omap handled]. rewrite app_nil_r. apply handled_call_end_proc.
Qed.

Lemma handled_Finish_loop (bs : list nat) :
  forall w,
    omap handled (log (Finish_loop bs w).2) = omap handled (log w).
Proof.
  induction bs as [|b rest IH]; intros w; [reflexivity|].
  cbn [Lazy.Finish_loop]. destruct rest as [|p rest'].
  - cbn [snd]. apply handled_call_end_proc.
  - rewrite IH. unfold branch_process. rewrite handled_emit.
    cbn [omap handled]. rewrite app_nil_r. apply handled_call_end_proc.
Qed.

Lemma handled_process_w_branch (i : Index) (b : nat) (args : Index * P)
    (w : world) :
  omap handled (log (process_w_branch i b args w))
  = omap handled (log w) ++ [fst args].
Proof.
  unfold Lazy.process_w_branch. cbn [update_branch log].
  match goal with
  | |- context [if ?c then _ else _] => destruct c
  end; cbn [update_branch log];
    now rewrite handled_check_common_error, handled_emit.
Qed.

(** A call accounts for its entry when it returns 1, and for nothing
    when it returns [None] or raises. *)
Lemma handled_call (args : Index * P) (itr : IterTreeReducer) (w : world) :
  omap handled (log (call args itr w).2)
  = omap handled (log w) ++ accepted [(call args itr w).1.1] [fst args].
Proof.
  unfold Lazy.call. destruct (index itr) as [self_index|].
  2:{ cbn [fst snd accepted]. apply handled_process_w_branch. }
  destruct (index_le (fst args) self_index).
  { cbn [fst snd accepted]. now rewrite handled_emit. }
  pose proof (handled_finish_branches (fst args) (branches itr) w) as Hfb.
  destruct (finish_branches (fst args) (branches itr) w) as [[r bs] w'].
  cbn [fst snd] in Hfb. rewrite <- Hfb.
  destruct r as [[z|]|e]; cbn [fst snd accepted];
    [|now rewrite app_nil_r..].
  cbn [set_branches branches]. destruct bs as [|top bs'];
    [cbn [fst snd accepted]; now rewrite app_nil_r|].
  destruct (start_successful (get_branch w' top)).
  - destruct (can_fast_process (log w') top args); cbn [fst snd accepted].
    + now rewrite handled_check_common_error, !handled_emit, <- app_assoc.
    + unfold add_branch. cbv beta iota. cbn [fst snd accepted].
      rewrite handled_process_w_branch. cbn [log].
      rewrite handled_emit. now rewrite <- app_assoc.
  - cbn [fst snd accepted]. unfold log_prev_error. now rewrite handled_emit.
Qed.

Lemma handled_feed (entries : list (Index * P)) :
  forall itr w,
    omap handled (log (feed entries itr w).2)
    = omap handled (log w)
      ++ accepted (feed entries itr w).1.1 (map fst entries).
Proof.
  induction entries as [|args entries IH]; intros itr w.
  - cbn. now rewrite app_nil_r.
  - cbn [Lazy.feed map]. pose proof (handled_call args itr w) as Hc.
    destruct (call args itr w) as [[r itr1] w1]. cbn [fst snd] in Hc.
    specialize (IH itr1 w1).
    destruct (feed entries itr1 w1) as [[rs itr2] w2]. cbn [fst snd] in *.
    rewrite IH, Hc, <- app_assoc. f_equal.
    now destruct r as [[z|]|e].
Qed.

(** The entries a whole reduction accounts for. *)
Lemma reduce_handled (entries : list (Index * P)) :
  omap handled (log (reduce entries).2)
  = accepted (feed entries ITR_init.1 ITR_init.2).1.1 (map fst entries).
Proof.
  unfold Lazy.reduce. cbn [ITR_init fst snd].
  pose proof (handled_feed entries ITR_init.1 ITR_init.2) as Hf.
  cbn [ITR_init fst snd] in Hf.
  destruct (feed entries _ _) as [[rs itr] w]. cbn [fst snd] in Hf.
  unfold Lazy.Finish.
  pose proof (handled_Finish_loop (branches itr) w) as HF.
  destruct (Finish_loop (branches itr) w) as [[r bs] w']. cbn [fst snd] in *.
  now rewrite HF, Hf.
Qed.

(** [IterTreeReducer.__call__], lazy.py 320-356: no entry is lost and none
    is handled twice.  In a whole reduction, whatever the entries, their
    order and the hooks do, the calls of [start_process] and
    [fast_process] and the warnings about an entry skipped or out of
    order name, in order, exactly the indices of the calls that returned
    1: each of those entries once, and no entry of a call that returned
    [None] or raised. *)
Theorem every_entry_accounted_for_once (entries : list (Index * P)) :
  omap handled (log (reduce entries).2)
  = accepted (feed entries ITR_init.1 ITR_init.2).1.1 (map fst entries).
Proof. apply reduce_handled. Qed.

End Reducer.

End ReducerEntries.

(** * The tree reducer: the calls and the tree of the indices *)

Module ReducerOrder.
Import Lazy LazyInv LazyProps ReducerEntries.

Lemma accepted_raise (e : exn) (indices : list Index) :
  accepted (map (fun _ => Raise e) indices) indices = [].
Proof. induction indices as [|i rest IH]; [reflexivity|exact IH]. Qed.

Lemma accepted_results_in_tree (root : Index) (indices : list Index) :
  accepted (results_in_tree root indices) indices = within root indices.
Proof.
  induction indices as [|i rest IH]; [reflexivity|].
  cbn [results_in_tree within]. destruct (is_prefix root i); cbn [accepted].
  - now rewrite IH.
  - apply accepted_raise.
Qed.

Lemma handled_opened (tr : list event) :
  count unopened tr = 0 -> none_refused tr ->
  omap handled tr = omap opened tr.
Proof.
  induction tr as [|e tr IH]; intros Hc Hn; [reflexivity|].
  assert (Hn' : none_refused tr).
  { intros o n Hin. apply (Hn o n). apply elem_of_cons. auto. }
  cbn [count] in Hc.
  destruct e as [b i|b|p c|b i|b i|wn]; cbn [unopened] in Hc;
    try (cbn; rewrite IH by (assumption || lia); reflexivity); try lia.
  destruct wn as [o n|f|i]; try lia;
    try (cbn; rewrite IH by (assumption || lia); reflexivity).
  exfalso. apply (Hn o n). apply elem_of_cons. auto.
Qed.

Section Reducer.

Context {P : Type}.
Variable start_process : list event -> nat -> Index * P -> hook_result.
Variable end_process : list event -> nat -> hook_result.
Variable can_fast_process : list event -> nat -> Index * P -> bool.
Variable fast_process : list event -> nat -> Index * P -> hook_result.

Local Abbreviation call := (call start_process end_process can_fast_process fast_process).
Local Abbreviation feed := (feed start_process end_process can_fast_process fast_process).
Local Abbreviation reduce :=
  (reduce start_process end_process can_fast_process fast_process).
Local Abbreviation Finish := (Finish end_process).
Local Abbreviation Finish_loop := (Finish_loop end_process).
Local Abbreviation finish_branches := (finish_branches end_process).
Local Abbreviation call_end_proc := (call_end_proc end_process).
Local Abbreviation process_w_branch := (process_w_branch start_process).

(** The entries accounted for by a reduction are those in the tree. *)
Lemma handled_in_tree (entries : list (Index * P)) :
  strictly_increasing (map fst entries) = true ->
  omap handled (log (reduce entries).2) = in_tree (map fst entries).
Proof.
  intros Hinc. rewrite reduce_handled.
  destruct entries as [|args entries]; [reflexivity|].
  rewrite new_reducer_results by exact Hinc.
  cbn [map accepted in_tree]. now rewrite accepted_results_in_tree.
Qed.

(** *** No entry goes without a branch when no start fails and the fast
    path is never taken *)

Lemma count_emit (f : event -> bool) (e : event) (w : world) :
  count f (log (emit e w)) = count f (log w) + (if f e then 1 else 0).
Proof. unfold emit. cbn [log]. rewrite count_app. cbn [count]. lia. Qed.

Lemma unopened_check_common_error (b : nat) (filename : Index)
    (r : hook_result) (w : world) :
  count unopened (log (check_common_error b filename r w))
  = count unopened (log w).
Proof.
  destruct r; [reflexivity|]. unfold check_common_error, on_error.
  rewrite count_emit. cbn. lia.
Qed.

Lemma unopened_call_end_proc (b : nat) (w : world) :
  count unopened (log (call_end_proc b w)) = count unopened (log w).
Proof.
  unfold Lazy.call_end_proc. cbn [update_branch log].
  rewrite unopened_check_common_error, count_emit. cbn [unopened].
  destruct (finished (get_branch w b) || negb (start_successful (get_branch w b)));
    cbn [update_branch log]; lia.
Qed.

Lemma unopened_finish_branches (i : Index) (bs : list nat) :
  forall w,
    count unopened (log (finish_branches i bs w).2) = count unopened (log w).
Proof.
  induction bs as [|b rest IH]; intros w; [reflexivity|].
  cbn [Lazy.finish_branches].
  destruct (base_index (get_branch w b)) as [base|]; [|reflexivity].
  destruct (negb (index_eqb base (firstn (length base) i))); [|reflexivity].
  destruct rest as [|p rest'].
  - cbn [snd]. apply unopened_call_end_proc.
  - rewrite IH. unfold branch_process. rewrite count_emit.
    cbn [unopened]. rewrite unopened_call_end_proc. lia.
Qed.

Lemma unopened_Finish_loop (bs : list nat) :
  forall w,
    count unopened (log (Finish_loop bs w).2) = count unopened (log w).
Proof.
  induction bs as [|b rest IH]; intros w; [reflexivity|].
  cbn [Lazy.Finish_loop]. destruct rest as [|p rest'].
  - cbn [snd]. apply unopened_call_end_proc.
  - rewrite IH. unfold branch_process. rewrite count_emit.
    cbn [unopened]. rewrite unopened_call_end_proc. lia.
Qed.

Lemma unopened_process_w_branch (i : Index) (b : nat) (args : Index * P)
    (w : world) :
  count unopened (log (process_w_branch i b args w)) = count unopened (log w).
Proof.
  unfold Lazy.process_w_branch. cbn [update_branch log].
  match goal with
  | |- context [if ?c then _ else _] => destruct c
  end; cbn [update_branch log];
    rewrite unopened_check_common_error, count_emit; cbn [unopened]; lia.
Qed.

Lemma all_started_kept (stk : list nat) (w w' : world) :
  flags_kept w w' -> all_started stk w -> all_started stk w'.
Proof. intros [_ Hk] H b Hb. now apply Hk, H. Qed.

Lemma finish_branches_started (i : Index) (stk : list nat) :
  forall w,
    all_started stk w ->
    all_started (finish_branches i stk w).1.2 (finish_branches i stk w).2.
Proof.
  induction stk as [|b rest IH]; intros w H; cbn [Lazy.finish_branches];
    [exact H|].
  destruct (base_index (get_branch w b)) as [ib|]; [|exact H].
  destruct (negb _); [|exact H].
  destruct (call_end_proc_kept end_process b w) as (Hk & _).
  destruct rest as [|p rest'].
  - cbn [fst snd]. intros x Hx. now apply elem_of_nil in Hx.
  - apply IH. eapply all_started_kept.
    + eapply flags_kept_trans; [exact Hk|apply flags_kept_emit].
    + intros x Hx. apply H. apply elem_of_cons. auto.
Qed.

Lemma process_w_branch_started (i : Index) (b : nat) (args : Index * P)
    (w : world) :
  start_process (log w) b args = Returns ->
  caught_exception (get_branch w b) = false -> b < nb w ->
  start_successful (get_branch (process_w_branch i b args w) b) = true.
Proof.
  intros Hs Hc Hb. unfold Lazy.process_w_branch. rewrite Hs.
  cbn [check_common_error].
  change (get_branch (emit (Ev_start_process b (fst args)) w) b)
    with (get_branch w b).
  rewrite Hc. cbn [negb]. rewrite !get_branch_update.
  rewrite !decide_True; [reflexivity|..]; split; try reflexivity;
    unfold nb, update_branch, emit; cbn [heap]; rewrite ?length_alter;
    exact Hb.
Qed.

(** A call on a reducer past its first entry, when no [start_process]
    fails and [can_fast_process] always says no: the branches on the stack
    stay started, and the entry is neither processed by [fast_process] nor
    skipped. *)
Lemma call_opens (args : Index * P) (itr : IterTreeReducer) (w : world) :
  (forall l b a, start_process l b a = Returns) ->
  (forall l b a, can_fast_process l b a = false) ->
  index itr <> None ->
  all_started (branches itr) w ->
  index (call args itr w).1.2 <> None
  /\ all_started (branches (call args itr w).1.2) (call args itr w).2
  /\ count unopened (log (call args itr w).2) = count unopened (log w).
Proof.
  intros Hs Hf Hidx Hst. unfold Lazy.call.
  destruct (index itr) as [self_index|] eqn:Hi; [|contradiction]. clear Hidx.
  destruct (index_le (fst args) self_index).
  { cbn [fst snd]. rewrite Hi. split; [discriminate|]. split; [exact Hst|].
    rewrite count_emit. cbn. lia. }
  pose proof (finish_branches_started (fst args) (branches itr) w Hst) as Hst1.
  pose proof (unopened_finish_branches (fst args) (branches itr) w) as Hc1.
  destruct (finish_branches (fst args) (branches itr) w) as [[r bs] w1].
  cbn [fst snd] in Hst1, Hc1.
  destruct r as [[z|]|e]; cbn [set_branches branches index fst snd];
    [|rewrite Hi; split; [discriminate|split; assumption]..].
  destruct bs as [|top rest].
  { cbn [set_branches branches index fst snd]. rewrite Hi.
    split; [discriminate|split; assumption]. }
  rewrite (Hst1 top) by apply list_elem_of_here. rewrite Hf.
  unfold add_branch. cbv beta iota.
  cbn [set_index set_branches branches index fst snd].
  set (w2 := emit (Ev_can_fast_process top (fst args)) w1).
  set (w3 := {| heap := heap w2 ++ [ITRBranch_new]; log := log w2 |}).
  split; [discriminate|]. split.
  - intros x Hx. apply elem_of_cons in Hx as [->|Hx].
    + apply process_w_branch_started; [apply Hs| |].
      * unfold get_branch, w3. cbn [heap].
        now rewrite list_lookup_middle.
      * unfold nb, w3. cbn [heap]. rewrite length_app. cbn. lia.
    + destruct (process_w_branch_kept start_process (fst args)
                  (length (heap w2)) args w3) as ([_ Hk] & _).
      apply Hk. unfold w3. rewrite get_branch_add. now apply Hst1.
  - rewrite unopened_process_w_branch. unfold w3. cbn [log]. unfold w2.
    rewrite count_emit. cbn [unopened]. lia.
Qed.

Lemma feed_opens (entries : list (Index * P)) :
  (forall l b a, start_process l b a = Returns) ->
  (forall l b a, can_fast_process l b a = false) ->
  forall itr w,
    index itr <> None ->
    all_started (branches itr) w ->
    count unopened (log (feed entries itr w).2) = count unopened (log w).
Proof.
  intros Hs Hf. induction entries as [|args entries IH]; intros itr w Hi Hst;
    [reflexivity|].
  cbn [Lazy.feed].
  destruct (call_opens args itr w Hs Hf Hi Hst) as (Hi1 & Hst1 & Hc1).
  destruct (call args itr w) as [[r itr1] w1]. cbn [fst snd] in *.
  specialize (IH itr1 w1 Hi1 Hst1).
  destruct (feed entries itr1 w1) as [[rs itr2] w2]. cbn [fst snd] in *.
  congruence.
Qed.

(** When no [start_process] fails and [can_fast_process] always says no,
    a reduction processes no entry by [fast_process] and skips none. *)
Lemma reduce_unopened (entries : list (Index * P)) :
  (forall l b a, start_process l b a = Returns) ->
  (forall l b a, can_fast_process l b a = false) ->
  count unopened (log (reduce entries).2) = 0.
Proof.
  intros Hs Hf.
  assert (Hfeed : count unopened (log (feed entries ITR_init.1 ITR_init.2).2)
                  = 0).
  { destruct entries as [|args entries]; [reflexivity|]. cbn [Lazy.feed].
    assert (H1 : index (call args ITR_init.1 ITR_init.2).1.2 <> None
                 /\ all_started
                      (branches (call args ITR_init.1 ITR_init.2).1.2)
                      (call args ITR_init.1 ITR_init.2).2
                 /\ count unopened (log (call args ITR_init.1 ITR_init.2).2)
                    = 0).
    { unfold Lazy.call.
      cbn [ITR_init fst snd index root_branch set_index branches].
      split; [discriminate|]. split.
      - intros x Hx. apply list_elem_of_singleton in Hx. subst x.
        apply process_w_branch_started; [apply Hs|reflexivity|].
        unfold nb. cbn. lia.
      - now rewrite unopened_process_w_branch. }
    destruct (call args ITR_init.1 ITR_init.2) as [[r itr1] w1].
    cbn [fst snd] in *. destruct H1 as (Hi1 & Hst1 & Hc1).
    pose proof (feed_opens entries Hs Hf itr1 w1 Hi1 Hst1) as H2.
    destruct (feed entries itr1 w1) as [[rs itr2] w2]. cbn [fst snd] in *.
    congruence. }
  unfold Lazy.reduce. cbn [ITR_init fst snd] in *.
  destruct (feed entries _ _) as [[rs itr] w].
  cbn [fst snd] in Hfeed. unfold Lazy.Finish.
  pose proof (unopened_Finish_loop (branches itr) w) as HF.
  destruct (Finish_loop (branches itr) w) as [[r bs] w']. cbn [fst snd] in *.
  congruence.
Qed.

(** C1.  The entries of a strictly increasing sequence of indices are fed
    one at a time to a new reducer, then [Finish] is called.  Whatever the
    hooks do and whatever the calls return:
    - the entries in the tree (the first index and those after it that
      begin with it) are accounted for one by one, in order, each by a call
      of [start_process] or of [fast_process] or by a warning that it is
      skipped, and nothing else is;
    - the first call opens the root on the first index;
    - when no [start_process] fails and [can_fast_process] always says no
      (as with the stubs of [ITRBranch]), each entry in the tree opens a
      branch: the indices the branches are opened on are, in order, the
      entries in the tree;
    - every branch that was opened has had one [start_process] and one
      [end_process];
    - every finished branch but the outermost was handed once to the
      [branch_process] of its parent, the opened branch with the longest
      base index that properly begins its own;
    - the calls come in a post-order of the tree of the indices;
    - no entry was refused as out of order. *)
Theorem tree_reducer_post_order (entries : list (Index * P)) :
  strictly_increasing (map fst entries) = true ->
  omap handled (log (reduce entries).2) = in_tree (map fst entries)
  /\ opens_root (map fst entries) (log (reduce entries).2)
  /\ ((forall l b a, start_process l b a = Returns) ->
      (forall l b a, can_fast_process l b a = false) ->
      omap opened (log (reduce entries).2) = in_tree (map fst entries))
  /\ started_and_ended_once (log (reduce entries).2)
  /\ merged_once_into_parent (log (reduce entries).2)
  /\ post_order (log (reduce entries).2)
  /\ none_refused (log (reduce entries).2).
Proof.
  intros Hinc.
  destruct (reduce_log_order start_process end_process can_fast_process
              fast_process entries Hinc) as (H1 & H2 & H3 & H4).
  pose proof (handled_in_tree entries Hinc) as Hh.
  split; [exact Hh|]. split; [now apply reduce_opens_root|].
  split; [|exact (conj H1 (conj H2 (conj H3 H4)))].
  intros Hs Hf. rewrite <- Hh. symmetry.
  apply handled_opened; [now apply reduce_unopened|exact H4].
Qed.

End Reducer.

(** The reduction of the indices [()], [a], [a/b], [c] with the stubs of
    [ITRBranch]. *)
Lemma tree_reducer_post_order_witness :
  omap handled (log (stub_reduce [[]; ["a"]; ["a"; "b"]; ["c"]]).2)
  = [[]; ["a"]; ["a"; "b"]; ["c"]]
  /\ opens_root [[]; ["a"]; ["a"; "b"]; ["c"]]
       (log (stub_reduce [[]; ["a"]; ["a"; "b"]; ["c"]]).2)
  /\ omap opened (log (stub_reduce [[]; ["a"]; ["a"; "b"]; ["c"]]).2)
     = [[]; ["a"]; ["a"; "b"]; ["c"]]
  /\ started_and_ended_once (log (stub_reduce [[]; ["a"]; ["a"; "b"]; ["c"]]).2)
  /\ merged_once_into_parent
       (log (stub_reduce [[]; ["a"]; ["a"; "b"]; ["c"]]).2)
  /\ post_order (log (stub_reduce [[]; ["a"]; ["a"; "b"]; ["c"]]).2)
  /\ none_refused (log (stub_reduce [[]; ["a"]; ["a"; "b"]; ["c"]]).2).
Proof.
  destruct (tree_reducer_post_order
              (fun _ _ _ => Returns) (fun _ _ => Returns)
              (fun _ _ _ => false) (fun _ _ _ => Returns)
              (map (fun i => (i, tt)) [[]; ["a"]; ["a"; "b"]; ["c"]])
              eq_refl) as (H1 & H2 & H3 & H4 & H5 & H6 & H7).
  split; [exact H1|]. split; [exact H2|].
  split; [exact (H3 (fun _ _ _ => eq_refl) (fun _ _ _ => eq_refl))|].
  split; [exact H4|]. split; [exact H5|]. split; [exact H6|exact H7].
Defined.

End ReducerOrder.
